(** * GitBoard: repository selection, fetch orchestration and series alignment

    A shallow embedding of the TypeScript sources of the dashboard:
    - [App.tsx]: [getReposFromUrl], [updateUrl], [handleAddRepo],
      [handleRemoveRepo];
    - [RepoInput.tsx]: [handleAdd];
    - [CommitChart.tsx], [ContributorsChart.tsx], [IssuesChart.tsx]: the
      effect that fetches and polls per repository, and the transformation of
      the fetched series into chart rows.

    A JavaScript string is modelled as [string], the bytes of its UTF-8
    form: the sources look into a string only at the separators [","] and
    ["/"], which are single bytes there, compare strings with [===] and
    call [toLowerCase]. That built-in depends on the Unicode case tables;
    it is a parameter of what uses it, constrained by what it does on ASCII
    strings ([Js.lowersAscii]). Numbers that hold week timestamps and
    counts are [Z], arrays lists, [T | null] is [option T].
    A JavaScript [Map] keeps its keys in insertion order and that order is
    observable through [values()]; it is modelled by [JsMap] below. *)

From Stdlib Require Import ZArith NArith Ascii String.
From stdpp Require Import base option list strings gmap pretty.

Local Open Scope Z_scope.

(** ** JavaScript strings *)

Module Js.

(** [s.split(sep)] for a one-character separator. *)
Fixpoint split (sep : ascii) (s : string) : list string :=
  match s with
  | EmptyString => [EmptyString]
  | String c s' =>
      if Ascii.eqb c sep then EmptyString :: split sep s'
      else match split sep s' with
           | seg :: rest => String c seg :: rest
           | [] => [String c EmptyString]
           end
  end.

(** [xs.join(sep)]. *)
Fixpoint join (sep : ascii) (xs : list string) : string :=
  match xs with
  | [] => EmptyString
  | [x] => x
  | x :: rest => x +:+ String sep (join sep rest)
  end.

(** Truthiness of a string: every string but the empty one. *)
Definition truthy (s : string) : bool :=
  match s with EmptyString => false | String _ _ => true end.

(** Whether character [c] occurs in [s]. *)
Fixpoint occurs (c : ascii) (s : string) : bool :=
  match s with
  | EmptyString => false
  | String d s' => Ascii.eqb d c || occurs c s'
  end.

(** *** [String.prototype.toLowerCase]

    On a string of ASCII characters the built-in replaces the letters [A]
    to [Z] by [a] to [z] and keeps every other character; this part is
    [toLowerCaseAscii]. On other strings it follows the Unicode case tables
    (the Kelvin sign becomes [k], for one), which are not modelled: what
    calls [toLowerCase] takes the built-in as a parameter, and
    [lowersAscii] says of such a parameter what is known of the built-in. *)

Definition lower_ascii (c : ascii) : ascii :=
  let n := N_of_ascii c in
  if ((65 <=? n) && (n <=? 90))%N then ascii_of_N (n + 32) else c.

Fixpoint toLowerCaseAscii (s : string) : string :=
  match s with
  | EmptyString => EmptyString
  | String c s' => String (lower_ascii c) (toLowerCaseAscii s')
  end.

(** Whether every character of [s] is an ASCII character. *)
Fixpoint isAscii (s : string) : bool :=
  match s with
  | EmptyString => true
  | String c s' => (N_of_ascii c <? 128)%N && isAscii s'
  end.

Definition lowersAscii (toLowerCase : string -> string) : Prop :=
  forall s, isAscii s = true -> toLowerCase s = toLowerCaseAscii s.

(** [xs.slice(-n)]: the last [n] elements, all of them when there are
    fewer. *)
Definition slice_last {A} (n : nat) (xs : list A) : list A :=
  drop (length xs - n) xs.

End Js.

(** ** Repository references ([ParsedRepo] of [lib/github]) *)

Record ParsedRepo := { owner : string; name : string }.

#[global] Instance ParsedRepo_eq_dec : EqDecision ParsedRepo.
Proof. solve_decision. Defined.

(** The template [`${repo.owner}/${repo.name}`], used as map key everywhere. *)
Definition repoKey (r : ParsedRepo) : string :=
  owner r +:+ String "/" (name r).

(** ** The selection: [App.tsx] and [RepoInput.tsx] *)

Module App.

(** One comma-separated segment of the [repos] parameter:
    [const [owner, name] = r.split("/")], kept when both are truthy. *)
Definition parseSegment (r : string) : option ParsedRepo :=
  match Js.split "/" r with
  | o :: n :: _ =>
      if Js.truthy o && Js.truthy n then Some {| owner := o; name := n |}
      else None
  | _ => None
  end.

(** [getReposFromUrl], as a function of [params.get("repos")]: [None] when
    the parameter is not there. *)
Definition getReposFromUrl (reposParam : option string) : list ParsedRepo :=
  match reposParam with
  | None => []
  | Some s => if Js.truthy s then omap parseSegment (Js.split "," s) else []
  end.

(** [updateUrl], as the value it leaves in the [repos] parameter: [None]
    when the parameter is deleted. The percent-encoding that
    [URLSearchParams] applies on [set] is undone by it on [get]. *)
Definition updateUrl (repos : list ParsedRepo) : option string :=
  if (length repos =? 0)%nat then None
  else Some (Js.join "," (map repoKey repos)).

(** [handleAddRepo]: [[...prev, repo]]. *)
Definition handleAddRepo (prev : list ParsedRepo) (repo : ParsedRepo)
  : list ParsedRepo := prev ++ [repo].

(** [handleRemoveRepo]: [prev.filter((_, i) => i !== index)]. *)
Definition handleRemoveRepo (prev : list ParsedRepo) (index : nat)
  : list ParsedRepo :=
  map snd (filter (fun p => p.1 ≠ index) (imap (fun i r => (i, r)) prev)).

End App.

Module RepoInput.

(** The component's own state. *)
Record UiState := { inputValue : string; error : option string }.

Section WithParser.
(** The built-in [String.prototype.toLowerCase]. *)
Variable toLowerCase : string -> string.
(** [parseRepoInput] of [lib/github]. *)
Variable parseRepoInput : string -> option ParsedRepo.

(** [repos.some(r => r.owner.toLowerCase() === parsed.owner.toLowerCase()
    && r.name.toLowerCase() === parsed.name.toLowerCase())] *)
Definition isDuplicate (repos : list ParsedRepo) (parsed : ParsedRepo) : bool :=
  existsb
    (fun r =>
       String.eqb (toLowerCase (owner r)) (toLowerCase (owner parsed))
       && String.eqb (toLowerCase (name r)) (toLowerCase (name parsed)))
    repos.

(** [handleAdd]; the call [onAddRepo(parsed)] is [App.handleAddRepo]
    on the selection the component was rendered with. *)
Definition handleAdd (repos : list ParsedRepo) (ui : UiState)
  : list ParsedRepo * UiState :=
  match parseRepoInput (inputValue ui) with
  | None =>
      (repos,
       {| inputValue := inputValue ui;
          error := Some "Invalid format. Use owner/repo or a GitHub URL" |})
  | Some parsed =>
      if isDuplicate repos parsed then
        (repos,
         {| inputValue := inputValue ui;
            error := Some "Repository already added" |})
      else
        (App.handleAddRepo repos parsed,
         {| inputValue := ""; error := None |})
  end.

(** Typing [text] in the box and pressing Add. *)
Definition typeAndAdd (text : string) (repos : list ParsedRepo)
  : list ParsedRepo * UiState :=
  handleAdd repos {| inputValue := text; error := None |}.
End WithParser.

(** Modelled from the spec: [parseRepoInput] is in [lib/github], which is
    not among the sources, and the general statements take it as a
    parameter. This stand-in serves the sample runs only, on inputs
    written [owner/name]: of the two forms of section 4.4 it has the
    shorthand, exactly two non-empty parts around one slash, read as they
    are typed; it does not read repository URLs. *)
Definition parseShorthand (input : string) : option ParsedRepo :=
  match Js.split "/" input with
  | [o; n] =>
      if Js.truthy o && Js.truthy n then Some {| owner := o; name := n |}
      else None
  | _ => None
  end.

End RepoInput.

(** ** JavaScript [Map<string, V>]

    Entries are kept in insertion order; [set] on a key that is there keeps
    its place, on a new key appends. *)

Module JsMap.

Definition t (V : Type) : Type := list (string * V).

Definition empty {V} : t V := [].

Definition get {V} (k : string) (m : t V) : option V :=
  snd <$> List.find (fun p => String.eqb (fst p) k) m.

Definition has {V} (k : string) (m : t V) : bool :=
  existsb (fun p => String.eqb (fst p) k) m.

Fixpoint set {V} (k : string) (v : V) (m : t V) : t V :=
  match m with
  | [] => [(k, v)]
  | (k', v') :: m' =>
      if String.eqb k' k then (k, v) :: m' else (k', v') :: set k v m'
  end.

Definition delete {V} (k : string) (m : t V) : t V :=
  List.filter (fun p => negb (String.eqb (fst p) k)) m.

Definition keys {V} (m : t V) : list string := map fst m.
Definition values {V} (m : t V) : list V := map snd m.

(** The loop [for (const key of m.keys()) if (!keep.has(key)) m.delete(key)]. *)
Definition retain {V} (keep : gset string) (m : t V) : t V :=
  List.filter (fun p => bool_decide (fst p ∈ keep)) m.

End JsMap.

(** [new Set(repos.map((r) => `${r.owner}/${r.name}`))] *)
Definition currentKeys (repos : list ParsedRepo) : gset string :=
  list_to_set (map repoKey repos).

(** ** The polling effect of [CommitChart.tsx] and [ContributorsChart.tsx]

    The two files hold the same effect; they differ in the client they call
    ([fetchCommitActivity], [fetchContributorsOverTime]) and in the name of
    the field that holds the series ([activity] in [CommitChart.tsx], [data]
    in [ContributorsChart.tsx]; [data] here). The effect is modelled once,
    over the type of series.

    What the browser and React hold is made explicit in [State]: the timers
    that [setTimeout] has queued, the promises of the client that have not
    settled, and a log of the client's invocations. State updaters given to
    [setRepoData] are applied in the order they are queued. *)

Module Poll.

(** What the client's promise rejects with: the distinguished
    [StatsComputingError], or another error with its [message]. *)
Inductive FetchError :=
| StatsComputingError
| OtherError (message : string).

Section WithSeries.
Context {Series : Type}.
(** [POLL_INTERVAL_MS] of [lib/github], in milliseconds. *)
Variable POLL_INTERVAL_MS : Z.

Record RepoData := {
  repo : ParsedRepo;
  data : option Series;
  error : option string;
  loading : bool;
  computing : bool }.

(** A queued [setTimeout(() => fetchRepo(repo, true), POLL_INTERVAL_MS)]. *)
Record Timer := { handle : positive; retries : ParsedRepo; due : Z }.

(** A call of the client whose promise has not settled. *)
Record Call := { ticket : positive; target : ParsedRepo }.

Inductive Outcome :=
| Resolved (series : Series)
| Rejected (err : FetchError).

Record State := {
  selection : list ParsedRepo;       (* the [repos] prop *)
  repoData : JsMap.t RepoData;       (* [useState] *)
  pollTimers : JsMap.t positive;     (* [useRef]: key to timer handle *)
  timeouts : list Timer;             (* the browser's timer queue *)
  pending : list Call;               (* unsettled promises *)
  issued : list string;              (* client invocations, oldest first *)
  fresh : positive;                  (* next handle or ticket *)
  clock : Z }.

Definition init : State :=
  {| selection := []; repoData := JsMap.empty; pollTimers := JsMap.empty;
     timeouts := []; pending := []; issued := []; fresh := 1%positive;
     clock := 0 |}.

Definition setRepoData (f : JsMap.t RepoData -> JsMap.t RepoData)
    (st : State) : State :=
  {| selection := selection st; repoData := f (repoData st);
     pollTimers := pollTimers st; timeouts := timeouts st;
     pending := pending st; issued := issued st; fresh := fresh st;
     clock := clock st |}.

(** [clearTimeout(h)] *)
Definition clearTimeout (h : positive) (st : State) : State :=
  {| selection := selection st; repoData := repoData st;
     pollTimers := pollTimers st;
     timeouts := List.filter (fun t => negb (Pos.eqb (handle t) h)) (timeouts st);
     pending := pending st; issued := issued st; fresh := fresh st;
     clock := clock st |}.

Definition setPollTimers (f : JsMap.t positive -> JsMap.t positive)
    (st : State) : State :=
  {| selection := selection st; repoData := repoData st;
     pollTimers := f (pollTimers st); timeouts := timeouts st;
     pending := pending st; issued := issued st; fresh := fresh st;
     clock := clock st |}.

(** The client is called for [r]: a promise is pending, the call logged. *)
Definition callClient (r : ParsedRepo) (st : State) : State :=
  {| selection := selection st; repoData := repoData st;
     pollTimers := pollTimers st; timeouts := timeouts st;
     pending := pending st ++ [{| ticket := fresh st; target := r |}];
     issued := issued st ++ [repoKey r];
     fresh := Pos.succ (fresh st); clock := clock st |}.

(** [setTimeout(() => fetchRepo(r, true), POLL_INTERVAL_MS)] followed by
    [pollTimers.current.set(key, timer)]. *)
Definition scheduleRetry (r : ParsedRepo) (st : State) : State :=
  {| selection := selection st; repoData := repoData st;
     pollTimers := JsMap.set (repoKey r) (fresh st) (pollTimers st);
     timeouts := timeouts st ++
       [{| handle := fresh st; retries := r;
           due := clock st + POLL_INTERVAL_MS |}];
     pending := pending st; issued := issued st;
     fresh := Pos.succ (fresh st); clock := clock st |}.

(** [fetchRepo(repo, isRetry)] up to the call of the client. *)
Definition fetchRepo (r : ParsedRepo) (isRetry : bool) (st : State) : State :=
  let key := repoKey r in
  callClient r
    (setRepoData
       (fun prev =>
          JsMap.set key
            {| repo := r; data := JsMap.get key prev ≫= data;
               error := None; loading := negb isRetry;
               computing := isRetry |} prev) st).

(** The [.then] callback of a call for [r]. *)
Definition onResolved (r : ParsedRepo) (series : Series) (st : State) : State :=
  let key := repoKey r in
  let st1 :=
    match JsMap.get key (pollTimers st) with
    | Some timer => setPollTimers (JsMap.delete key) (clearTimeout timer st)
    | None => st
    end in
  setRepoData
    (JsMap.set key
       {| repo := r; data := Some series; error := None;
          loading := false; computing := false |}) st1.

(** The [.catch] callback of a call for [r]. *)
Definition onRejected (r : ParsedRepo) (err : FetchError) (st : State) : State :=
  let key := repoKey r in
  match err with
  | StatsComputingError =>
      scheduleRetry r
        (setRepoData
           (JsMap.set key
              {| repo := r; data := None; error := None;
                 loading := false; computing := true |}) st)
  | OtherError message =>
      setRepoData
        (JsMap.set key
           {| repo := r; data := None; error := Some message;
              loading := false; computing := false |}) st
  end.

(** The guard of the effect: [existing && (existing.data ||
    existing.loading || existing.computing)]; an array, even an empty
    one, is truthy. *)
Definition skips (existing : option RepoData) : bool :=
  match existing with
  | Some e => bool_decide (is_Some (data e)) || loading e || computing e
  | None => false
  end.

(** The loop [repos.forEach] of the effect. The [repoData] that its guard
    reads is the one of the render the effect belongs to ([snapshot]), not
    what the updaters queued meanwhile produce. *)
Definition forEachRepo (snapshot : JsMap.t RepoData)
    (repos : list ParsedRepo) (st : State) : State :=
  foldl (fun acc r =>
           if skips (JsMap.get (repoKey r) snapshot) then acc
           else fetchRepo r false acc)
        st repos.

(** The loop over [pollTimers.current.entries()] of the effect: the timer
    of a key that is not in [keep] is cleared and forgotten. *)
Definition dropTimers (keep : gset string)
    (entries : list (string * positive)) (st : State) : State :=
  foldl (fun acc entry =>
           if bool_decide (fst entry ∈ keep) then acc
           else setPollTimers (JsMap.delete (fst entry))
                  (clearTimeout (snd entry) acc))
        st entries.

(** The body of the effect for the array [repos]. *)
Definition effect (repos : list ParsedRepo) (st : State) : State :=
  let st1 := forEachRepo (repoData st) repos st in
  let keep := currentKeys repos in
  let st2 := setRepoData (JsMap.retain keep) st1 in
  let st3 := dropTimers keep (pollTimers st2) st2 in
  {| selection := repos; repoData := repoData st3;
     pollTimers := pollTimers st3; timeouts := timeouts st3;
     pending := pending st3; issued := issued st3; fresh := fresh st3;
     clock := clock st3 |}.

(** The function the effect returns; React runs it before it runs the
    effect again for a new [repos], and when the component unmounts. *)
Definition cleanup (st : State) : State :=
  setPollTimers (fun _ => JsMap.empty)
    (foldl (fun acc timer => clearTimeout timer acc) st
           (JsMap.values (pollTimers st))).

Inductive Event :=
| SetRepos (repos : list ParsedRepo)   (* rendered with a new [repos] *)
| Settle (t : positive) (o : Outcome)  (* a promise of the client settles *)
| Elapse (dt : Z)                      (* time passes *)
| Fire (h : positive).                 (* a timer that is due runs *)

Definition takeCall (t : positive) (st : State) : option (Call * State) :=
  c ← List.find (fun c => Pos.eqb (ticket c) t) (pending st);
  Some (c,
        {| selection := selection st; repoData := repoData st;
           pollTimers := pollTimers st; timeouts := timeouts st;
           pending := List.filter (fun c => negb (Pos.eqb (ticket c) t)) (pending st);
           issued := issued st; fresh := fresh st; clock := clock st |}).

(** One event; [None] when it cannot happen in [st]. *)
Definition step (st : State) (ev : Event) : option State :=
  match ev with
  | SetRepos repos => Some (effect repos (cleanup st))
  | Settle t o =>
      '(c, st') ← takeCall t st;
      Some match o with
           | Resolved series => onResolved (target c) series st'
           | Rejected err => onRejected (target c) err st'
           end
  | Elapse dt =>
      if 0 <=? dt then
        Some {| selection := selection st; repoData := repoData st;
                pollTimers := pollTimers st; timeouts := timeouts st;
                pending := pending st; issued := issued st;
                fresh := fresh st; clock := clock st + dt |}
      else None
  | Fire h =>
      t ← List.find (fun t => Pos.eqb (handle t) h) (timeouts st);
      if due t <=? clock st then
        Some (fetchRepo (retries t) true (clearTimeout h st))
      else None
  end.

Fixpoint run (st : State) (evs : list Event) : option State :=
  match evs with
  | [] => Some st
  | ev :: evs' => st' ← step st ev; run st' evs'
  end.

(** How often the client was called for [key]. *)
Definition calls (key : string) (st : State) : nat :=
  length (List.filter (String.eqb key) (issued st)).

(** [Array.from(repoData.values()).some((d) => d.loading)] *)
Definition isLoading (rd : JsMap.t RepoData) : bool :=
  existsb loading (JsMap.values rd).

(** [Array.from(repoData.values()).filter((d) => d.computing)
      .map((d) => `${d.repo.owner}/${d.repo.name}`)] *)
Definition computingRepos (rd : JsMap.t RepoData) : list string :=
  map (fun d => repoKey (repo d)) (List.filter computing (JsMap.values rd)).

(** [d.error] as a condition: a message that is there and not empty. *)
Definition shownError (message : option string) : option string :=
  match message with
  | Some m => if Js.truthy m then Some m else None
  | None => None
  end.

(** [Array.from(repoData.values()).filter((d) => d.error)
      .map((d) => ({ repo: `${d.repo.owner}/${d.repo.name}`, error: d.error }))] *)
Definition errors (rd : JsMap.t RepoData) : list (string * string) :=
  omap (fun d => m ← shownError (error d); Some (repoKey (repo d), m))
       (JsMap.values rd).

(** The four blocks of the card that take the place of the chart, each
    with the condition it is rendered under. *)
Record Panels := {
  loadingPanel : bool;     (* "Loading ..." *)
  chartPanel : bool;       (* the line chart *)
  noDataPanel : bool;      (* "No ... data available" *)
  waitingPanel : bool }.   (* "Waiting for GitHub to compute stats..." *)

(** What the component returns: the placeholder card when [repos] is
    empty, otherwise the card with the error lines, the repositories named
    in the "Computing stats for" line (the line is there when the list is
    not empty) and the panels. [rows] is [chartData.length]. *)
Inductive Rendered :=
| Placeholder
| Card (errorLines : list (string * string)) (computingLine : list string)
       (panels : Panels).

Definition render (repos : list ParsedRepo) (rd : JsMap.t RepoData)
    (rows : nat) : Rendered :=
  if (length repos =? 0)%nat then Placeholder
  else
    let loadingNow := isLoading rd in
    let waiting := computingRepos rd in
    Card (errors rd) waiting
      {| loadingPanel := loadingNow;
         chartPanel := negb loadingNow && (0 <? rows)%nat;
         noDataPanel :=
           negb loadingNow && (rows =? 0)%nat && (0 <? length repos)%nat
           && (length waiting =? 0)%nat;
         waitingPanel :=
           negb loadingNow && (rows =? 0)%nat && (0 <? length waiting)%nat |}.

End WithSeries.

Arguments RepoData : clear implicits.
Arguments Outcome : clear implicits.
Arguments State : clear implicits.
Arguments Event : clear implicits.
Arguments Rendered : clear implicits.

End Poll.

(** ** Chart rows ([ChartDataPoint])

    [week] is the label, [weekTimestamp] the raw timestamp; the dynamic
    properties [point[key]] are [columns]. A repository key holds a slash,
    so it is neither of the two fixed property names. *)

Module Chart.

Record Point := {
  week : string;
  weekTimestamp : Z;
  columns : gmap string Z }.

(** [point[key] = v] *)
Definition setColumn (key : string) (v : Z) (p : Point) : Point :=
  {| week := week p; weekTimestamp := weekTimestamp p;
     columns := <[key := v]> (columns p) |}.

(** The first entry of [entries] that has a non-empty series:
    [Array.from(repoData.values()).find((d) => d.data && d.data.length > 0)]
    followed by the projection of its series. *)
Definition baseSeries {D P} (series : D -> option (list P))
    (entries : list D) : option (list P) :=
  List.find
    (fun d => match series d with
              | Some s => negb (length s =? 0)%nat
              | None => false
              end) entries
  ≫= series.

End Chart.

(** ** [CommitChart.tsx] *)

Module CommitChart.

(** [CommitActivity] of [lib/github]: the fields the chart reads. *)
Record CommitActivity := { week : Z; total : Z }.

Definition RepoData := Poll.RepoData (list CommitActivity).
Definition State := Poll.State (list CommitActivity).

(** The series field, [activity] in this file. *)
Definition activity (d : RepoData) : option (list CommitActivity) :=
  Poll.data d.

Section WithFormat.
(** [formatWeekDate] of [lib/github]. *)
Variable formatWeekDate : Z -> string.

Definition chartData (repos : list ParsedRepo)
    (repoData : JsMap.t RepoData) : list Chart.Point :=
  let repoKeys := map repoKey repos in
  match Chart.baseSeries activity (JsMap.values repoData) with
  | Some base =>
      imap (fun index w =>
              foldl (fun point key =>
                       match JsMap.get key repoData ≫= activity with
                       | Some a =>
                           match a !! index with
                           | Some entry => Chart.setColumn key (total entry) point
                           | None => point
                           end
                       | None => point
                       end)
                    {| Chart.week := formatWeekDate (week w);
                       Chart.weekTimestamp := week w;
                       Chart.columns := ∅ |}
                    repoKeys)
           base
  | None => []
  end.
End WithFormat.

End CommitChart.

(** ** [ContributorsChart.tsx] *)

Module ContributorsChart.

(** [ContributorWeek] of [lib/github]: the fields the chart reads. *)
Record ContributorWeek := { week : Z; contributors : Z }.

Definition RepoData := Poll.RepoData (list ContributorWeek).
Definition State := Poll.State (list ContributorWeek).

Section WithFormat.
Variable formatWeekDate : Z -> string.

Definition chartData (repos : list ParsedRepo)
    (repoData : JsMap.t RepoData) : list Chart.Point :=
  let repoKeys := map repoKey repos in
  match Chart.baseSeries Poll.data (JsMap.values repoData) with
  | Some base =>
      let last52Weeks := Js.slice_last 52 base in
      map (fun w =>
             foldl (fun point key =>
                      match JsMap.get key repoData ≫= Poll.data with
                      | Some d =>
                          match List.find (fun x => week x =? week w) d with
                          | Some weekData =>
                              Chart.setColumn key (contributors weekData) point
                          | None => point
                          end
                      | None => point
                      end)
                   {| Chart.week := formatWeekDate (week w);
                      Chart.weekTimestamp := week w;
                      Chart.columns := ∅ |}
                   repoKeys)
          last52Weeks
  | None => []
  end.
End WithFormat.

End ContributorsChart.

(** ** [IssuesChart.tsx] *)

Module IssuesChart.

(** [IssueWeek] of [lib/github]: the fields the chart reads. *)
Record IssueWeek := { week : Z; issues : Z }.

Record RepoData := {
  repo : ParsedRepo;
  data : option (list IssueWeek);
  error : option string;
  loading : bool }.

Record Call := { ticket : positive; target : ParsedRepo }.

(** The client either resolves with a series or rejects with an error, of
    which the chart keeps the [message]. *)
Inductive Outcome :=
| Resolved (series : list IssueWeek)
| Rejected (message : string).

Record State := {
  selection : list ParsedRepo;         (* the [repos] prop *)
  repoData : JsMap.t RepoData;         (* [useState] *)
  fetchedRepos : gset string;          (* [useRef] *)
  pending : list Call;                 (* unsettled promises *)
  issued : list string;                (* client invocations, oldest first *)
  fresh : positive }.

Definition init : State :=
  {| selection := []; repoData := JsMap.empty; fetchedRepos := ∅;
     pending := []; issued := []; fresh := 1%positive |}.

Definition setRepoData (f : JsMap.t RepoData -> JsMap.t RepoData)
    (st : State) : State :=
  {| selection := selection st; repoData := f (repoData st);
     fetchedRepos := fetchedRepos st; pending := pending st;
     issued := issued st; fresh := fresh st |}.

(** [fetchRepo(repo)] up to the call of the client. *)
Definition fetchRepo (r : ParsedRepo) (st : State) : State :=
  let key := repoKey r in
  if bool_decide (key ∈ fetchedRepos st) then st
  else
    {| selection := selection st;
       repoData :=
         JsMap.set key
           {| repo := r; data := None; error := None; loading := true |}
           (repoData st);
       fetchedRepos := {[ key ]} ∪ fetchedRepos st;
       pending := pending st ++ [{| ticket := fresh st; target := r |}];
       issued := issued st ++ [key];
       fresh := Pos.succ (fresh st) |}.

Definition onResolved (r : ParsedRepo) (series : list IssueWeek)
    (st : State) : State :=
  setRepoData
    (JsMap.set (repoKey r)
       {| repo := r; data := Some series; error := None; loading := false |})
    st.

Definition onRejected (r : ParsedRepo) (message : string) (st : State) : State :=
  setRepoData
    (JsMap.set (repoKey r)
       {| repo := r; data := None; error := Some message; loading := false |})
    st.

(** The loop [repos.forEach] of the effect; its guard reads the [repoData]
    of the render the effect belongs to ([snapshot]). *)
Definition forEachRepo (snapshot : JsMap.t RepoData)
    (repos : list ParsedRepo) (st : State) : State :=
  foldl (fun acc r =>
           match JsMap.get (repoKey r) snapshot with
           | Some _ => acc
           | None => fetchRepo r acc
           end)
        st repos.

(** The effect for the array [repos]. The updater that drops the removed
    keys also drops them from [fetchedRepos]. *)
Definition effect (repos : list ParsedRepo) (st : State) : State :=
  let st1 := forEachRepo (repoData st) repos st in
  let keep := currentKeys repos in
  {| selection := repos;
     repoData := JsMap.retain keep (repoData st1);
     fetchedRepos :=
       foldl (fun s key => if bool_decide (key ∈ keep) then s else s ∖ {[ key ]})
             (fetchedRepos st1) (JsMap.keys (repoData st1));
     pending := pending st1; issued := issued st1; fresh := fresh st1 |}.

Inductive Event :=
| SetRepos (repos : list ParsedRepo)
| Settle (t : positive) (o : Outcome).

Definition step (st : State) (ev : Event) : option State :=
  match ev with
  | SetRepos repos => Some (effect repos st)
  | Settle t o =>
      c ← List.find (fun c => Pos.eqb (ticket c) t) (pending st);
      let st' :=
        {| selection := selection st; repoData := repoData st;
           fetchedRepos := fetchedRepos st;
           pending := List.filter (fun c => negb (Pos.eqb (ticket c) t)) (pending st);
           issued := issued st; fresh := fresh st |} in
      Some match o with
           | Resolved series => onResolved (target c) series st'
           | Rejected message => onRejected (target c) message st'
           end
  end.

Fixpoint run (st : State) (evs : list Event) : option State :=
  match evs with
  | [] => Some st
  | ev :: evs' => st' ← step st ev; run st' evs'
  end.

(** How often the client was called for [key]. *)
Definition calls (key : string) (st : State) : nat :=
  length (List.filter (String.eqb key) (issued st)).

(** [Array.from(repoData.values()).some((d) => d.loading)] *)
Definition isLoading (rd : JsMap.t RepoData) : bool :=
  existsb loading (JsMap.values rd).

(** [Array.from(repoData.values()).filter((d) => d.error)
      .map((d) => ({ repo: `${d.repo.owner}/${d.repo.name}`, error: d.error }))];
    an empty message does not pass the filter. *)
Definition errors (rd : JsMap.t RepoData) : list (string * string) :=
  omap (fun d =>
          match error d with
          | Some m => if Js.truthy m then Some (repoKey (repo d), m) else None
          | None => None
          end)
       (JsMap.values rd).

(** The three blocks of the card that take the place of the chart. *)
Record Panels := {
  loadingPanel : bool;     (* "Loading issue data..." *)
  chartPanel : bool;       (* the line chart *)
  noDataPanel : bool }.    (* "No issue data available" *)

Inductive Rendered :=
| Placeholder
| Card (errorLines : list (string * string)) (panels : Panels).

(** What the component returns; [rows] is [chartData.length]. *)
Definition render (repos : list ParsedRepo) (rd : JsMap.t RepoData)
    (rows : nat) : Rendered :=
  if (length repos =? 0)%nat then Placeholder
  else
    let loadingNow := isLoading rd in
    Card (errors rd)
      {| loadingPanel := loadingNow;
         chartPanel := negb loadingNow && (0 <? rows)%nat;
         noDataPanel :=
           negb loadingNow && (rows =? 0)%nat && (0 <? length repos)%nat |}.

Section WithFormat.
Variable formatWeekDate : Z -> string.

Definition chartData (repos : list ParsedRepo)
    (repoData : JsMap.t RepoData) : list Chart.Point :=
  let repoKeys := map repoKey repos in
  match Chart.baseSeries data (JsMap.values repoData) with
  | Some base =>
      map (fun w =>
             foldl (fun point key =>
                      match JsMap.get key repoData ≫= data with
                      | Some d =>
                          let weekData :=
                            List.find (fun x => week x =? week w) d in
                          Chart.setColumn key
                            (default 0 (issues <$> weekData)) point
                      | None => point
                      end)
                   {| Chart.week := formatWeekDate (week w);
                      Chart.weekTimestamp := week w;
                      Chart.columns := ∅ |}
                   repoKeys)
          base
  | None => []
  end.
End WithFormat.

End IssuesChart.

(** ** Notions the statements below are phrased with *)

(** Two references name the same repository, case aside: their owners
    have the same lower-case form, and so have their names. *)
Definition sameRepo (toLowerCase : string → string) (r p : ParsedRepo) : Prop :=
  toLowerCase (owner r) = toLowerCase (owner p)
  ∧ toLowerCase (name r) = toLowerCase (name p).

(** The same, said without lower-casing, for ASCII strings: the letters of
    the alphabet in their two forms, position by position; two characters
    match when they are equal or are the two forms of one letter; two
    strings match when they have the same length and their characters match
    one by one. *)
Definition upperLetters : string := "ABCDEFGHIJKLMNOPQRSTUVWXYZ".
Definition lowerLetters : string := "abcdefghijklmnopqrstuvwxyz".

Definition letterForms : list (ascii * ascii) :=
  zip (list_ascii_of_string upperLetters) (list_ascii_of_string lowerLetters).

Definition sameLetter (c d : ascii) : bool :=
  Ascii.eqb c d
  || existsb (fun p => Ascii.eqb c p.1 && Ascii.eqb d p.2
                       || Ascii.eqb c p.2 && Ascii.eqb d p.1) letterForms.

Fixpoint eqIgnoreCase (s t : string) : bool :=
  match s, t with
  | EmptyString, EmptyString => true
  | String c s', String d t' => sameLetter c d && eqIgnoreCase s' t'
  | _, _ => false
  end.

Definition asciiRepo (r : ParsedRepo) : bool :=
  Js.isAscii (owner r) && Js.isAscii (name r).

Definition sameRepoIgnoringCase (r p : ParsedRepo) : bool :=
  eqIgnoreCase (owner r) (owner p) && eqIgnoreCase (name r) (name p).

(** A part of a reference that survives the URL: not empty, and free of the
    two separator characters. *)
Definition plainPart (s : string) : bool :=
  Js.truthy s && negb (Js.occurs "/" s) && negb (Js.occurs "," s).

Definition plainRepo (r : ParsedRepo) : bool :=
  plainPart (owner r) && plainPart (name r).

(** The base series read off the selection: the series of the first
    repository of [repos], in that order, whose entry holds a non-empty
    series. *)
Definition selectedBase {D P} (series : D -> option (list P))
    (repos : list ParsedRepo) (repoData : JsMap.t D) : option (list P) :=
  Chart.baseSeries series
    (omap (fun r => JsMap.get (repoKey r) repoData) repos).

(** A key of the polling effect that is shown as computing while nothing is
    left that would call the client for it: no queued timer, no pending
    promise. *)
Definition stalled {Series} (key : string) (st : Poll.State Series) : Prop :=
  (∃ d, JsMap.get key (Poll.repoData st) = Some d
        ∧ Poll.data d = None ∧ Poll.error d = None
        ∧ Poll.loading d = false ∧ Poll.computing d = true)
  ∧ Forall (fun t => repoKey (Poll.retries t) ≠ key) (Poll.timeouts st)
  ∧ Forall (fun c => repoKey (Poll.target c) ≠ key) (Poll.pending st).

(** From [st] to [st'] nothing was done for [key]: its entry is the same,
    no timer and no promise was added for it, and the client was not
    called for it. *)
Definition undisturbed {Series} (key : string) (st st' : Poll.State Series)
  : Prop :=
  JsMap.get key (Poll.repoData st') = JsMap.get key (Poll.repoData st)
  ∧ (∀ t, t ∈ Poll.timeouts st' →
          t ∈ Poll.timeouts st ∨ repoKey (Poll.retries t) ≠ key)
  ∧ (∀ c, c ∈ Poll.pending st' →
          c ∈ Poll.pending st ∨ repoKey (Poll.target c) ≠ key)
  ∧ Poll.calls key st' = Poll.calls key st.

(** Handles and tickets are handed out in increasing order: those in use
    are below the next one. *)
Definition ordered {Series} (st : Poll.State Series) : Prop :=
  Forall (fun t => (Poll.handle t < Poll.fresh st)%positive) (Poll.timeouts st)
  ∧ Forall (fun c => (Poll.ticket c < Poll.fresh st)%positive) (Poll.pending st).

(** [n] rounds of polling with the client answering "still computing" each
    time: the pending call with ticket [t] rejects with
    [StatsComputingError], the poll interval passes, and the timer, which
    got the handle [h], fires; the call it makes has the ticket after [h]. *)
Fixpoint rounds {Series} (POLL_INTERVAL_MS : Z) (n : nat) (t h : positive)
  : list (Poll.Event Series) :=
  match n with
  | O => []
  | S n' =>
      [Poll.Settle t (Poll.Rejected Poll.StatsComputingError);
       Poll.Elapse POLL_INTERVAL_MS; Poll.Fire h]
      ++ rounds POLL_INTERVAL_MS n' (Pos.succ h) (Pos.succ (Pos.succ h))
  end.



(** The pair [handleAdd] compares: owner and name in lower case. *)
Definition caseKey (toLowerCase : string → string) (r : ParsedRepo)
  : string * string :=
  (toLowerCase (owner r), toLowerCase (name r)).

(** No two entries of the selection name the same repository, case aside. *)
Definition distinctSelection (toLowerCase : string → string)
    (repos : list ParsedRepo) : Prop :=
  NoDup (map (caseKey toLowerCase) repos).

(** What every entry written by the polling effect looks like: it sits
    under the key of its own repository, it is not loading and computing at
    once, and when it holds an error it holds no series and is neither
    loading nor computing. *)
Definition shaped {Series} (key : string) (d : Poll.RepoData Series) : Prop :=
  repoKey (Poll.repo d) = key
  ∧ (Poll.loading d = true → Poll.computing d = false)
  ∧ (is_Some (Poll.error d) →
     Poll.data d = None ∧ Poll.loading d = false ∧ Poll.computing d = false).

(** An entry as [fetchRepo(repo)] leaves it on a first fetch. *)
Definition freshlyLoading {Series} (key : string)
    (entry : option (Poll.RepoData Series)) : Prop :=
  ∃ d, entry = Some d ∧ repoKey (Poll.repo d) = key ∧ Poll.data d = None
       ∧ Poll.error d = None ∧ Poll.loading d = true
       ∧ Poll.computing d = false.

(** A map of the polling effect with distinct keys and shaped entries. *)
Definition tidy {Series} (rd : JsMap.t (Poll.RepoData Series)) : Prop :=
  NoDup (JsMap.keys rd)
  ∧ ∀ key d, JsMap.get key rd = Some d → shaped key d.

(** The same for [IssuesChart]: distinct keys, every entry under the key of
    its own repository and in one of the states loading, ready or failed;
    and every key of [fetchedRepos] has an entry. *)
Definition issuesShaped (key : string) (d : IssuesChart.RepoData) : Prop :=
  repoKey (IssuesChart.repo d) = key
  ∧ (IssuesChart.loading d = true →
     IssuesChart.data d = None ∧ IssuesChart.error d = None)
  ∧ (is_Some (IssuesChart.error d) → IssuesChart.data d = None).

Definition issuesTidy (st : IssuesChart.State) : Prop :=
  NoDup (JsMap.keys (IssuesChart.repoData st))
  ∧ (∀ key d, JsMap.get key (IssuesChart.repoData st) = Some d →
              issuesShaped key d)
  ∧ ∀ key, key ∈ IssuesChart.fetchedRepos st →
           key ∈ JsMap.keys (IssuesChart.repoData st).

(** Whether an event of [IssuesChart] keeps [key] selected. *)
Definition issuesKeepsSelected (key : string) (ev : IssuesChart.Event) : Prop :=
  match ev with
  | IssuesChart.SetRepos repos => key ∈ map repoKey repos
  | _ => True
  end.

(** Whether an event keeps [key] selected. *)
Definition keepsSelected {Series} (key : string) (ev : Poll.Event Series) : Prop :=
  match ev with
  | Poll.SetRepos repos => key ∈ map repoKey repos
  | _ => True
  end.

(** ** Sample data *)

Module Sample.

Definition a_b := {| owner := "a"; name := "b" |}.
Definition A_B := {| owner := "A"; name := "B" |}.
Definition next_js := {| owner := "vercel"; name := "next.js" |}.
Definition react := {| owner := "facebook"; name := "react" |}.

(** A reference whose name holds a comma. *)
Definition odd := {| owner := "a"; name := "b,c" |}.

Definition commits (ws : list (Z * Z)) : list CommitChart.CommitActivity :=
  map (fun p => {| CommitChart.week := fst p; CommitChart.total := snd p |}) ws.

Definition contribs (ws : list (Z * Z)) : list ContributorsChart.ContributorWeek :=
  map (fun p => {| ContributorsChart.week := fst p;
                   ContributorsChart.contributors := snd p |}) ws.

Definition issueWeeks (ws : list (Z * Z)) : list IssuesChart.IssueWeek :=
  map (fun p => {| IssuesChart.week := fst p; IssuesChart.issues := snd p |}) ws.

(** A settled entry of the polling effect that holds [series]. *)
Definition ready {Series} (r : ParsedRepo) (series : Series)
  : Poll.RepoData Series :=
  {| Poll.repo := r; Poll.data := Some series; Poll.error := None;
     Poll.loading := false; Poll.computing := false |}.

Definition readyIssues (r : ParsedRepo) (series : list IssuesChart.IssueWeek)
  : IssuesChart.RepoData :=
  {| IssuesChart.repo := r; IssuesChart.data := Some series;
     IssuesChart.error := None; IssuesChart.loading := false |}.

(** Modelled from the spec: [formatWeekDate] is in [lib/github], which is
    not among the sources. The spec asks for a human-readable label of the
    week; the label here is the timestamp in decimal. The general
    statements take the function as a parameter. *)
Definition formatWeekDate (week : Z) : string := pretty week.

(** Modelled from the spec: [POLL_INTERVAL_MS] is in [lib/github], which is
    not among the sources. The spec asks for a fixed interval of several
    seconds; five seconds here. The general statements take the interval
    as a parameter. *)
Definition POLL_INTERVAL_MS : Z := 5000.


End Sample.

(** * Properties *)

(** ** [split] and [join] *)

Section SplitJoin.
Variable sep : ascii.

Lemma split_not_nil s : Js.split sep s ≠ [].
Proof.
  destruct s as [|c s]; simpl; [done|].
  destruct (Ascii.eqb c sep); [done|].
  by destruct (Js.split sep s).
Qed.

Lemma split_without_sep s :
  Js.occurs sep s = false → Js.split sep s = [s].
Proof.
  induction s as [|c s IH]; simpl; [done|].
  intros [Hc Hs]%orb_false_iff. rewrite Hc, (IH Hs). done.
Qed.

Lemma split_app a b :
  Js.occurs sep a = false →
  Js.split sep (a +:+ String sep b) = a :: Js.split sep b.
Proof.
  induction a as [|c a IH]; simpl.
  - intros _. by rewrite Ascii.eqb_refl.
  - intros [Hc Ha]%orb_false_iff. by rewrite Hc, (IH Ha).
Qed.

Lemma split_join xs :
  xs ≠ [] →
  Forall (fun x => Js.occurs sep x = false) xs →
  Js.split sep (Js.join sep xs) = xs.
Proof.
  induction xs as [|x [|y xs] IH]; intros Hne Hall; [done| |].
  - simpl. apply split_without_sep. by inversion Hall.
  - change (Js.join sep (x :: y :: xs))
      with (x +:+ String sep (Js.join sep (y :: xs))).
    inversion Hall as [|? ? Hx Hrest]; subst.
    rewrite (split_app _ _ Hx). f_equal. by apply IH.
Qed.

Lemma split_segments_clean s :
  Forall (fun seg => Js.occurs sep seg = false) (Js.split sep s).
Proof.
  induction s as [|c s IH]; simpl; [by repeat constructor|].
  destruct (Ascii.eqb c sep) eqn:Hc; [by constructor|].
  destruct (Js.split sep s) as [|seg rest]; [by repeat (constructor; simpl; rewrite ?Hc) |].
  inversion IH; subst. constructor; [|done]. simpl. by rewrite Hc.
Qed.

Lemma split_segments_inherit c s :
  Js.occurs c s = false →
  Forall (fun seg => Js.occurs c seg = false) (Js.split sep s).
Proof.
  induction s as [|d s IH]; simpl; [by repeat constructor|].
  intros [Hd Hs]%orb_false_iff. specialize (IH Hs).
  destruct (Ascii.eqb d sep); [by constructor|].
  destruct (Js.split sep s) as [|seg rest];
    [by repeat (constructor; simpl; rewrite ?Hd) |].
  inversion IH; subst. constructor; [|done]. simpl. by rewrite Hd.
Qed.

Lemma join_truthy xs :
  Forall (fun x => Js.truthy x = true) xs → xs ≠ [] →
  Js.truthy (Js.join sep xs) = true.
Proof.
  destruct xs as [|x [|y xs]]; intros Hall Hne; [done| |];
    inversion Hall as [|? ? Hx _]; subst; [done|].
  change (Js.join sep (x :: y :: xs))
    with (x +:+ String sep (Js.join sep (y :: xs))).
  by destruct x.
Qed.
End SplitJoin.

Lemma occurs_app c a b :
  Js.occurs c (a +:+ b) = Js.occurs c a || Js.occurs c b.
Proof.
  induction a as [|d a IH]; simpl; [done|]. by rewrite IH, orb_assoc.
Qed.

(** ** The shareable URL *)

Section Url.
Import App.

Lemma plainPart_spec s :
  plainPart s = true ↔
  Js.truthy s = true ∧ Js.occurs "/" s = false ∧ Js.occurs "," s = false.
Proof.
  unfold plainPart. rewrite !andb_true_iff, !negb_true_iff. tauto.
Qed.

Lemma repoKey_truthy r : Js.truthy (repoKey r) = true.
Proof. unfold repoKey. by destruct (owner r). Qed.

Lemma parseSegment_repoKey r :
  plainRepo r = true → parseSegment (repoKey r) = Some r.
Proof.
  unfold plainRepo. rewrite andb_true_iff, !plainPart_spec.
  intros [(Ho & Hos & _) (Hn & Hns & _)].
  unfold parseSegment, repoKey.
  rewrite (split_app _ _ _ Hos), (split_without_sep _ _ Hns), Ho, Hn.
  by destruct r.
Qed.

Lemma parseSegment_plain seg r :
  Js.occurs "," seg = false → parseSegment seg = Some r → plainRepo r = true.
Proof.
  unfold parseSegment. intros Hseg.
  pose proof (split_segments_clean "/" seg) as Hclean.
  pose proof (split_segments_inherit "/" "," seg Hseg) as Hcomma.
  destruct (Js.split "/" seg) as [|o [|n rest]]; [done..|].
  destruct (Js.truthy o) eqn:Ho, (Js.truthy n) eqn:Hn; simpl; try done.
  intros [= <-]. unfold plainRepo, plainPart; simpl.
  inversion Hclean as [|? ? Ho1 Hc2]; inversion Hc2 as [|? ? Hn1 _]; subst.
  inversion Hcomma as [|? ? Ho2 Hd2]; inversion Hd2 as [|? ? Hn2 _]; subst.
  by rewrite Ho, Hn, Ho1, Hn1, Ho2, Hn2.
Qed.

(** Whatever the parameter holds, the decoded references are plain. *)
Lemma getReposFromUrl_plain param :
  Forall (fun r => plainRepo r = true) (getReposFromUrl param).
Proof.
  destruct param as [s|]; simpl; [|constructor].
  destruct (Js.truthy s); [|constructor].
  pose proof (split_segments_clean "," s) as Hclean.
  induction Hclean as [|seg segs Hseg _ IH]; simpl; [constructor|].
  destruct (parseSegment seg) as [r|] eqn:Hr; [|done].
  constructor; [|done]. eapply parseSegment_plain; eauto.
Qed.

Lemma decode_encode_plain repos :
  Forall (fun r => plainRepo r = true) repos →
  getReposFromUrl (updateUrl repos) = repos.
Proof.
  intros Hall. unfold updateUrl.
  destruct repos as [|r0 repos0] eqn:Hrepos; [done|]. rewrite <- Hrepos in *.
  assert (repos ≠ []) as Hne by (by subst).
  replace (length repos =? 0)%nat with false
    by (symmetry; apply Nat.eqb_neq; subst; done).
  simpl. rewrite join_truthy.
  2: { apply Forall_forall. intros k (r & -> & _)%list_elem_of_fmap.
       apply repoKey_truthy. }
  2: { subst; done. }
  rewrite split_join.
  - clear Hrepos Hne. induction Hall as [|r rs Hr _ IH]; [done|].
    cbn [map omap list_omap]. rewrite (parseSegment_repoKey _ Hr).
    cbn. f_equal. exact IH.
  - subst; done.
  - apply Forall_forall. intros k (r & -> & Hin)%list_elem_of_fmap.
    rewrite Forall_forall in Hall. specialize (Hall r Hin).
    unfold plainRepo in Hall. apply andb_true_iff in Hall as [Ho Hn].
    apply plainPart_spec in Ho as (_ & _ & Ho), Hn as (_ & _ & Hn).
    unfold repoKey. rewrite occurs_app. simpl. by rewrite Ho, Hn.
Qed.
End Url.

(** C8, as amended. Encoding a selection into the [repos] parameter and
    decoding the parameter gives the selection back exactly when every
    owner and every name in it is non-empty and holds neither a comma nor a
    slash. *)
Theorem url_round_trip_iff_plain (repos : list ParsedRepo) :
  App.getReposFromUrl (App.updateUrl repos) = repos
  ↔ Forall (fun r => plainRepo r = true) repos.
Proof.
  split.
  - intros <-. apply getReposFromUrl_plain.
  - apply decode_encode_plain.
Qed.

Lemma url_round_trip_witness :
  App.getReposFromUrl (App.updateUrl [Sample.next_js; Sample.A_B; Sample.a_b])
  = [Sample.next_js; Sample.A_B; Sample.a_b].
Proof.
  apply (proj2 (url_round_trip_iff_plain
                  [Sample.next_js; Sample.A_B; Sample.a_b])).
  repeat constructor.
Defined.

(** C8, as stated, fails: a reference whose name holds a comma is encoded
    as [a/b,c], which decodes to the reference [a/b] alone. *)
Lemma url_round_trip_counterexample :
  App.updateUrl [Sample.odd] = Some "a/b,c"
  ∧ App.getReposFromUrl (App.updateUrl [Sample.odd]) = [Sample.a_b]
  ∧ App.getReposFromUrl (App.updateUrl [Sample.odd]) ≠ [Sample.odd].
Proof. repeat split; vm_compute; congruence. Qed.

(** ** Adding to the selection *)

Lemma isDuplicate_spec toLowerCase repos parsed :
  RepoInput.isDuplicate toLowerCase repos parsed = true
  ↔ ∃ r, r ∈ repos ∧ sameRepo toLowerCase r parsed.
Proof.
  unfold RepoInput.isDuplicate, sameRepo. rewrite existsb_exists.
  split; intros (r & Hin & Hr); exists r.
  - apply andb_true_iff in Hr as [Ho Hn].
    apply String.eqb_eq in Ho, Hn. by rewrite list_elem_of_In.
  - destruct Hr as [Ho Hn]. rewrite <- list_elem_of_In.
    by rewrite Ho, Hn, !String.eqb_refl.
Qed.

(** Every character, for the checks that go through all of them. *)
Lemma every_ascii (c : ascii) : In c (map ascii_of_nat (seq 0 256)).
Proof.
  rewrite <- (ascii_nat_embedding c). apply in_map, in_seq.
  pose proof (nat_ascii_bounded c). lia.
Qed.

(** Two characters have the same lower-case form exactly when they are
    equal or the two forms of one letter. *)
Lemma lower_ascii_sameLetter (c d : ascii) :
  Js.lower_ascii c = Js.lower_ascii d ↔ sameLetter c d = true.
Proof.
  assert (forallb (fun c =>
            forallb (fun d =>
              Bool.eqb (Ascii.eqb (Js.lower_ascii c) (Js.lower_ascii d))
                       (sameLetter c d))
              (map ascii_of_nat (seq 0 256)))
            (map ascii_of_nat (seq 0 256)) = true) as Hall
    by (vm_compute; reflexivity).
  rewrite forallb_forall in Hall. specialize (Hall c (every_ascii c)).
  rewrite forallb_forall in Hall. specialize (Hall d (every_ascii d)).
  apply Bool.eqb_prop in Hall. rewrite <- Hall. symmetry. apply Ascii.eqb_eq.
Qed.

Lemma toLowerCaseAscii_eqIgnoreCase (s t : string) :
  Js.toLowerCaseAscii s = Js.toLowerCaseAscii t ↔ eqIgnoreCase s t = true.
Proof.
  revert t. induction s as [|c s IH]; intros [|d t]; simpl; try done.
  rewrite andb_true_iff, <- IH, <- lower_ascii_sameLetter. split.
  - by intros [= ? ?].
  - by intros [-> ->].
Qed.

(** On references made of ASCII characters, comparing the lower-case forms
    is comparing letter by letter, case aside. *)
Lemma sameRepo_ascii toLowerCase r p :
  Js.lowersAscii toLowerCase →
  asciiRepo r = true → asciiRepo p = true →
  sameRepo toLowerCase r p ↔ sameRepoIgnoringCase r p = true.
Proof.
  intros Hlow [Hro Hrn]%andb_true_iff [Hpo Hpn]%andb_true_iff.
  unfold sameRepo, sameRepoIgnoringCase.
  rewrite !Hlow, andb_true_iff, !toLowerCaseAscii_eqIgnoreCase by done. done.
Qed.

(** C7. When the input parses to a reference, [handleAdd] leaves the
    selection as it is and shows "Repository already added" if some entry
    has the same owner and name up to case, and otherwise appends the
    reference at the end and clears the message. Up to case is by the
    lower-case forms that [toLowerCase] gives; for references made of
    ASCII characters that is: equal letter by letter, where the two forms
    of a letter count as equal. *)
Theorem handleAdd_rejects_duplicate_else_appends
    (toLowerCase : string → string)
    (parseRepoInput : string → option ParsedRepo)
    (repos : list ParsedRepo) (ui : RepoInput.UiState) (parsed : ParsedRepo) :
  parseRepoInput (RepoInput.inputValue ui) = Some parsed →
  let rejected :=
    (repos, {| RepoInput.inputValue := RepoInput.inputValue ui;
               RepoInput.error := Some "Repository already added" |}) in
  let appended :=
    (repos ++ [parsed],
     {| RepoInput.inputValue := ""; RepoInput.error := None |}) in
  ((∃ r, r ∈ repos ∧ sameRepo toLowerCase r parsed) →
     RepoInput.handleAdd toLowerCase parseRepoInput repos ui = rejected)
  ∧ ((∀ r, r ∈ repos → ¬ sameRepo toLowerCase r parsed) →
     RepoInput.handleAdd toLowerCase parseRepoInput repos ui = appended)
  ∧ (Js.lowersAscii toLowerCase →
     forallb asciiRepo repos = true → asciiRepo parsed = true →
     RepoInput.handleAdd toLowerCase parseRepoInput repos ui
     = if existsb (fun r => sameRepoIgnoringCase r parsed) repos
       then rejected else appended).
Proof.
  intros Hparse. cbv zeta. unfold RepoInput.handleAdd. rewrite Hparse.
  destruct (RepoInput.isDuplicate toLowerCase repos parsed) eqn:Hdup.
  - split; [done|]. split.
    + intros Hnone. apply isDuplicate_spec in Hdup as (r & Hin & Hsame).
      by destruct (Hnone r Hin).
    + intros Hlow Hrepos Hparsed.
      apply isDuplicate_spec in Hdup as (r & Hin & Hsame).
      rewrite forallb_forall in Hrepos.
      assert (existsb (fun r => sameRepoIgnoringCase r parsed) repos = true)
        as ->; [|done].
      apply existsb_exists. exists r. apply list_elem_of_In in Hin.
      split; [done|]. apply (sameRepo_ascii toLowerCase); auto.
  - split; [intros Hsome%isDuplicate_spec; congruence|]. split; [done|].
    intros Hlow Hrepos Hparsed. rewrite forallb_forall in Hrepos.
    destruct (existsb _ repos) eqn:Hex; [|done].
    apply existsb_exists in Hex as (r & Hin & Hsame).
    assert (RepoInput.isDuplicate toLowerCase repos parsed = true) as Hyes;
      [|congruence].
    apply isDuplicate_spec. exists r. split; [by apply list_elem_of_In|].
    apply sameRepo_ascii; auto.
Qed.

(** The scenario of C7: "A/B" is added to the empty selection, then "a/b"
    is rejected and the selection keeps its one entry; "a/c" is added
    after that. The built-in is taken on ASCII strings, where it is
    [Js.toLowerCaseAscii]. *)
Lemma handleAdd_scenario_witness :
  let add := RepoInput.typeAndAdd Js.toLowerCaseAscii RepoInput.parseShorthand in
  let first := add "A/B" [] in
  let second := add "a/b" first.1 in
  let third := add "a/c" second.1 in
  first = ([Sample.A_B], {| RepoInput.inputValue := ""; RepoInput.error := None |})
  ∧ second = ([Sample.A_B],
              {| RepoInput.inputValue := "a/b";
                 RepoInput.error := Some "Repository already added" |})
  ∧ length second.1 = 1%nat
  ∧ third.1 = [Sample.A_B; {| owner := "a"; name := "c" |}].
Proof.
  assert (Js.lowersAscii Js.toLowerCaseAscii) as Hlow by (by intros s _).
  assert (RepoInput.typeAndAdd Js.toLowerCaseAscii RepoInput.parseShorthand
            "A/B" []
          = ([Sample.A_B],
             {| RepoInput.inputValue := ""; RepoInput.error := None |})) as H1.
  { apply (proj1 (proj2 (handleAdd_rejects_duplicate_else_appends
             Js.toLowerCaseAscii RepoInput.parseShorthand []
             {| RepoInput.inputValue := "A/B"; RepoInput.error := None |}
             Sample.A_B eq_refl))).
    intros r Hr. inversion Hr. }
  assert (RepoInput.typeAndAdd Js.toLowerCaseAscii RepoInput.parseShorthand
            "a/b" [Sample.A_B]
          = ([Sample.A_B],
             {| RepoInput.inputValue := "a/b";
                RepoInput.error := Some "Repository already added" |})) as H2.
  { exact (proj2 (proj2 (handleAdd_rejects_duplicate_else_appends
             Js.toLowerCaseAscii RepoInput.parseShorthand [Sample.A_B]
             {| RepoInput.inputValue := "a/b"; RepoInput.error := None |}
             Sample.a_b eq_refl)) Hlow eq_refl eq_refl). }
  assert (RepoInput.typeAndAdd Js.toLowerCaseAscii RepoInput.parseShorthand
            "a/c" [Sample.A_B]
          = ([Sample.A_B; {| owner := "a"; name := "c" |}],
             {| RepoInput.inputValue := ""; RepoInput.error := None |})) as H3.
  { exact (proj2 (proj2 (handleAdd_rejects_duplicate_else_appends
             Js.toLowerCaseAscii RepoInput.parseShorthand [Sample.A_B]
             {| RepoInput.inputValue := "a/c"; RepoInput.error := None |}
             {| owner := "a"; name := "c" |} eq_refl)) Hlow eq_refl eq_refl). }
  cbv zeta. rewrite H1. cbn [fst]. rewrite H2. cbn [fst]. rewrite H3.
  repeat split; reflexivity.
Defined.

(** ** Decoding the URL *)

Lemma getReposFromUrl_segments segs :
  Forall (fun seg => Js.occurs "," seg = false) segs →
  App.getReposFromUrl (Some (Js.join "," segs)) = omap App.parseSegment segs.
Proof.
  intros Hall. unfold App.getReposFromUrl.
  destruct (Js.truthy (Js.join "," segs)) eqn:Hj.
  - rewrite split_join; [done| |done]. intros ->. done.
  - destruct segs as [|x [|y segs]]; [done| |].
    + simpl in Hj. by destruct x.
    + change (Js.join "," (x :: y :: segs))
        with (x +:+ String "," (Js.join "," (y :: segs))) in Hj.
      by destruct x.
Qed.

Lemma parseSegment_parts parts :
  Forall (fun part => Js.occurs "/" part = false) parts →
  App.parseSegment (Js.join "/" parts)
  = match parts with
    | o :: n :: _ =>
        if Js.truthy o && Js.truthy n then Some {| owner := o; name := n |}
        else None
    | _ => None
    end.
Proof.
  intros Hall. unfold App.parseSegment.
  destruct parts as [|o parts]; [done|].
  rewrite split_join; [done|done|done].
Qed.

(** C10. Decoding the [repos] parameter works segment by segment, without a
    duplicate check and without touching case: "a/b,A/B" gives both
    references although [handleAdd] refuses the second after the first. A
    segment is cut at its slashes; it gives a reference when its first two
    parts are non-empty, whatever follows them, and is left out otherwise.
    The result is a list of references only: nothing reports a segment that
    was left out. *)
Theorem getReposFromUrl_keeps_duplicates_drops_malformed :
  App.getReposFromUrl (Some "a/b,A/B") = [Sample.a_b; Sample.A_B]
  ∧ (∀ toLowerCase parseRepoInput ui,
       Js.lowersAscii toLowerCase →
       parseRepoInput (RepoInput.inputValue ui) = Some Sample.A_B →
       RepoInput.handleAdd toLowerCase parseRepoInput [Sample.a_b] ui
       = ([Sample.a_b],
          {| RepoInput.inputValue := RepoInput.inputValue ui;
             RepoInput.error := Some "Repository already added" |}))
  ∧ (∀ segs,
       Forall (fun seg => Js.occurs "," seg = false) segs →
       App.getReposFromUrl (Some (Js.join "," segs))
       = omap App.parseSegment segs)
  ∧ (∀ parts,
       Forall (fun part => Js.occurs "/" part = false) parts →
       App.parseSegment (Js.join "/" parts)
       = match parts with
         | o :: n :: _ =>
             if Js.truthy o && Js.truthy n
             then Some {| owner := o; name := n |} else None
         | _ => None
         end)
  ∧ App.getReposFromUrl None = []
  ∧ App.getReposFromUrl (Some "") = [].
Proof.
  split; [reflexivity|].
  split; [intros lower parse ui Hlow Hparse;
          unfold RepoInput.handleAdd, RepoInput.isDuplicate;
          rewrite Hparse; simpl;
          by rewrite (Hlow "a"), (Hlow "A"), (Hlow "b"), (Hlow "B")|].
  split; [exact getReposFromUrl_segments|].
  split; [exact parseSegment_parts|]. split; reflexivity.
Qed.

Lemma getReposFromUrl_witness :
  App.getReposFromUrl (Some "a/b,A/B,solo,/name,owner/,p/q/r")
  = [Sample.a_b; Sample.A_B; {| owner := "p"; name := "q" |}]
  ∧ (RepoInput.typeAndAdd Js.toLowerCaseAscii RepoInput.parseShorthand
       "A/B" [Sample.a_b]).1
    = [Sample.a_b]
  ∧ App.parseSegment "p/q/r" = Some {| owner := "p"; name := "q" |}
  ∧ App.parseSegment "solo" = None
  ∧ App.parseSegment "/name" = None
  ∧ App.parseSegment "owner/" = None.
Proof.
  pose proof getReposFromUrl_keeps_duplicates_drops_malformed
    as (_ & Hadd & Hsegs & Hparts & _).
  split; [|split].
  - transitivity
      (omap App.parseSegment ["a/b"; "A/B"; "solo"; "/name"; "owner/"; "p/q/r"]);
      [|reflexivity].
    exact (Hsegs ["a/b"; "A/B"; "solo"; "/name"; "owner/"; "p/q/r"]
                 ltac:(repeat constructor)).
  - unfold RepoInput.typeAndAdd.
    by rewrite (Hadd Js.toLowerCaseAscii RepoInput.parseShorthand
                  {| RepoInput.inputValue := "A/B"; RepoInput.error := None |}
                  ltac:(by intros s _) eq_refl).
  - split; [exact (Hparts ["p"; "q"; "r"] ltac:(repeat constructor))|].
    split; [exact (Hparts ["solo"] ltac:(repeat constructor))|].
    split; [exact (Hparts [""; "name"] ltac:(repeat constructor))|].
    exact (Hparts ["owner"; ""] ltac:(repeat constructor)).
Defined.

(** ** [JsMap] *)

Lemma omap_ext_elem {A B} (f g : A → option B) (l : list A) :
  (∀ x, x ∈ l → f x = g x) → omap f l = omap g l.
Proof.
  induction l as [|x l IH]; intros Hfg; [done|]. cbn.
  rewrite (Hfg x) by apply list_elem_of_here.
  rewrite IH; [done|]. intros y Hy. apply Hfg. by apply list_elem_of_further.
Qed.

Section JsMapFacts.
Context {V : Type}.
Implicit Types (m : JsMap.t V) (k : string) (v : V).

Lemma get_nil k : JsMap.get k (@JsMap.empty V) = None.
Proof. done. Qed.

Lemma get_cons k k' v m :
  JsMap.get k ((k', v) :: m) = if String.eqb k' k then Some v else JsMap.get k m.
Proof. unfold JsMap.get. simpl. by destruct (String.eqb k' k). Qed.

Lemma get_None_keys k m : JsMap.get k m = None ↔ k ∉ JsMap.keys m.
Proof.
  induction m as [|[k' v] m IH]; [by split; [intros _; apply not_elem_of_nil|]|].
  rewrite get_cons. unfold JsMap.keys in *. simpl. rewrite not_elem_of_cons.
  destruct (String.eqb_spec k' k) as [->|Hne].
  - split; [done|]. by intros [? _].
  - rewrite IH. split; [by intros; split; [congruence|] | by intros [_ ?]].
Qed.

Lemma get_Some_keys k m : is_Some (JsMap.get k m) ↔ k ∈ JsMap.keys m.
Proof.
  destruct (JsMap.get k m) eqn:Hg.
  - split; [|by eauto]. intros _.
    destruct (decide (k ∈ JsMap.keys m)) as [|Hn]; [done|].
    apply get_None_keys in Hn. congruence.
  - split; [by intros [? ?]|]. intros Hin. by apply get_None_keys in Hg.
Qed.

Lemma get_set_eq k v m : JsMap.get k (JsMap.set k v m) = Some v.
Proof.
  induction m as [|[k' v'] m IH]; simpl.
  - by rewrite get_cons, String.eqb_refl.
  - destruct (String.eqb_spec k' k) as [->|Hne].
    + by rewrite get_cons, String.eqb_refl.
    + rewrite get_cons. by destruct (String.eqb_spec k' k).
Qed.

Lemma get_set_ne k k' v m :
  k ≠ k' → JsMap.get k' (JsMap.set k v m) = JsMap.get k' m.
Proof.
  intros Hne. induction m as [|[k0 v0] m IH]; simpl.
  - rewrite get_cons. by destruct (String.eqb_spec k k').
  - destruct (String.eqb_spec k0 k) as [->|Hne0].
    + rewrite !get_cons. by destruct (String.eqb_spec k k').
    + rewrite !get_cons. by rewrite IH.
Qed.

Lemma get_set k k' v m :
  JsMap.get k' (JsMap.set k v m)
  = if decide (k = k') then Some v else JsMap.get k' m.
Proof.
  destruct (decide (k = k')) as [->|Hne];
    [apply get_set_eq | by apply get_set_ne].
Qed.

Lemma keys_set k v m :
  JsMap.keys (JsMap.set k v m)
  = if JsMap.has k m then JsMap.keys m else JsMap.keys m ++ [k].
Proof.
  unfold JsMap.keys, JsMap.has.
  induction m as [|[k' v'] m IH]; simpl; [done|].
  destruct (String.eqb_spec k' k) as [->|Hne]; simpl; [done|].
  rewrite IH. by destruct (existsb _ m).
Qed.

Lemma has_keys k m : JsMap.has k m = true ↔ k ∈ JsMap.keys m.
Proof.
  unfold JsMap.has, JsMap.keys. rewrite existsb_exists, list_elem_of_fmap.
  split.
  - intros ([k' v] & Hin & Heq). simpl in Heq. apply String.eqb_eq in Heq.
    subst. exists (k, v). by rewrite list_elem_of_In.
  - intros ([k' v] & -> & Hin). exists (k', v). simpl.
    by rewrite <- list_elem_of_In, String.eqb_refl.
Qed.

Lemma elem_of_keys_set k k' v m :
  k' ∈ JsMap.keys (JsMap.set k v m) ↔ k' = k ∨ k' ∈ JsMap.keys m.
Proof.
  rewrite keys_set. destruct (JsMap.has k m) eqn:Hh.
  - apply has_keys in Hh. split; [by right|]. by intros [->|].
  - rewrite elem_of_app, list_elem_of_singleton. tauto.
Qed.

Lemma get_retain keep k m :
  JsMap.get k (JsMap.retain keep m)
  = if bool_decide (k ∈ keep) then JsMap.get k m else None.
Proof.
  unfold JsMap.retain.
  induction m as [|[k' v] m IH]; simpl; [by case_bool_decide|].
  rewrite get_cons. destruct (bool_decide (k' ∈ keep)) eqn:Hk'.
  - rewrite get_cons, IH. destruct (String.eqb_spec k' k) as [->|]; [|done].
    by rewrite Hk'.
  - rewrite IH. destruct (String.eqb_spec k' k) as [->|]; [|done].
    by rewrite Hk'.
Qed.

Lemma keys_retain keep m :
  JsMap.keys (JsMap.retain keep m)
  = List.filter (fun k => bool_decide (k ∈ keep)) (JsMap.keys m).
Proof.
  unfold JsMap.keys, JsMap.retain.
  induction m as [|[k v] m IH]; simpl; [done|].
  destruct (bool_decide (k ∈ keep)); simpl; by rewrite IH.
Qed.

Lemma elem_of_keys_retain keep k m :
  k ∈ JsMap.keys (JsMap.retain keep m) ↔ k ∈ keep ∧ k ∈ JsMap.keys m.
Proof.
  rewrite keys_retain, list_elem_of_In, filter_In, bool_decide_eq_true.
  rewrite <- list_elem_of_In. tauto.
Qed.

Lemma get_delete k k' m :
  JsMap.get k' (JsMap.delete k m)
  = if decide (k = k') then None else JsMap.get k' m.
Proof.
  unfold JsMap.delete.
  induction m as [|[k0 v] m IH]; simpl; [by case_decide|].
  destruct (String.eqb_spec k0 k) as [->|Hne0]; simpl.
  - rewrite IH, get_cons. case_decide as Hk; [done|].
    by destruct (String.eqb_spec k k').
  - rewrite !get_cons, IH. destruct (String.eqb_spec k0 k') as [->|]; [|done].
    by case_decide.
Qed.

Lemma values_of_selection (key : ParsedRepo → string) repos m :
  JsMap.keys m = map key repos → NoDup (JsMap.keys m) →
  omap (fun r => JsMap.get (key r) m) repos = JsMap.values m.
Proof.
  revert repos. induction m as [|[k v] m IH]; intros [|r repos] Hk Hnd;
    try done.
  unfold JsMap.keys, JsMap.values in *. simpl in *.
  injection Hk as -> Hk. apply NoDup_cons in Hnd as [Hnotin Hnd].
  rewrite get_cons, String.eqb_refl. simpl. f_equal.
  rewrite <- (IH repos Hk Hnd). apply omap_ext_elem.
  intros r' Hr'. rewrite get_cons.
  destruct (String.eqb_spec (key r) (key r')) as [Heq|]; [|done].
  destruct Hnotin. rewrite Hk, Heq. by apply list_elem_of_fmap_2.
Qed.

End JsMapFacts.

Lemma elem_of_currentKeys k repos :
  k ∈ currentKeys repos ↔ k ∈ map repoKey repos.
Proof. unfold currentKeys. apply elem_of_list_to_set. Qed.

(** ** Chart rows *)

(** The loop over [repoKeys] that fills one row: a key is given the value
    [f key] when there is one and is left alone otherwise. *)
Lemma fill_columns (g : Chart.Point → string → Chart.Point)
    (f : string → option Z) :
  (∀ point key,
     g point key = match f key with
                   | Some v => Chart.setColumn key v point
                   | None => point
                   end) →
  ∀ keys p,
    Chart.week (foldl g p keys) = Chart.week p
    ∧ Chart.weekTimestamp (foldl g p keys) = Chart.weekTimestamp p
    ∧ ∀ k, Chart.columns (foldl g p keys) !! k
           = if bool_decide (k ∈ keys)
             then from_option Some (Chart.columns p !! k) (f k)
             else Chart.columns p !! k.
Proof.
  intros Hg keys. induction keys as [|key keys IH]; intros p.
  - by repeat split.
  - simpl. destruct (IH (g p key)) as (Hw & Ht & Hc).
    rewrite Hw, Ht. split; [rewrite Hg; by destruct (f key)|].
    split; [rewrite Hg; by destruct (f key)|].
    intros k. rewrite Hc, Hg. clear Hw Ht Hc.
    destruct (decide (k = key)) as [->|Hne].
    + rewrite (bool_decide_eq_true_2 (key ∈ key :: keys)) by apply list_elem_of_here.
      destruct (f key) as [v|]; simpl.
      * rewrite lookup_insert_eq. by case_bool_decide.
      * by case_bool_decide.
    + assert (bool_decide (k ∈ key :: keys) = bool_decide (k ∈ keys)) as ->.
      { apply bool_decide_ext. rewrite elem_of_cons. tauto. }
      destruct (f key) as [v|]; simpl; [|done].
      by rewrite lookup_insert_ne.
Qed.



Section ChartRows.
Variable formatWeekDate : Z → string.

(** One row of [CommitChart]: the cell of a selected key is the entry at
    the row's index in that repository's series. *)
Lemma commit_row repos repoData base i w :
  Chart.baseSeries CommitChart.activity (JsMap.values repoData) = Some base →
  base !! i = Some w →
  ∃ row,
    CommitChart.chartData formatWeekDate repos repoData !! i = Some row
    ∧ Chart.week row = formatWeekDate (CommitChart.week w)
    ∧ Chart.weekTimestamp row = CommitChart.week w
    ∧ ∀ k, Chart.columns row !! k
           = if bool_decide (k ∈ map repoKey repos)
             then a ← JsMap.get k repoData ≫= CommitChart.activity;
                  CommitChart.total <$> a !! i
             else None.
Proof.
  intros Hbase Hw. unfold CommitChart.chartData. rewrite Hbase.
  rewrite list_lookup_imap, Hw. simpl. eexists; split; [done|].
  edestruct (fill_columns
    (fun point key =>
       match JsMap.get key repoData ≫= CommitChart.activity with
       | Some a => match a !! i with
                   | Some entry => Chart.setColumn key (CommitChart.total entry) point
                   | None => point
                   end
       | None => point
       end)
    (fun key => a ← JsMap.get key repoData ≫= CommitChart.activity;
                CommitChart.total <$> a !! i)) as (Hwk & Hts & Hcols).
  { intros point key.
    destruct (JsMap.get key repoData ≫= CommitChart.activity) as [a|]; [|done].
    simpl. by destruct (a !! i). }
  rewrite Hwk, Hts. split; [done|]. split; [done|].
  intros k. rewrite Hcols. simpl.
  rewrite lookup_empty. case_bool_decide; [|done].
  by destruct (_ ≫= _).
Qed.

(** One row of [ContributorsChart]: the cell of a selected key is the
    first entry of that repository's series with the row's timestamp. *)
Lemma contributors_row repos (repoData : JsMap.t ContributorsChart.RepoData)
    base i w :
  Chart.baseSeries Poll.data (JsMap.values repoData) = Some base →
  Js.slice_last 52 base !! i = Some w →
  ∃ row,
    ContributorsChart.chartData formatWeekDate repos repoData !! i = Some row
    ∧ Chart.week row = formatWeekDate (ContributorsChart.week w)
    ∧ Chart.weekTimestamp row = ContributorsChart.week w
    ∧ ∀ k, Chart.columns row !! k
           = if bool_decide (k ∈ map repoKey repos)
             then d ← JsMap.get k repoData ≫= Poll.data;
                  ContributorsChart.contributors <$>
                    List.find (fun x => ContributorsChart.week x
                                        =? ContributorsChart.week w) d
             else None.
Proof.
  intros Hbase Hw. unfold ContributorsChart.chartData. rewrite Hbase.
  cbv zeta. rewrite list_lookup_fmap, Hw. simpl. eexists; split; [done|].
  edestruct (fill_columns
    (fun point key =>
       match JsMap.get key repoData ≫= Poll.data with
       | Some d =>
           match List.find (fun x => ContributorsChart.week x
                                     =? ContributorsChart.week w) d with
           | Some weekData =>
               Chart.setColumn key (ContributorsChart.contributors weekData) point
           | None => point
           end
       | None => point
       end)
    (fun key => d ← JsMap.get key repoData ≫= Poll.data;
                ContributorsChart.contributors <$>
                  List.find (fun x => ContributorsChart.week x
                                      =? ContributorsChart.week w) d))
    as (Hwk & Hts & Hcols).
  { intros point key.
    destruct (JsMap.get key repoData ≫= Poll.data) as [d|]; [|done].
    simpl. by destruct (List.find _ d). }
  rewrite Hwk, Hts. split; [done|]. split; [done|].
  intros k. rewrite Hcols. simpl.
  rewrite lookup_empty. case_bool_decide; [|done].
  by destruct (_ ≫= _).
Qed.

(** One row of [IssuesChart]: the cell of a selected key that has a series
    is the first entry of the series with the row's timestamp, and zero
    when the series has none. *)
Lemma issues_row repos repoData base i w :
  Chart.baseSeries IssuesChart.data (JsMap.values repoData) = Some base →
  base !! i = Some w →
  ∃ row,
    IssuesChart.chartData formatWeekDate repos repoData !! i = Some row
    ∧ Chart.week row = formatWeekDate (IssuesChart.week w)
    ∧ Chart.weekTimestamp row = IssuesChart.week w
    ∧ ∀ k, Chart.columns row !! k
           = if bool_decide (k ∈ map repoKey repos)
             then d ← JsMap.get k repoData ≫= IssuesChart.data;
                  Some (default 0
                          (IssuesChart.issues <$>
                             List.find (fun x => IssuesChart.week x
                                                 =? IssuesChart.week w) d))
             else None.
Proof.
  intros Hbase Hw. unfold IssuesChart.chartData. rewrite Hbase.
  cbv zeta. rewrite list_lookup_fmap, Hw. simpl. eexists; split; [done|].
  edestruct (fill_columns
    (fun point key =>
       match JsMap.get key repoData ≫= IssuesChart.data with
       | Some d =>
           Chart.setColumn key
             (default 0
                (IssuesChart.issues <$>
                   List.find (fun x => IssuesChart.week x
                                       =? IssuesChart.week w) d)) point
       | None => point
       end)
    (fun key => d ← JsMap.get key repoData ≫= IssuesChart.data;
                Some (default 0
                        (IssuesChart.issues <$>
                           List.find (fun x => IssuesChart.week x
                                               =? IssuesChart.week w) d))))
    as (Hwk & Hts & Hcols).
  { intros point key.
    by destruct (JsMap.get key repoData ≫= IssuesChart.data) as [d|]. }
  rewrite Hwk, Hts. split; [done|]. split; [done|].
  intros k. rewrite Hcols. simpl.
  rewrite lookup_empty. case_bool_decide; [|done].
  by destruct (_ ≫= _).
Qed.

End ChartRows.

(** ** The time axis of the merged dataset *)

Lemma foldl_keeps_timestamp (g : Chart.Point → string → Chart.Point) :
  (∀ point key, Chart.weekTimestamp (g point key) = Chart.weekTimestamp point) →
  ∀ keys p, Chart.weekTimestamp (foldl g p keys) = Chart.weekTimestamp p.
Proof.
  intros Hg keys. induction keys as [|key keys IH]; intros p; [done|].
  simpl. by rewrite IH, Hg.
Qed.

Section Axis.
Variable formatWeekDate : Z → string.

Lemma commit_axis repos repoData :
  map Chart.weekTimestamp (CommitChart.chartData formatWeekDate repos repoData)
  = map CommitChart.week
      (default [] (Chart.baseSeries CommitChart.activity (JsMap.values repoData))).
Proof.
  unfold CommitChart.chartData.
  destruct (Chart.baseSeries _ _) as [base|]; [|done]. simpl.
  change (map Chart.weekTimestamp ?l) with (Chart.weekTimestamp <$> l).
  rewrite fmap_imap.
  transitivity (imap (const CommitChart.week) base);
    [|by rewrite imap_const].
  apply imap_ext. intros i w _. simpl.
  rewrite foldl_keeps_timestamp; [done|]. intros point key.
  destruct (_ ≫= _) as [a|]; [|done]. by destruct (a !! i).
Qed.


Lemma issues_axis repos repoData :
  map Chart.weekTimestamp (IssuesChart.chartData formatWeekDate repos repoData)
  = map IssuesChart.week
      (default [] (Chart.baseSeries IssuesChart.data (JsMap.values repoData))).
Proof.
  unfold IssuesChart.chartData.
  destruct (Chart.baseSeries _ _) as [base|]; [|done]. simpl.
  rewrite map_map. apply map_ext. intros w.
  rewrite foldl_keeps_timestamp; [done|]. intros point key.
  by destruct (_ ≫= _) as [d|].
Qed.

End Axis.

(** ** Cells of the merged dataset *)

(** C2, on [CommitChart]: the cell is read at the row's position in the
    repository's series, not at the row's timestamp. With next.js holding
    weeks 1 and 2 and react holding week 2 only, the row of week 1 shows
    react's value of week 2, and the row of week 2 shows nothing for react.
    [ContributorsChart] on the same numbers looks the timestamp up. *)
Theorem commit_chart_reads_cells_by_position :
  ∃ st,
    Poll.run Sample.POLL_INTERVAL_MS Poll.init
      [Poll.SetRepos [Sample.next_js; Sample.react];
       Poll.Settle 1 (Poll.Resolved (Sample.commits [(1, 10); (2, 20)]));
       Poll.Settle 2 (Poll.Resolved (Sample.commits [(2, 7)]))]
    = Some st
    ∧ let rows :=
        CommitChart.chartData Sample.formatWeekDate
          (Poll.selection st) (Poll.repoData st) in
      map Chart.weekTimestamp rows = [1; 2]
      ∧ List.find (fun x => CommitChart.week x =? 1) (Sample.commits [(2, 7)])
        = None
      ∧ (Chart.columns <$> rows !! 0%nat) ≫= (.!! "facebook/react") = Some 7
      ∧ (Chart.columns <$> rows !! 1%nat) ≫= (.!! "facebook/react") = None
      ∧ let sibling :=
          ContributorsChart.chartData Sample.formatWeekDate
            [Sample.next_js; Sample.react]
            [("vercel/next.js",
              Sample.ready Sample.next_js (Sample.contribs [(1, 10); (2, 20)]));
             ("facebook/react",
              Sample.ready Sample.react (Sample.contribs [(2, 7)]))] in
        (Chart.columns <$> sibling !! 0%nat) ≫= (.!! "facebook/react") = None
        ∧ (Chart.columns <$> sibling !! 1%nat) ≫= (.!! "facebook/react")
          = Some 7.
Proof.
  eexists. split; [vm_compute; reflexivity|].
  cbv zeta. repeat split; by vm_compute.
Qed.

(** C6, on [CommitChart]: react has no entry for week 1, and the row of
    week 1 still has a cell for react, filled from react's entry for week 5.
    On the same numbers [ContributorsChart] leaves the cell out and
    [IssuesChart] puts zero. *)
Theorem commit_chart_fills_cell_without_match :
  let repos := [Sample.next_js; Sample.react] in
  let commitRows :=
    CommitChart.chartData Sample.formatWeekDate repos
      [("vercel/next.js", Sample.ready Sample.next_js (Sample.commits [(1, 10)]));
       ("facebook/react", Sample.ready Sample.react (Sample.commits [(5, 3)]))] in
  let contributorRows :=
    ContributorsChart.chartData Sample.formatWeekDate repos
      [("vercel/next.js", Sample.ready Sample.next_js (Sample.contribs [(1, 10)]));
       ("facebook/react", Sample.ready Sample.react (Sample.contribs [(5, 3)]))] in
  let issueRows :=
    IssuesChart.chartData Sample.formatWeekDate repos
      [("vercel/next.js",
        Sample.readyIssues Sample.next_js (Sample.issueWeeks [(1, 10)]));
       ("facebook/react",
        Sample.readyIssues Sample.react (Sample.issueWeeks [(5, 3)]))] in
  map Chart.weekTimestamp commitRows = [1]
  ∧ List.find (fun x => CommitChart.week x =? 1) (Sample.commits [(5, 3)]) = None
  ∧ (Chart.columns <$> commitRows !! 0%nat) ≫= (.!! "facebook/react") = Some 3
  ∧ map Chart.weekTimestamp contributorRows = [1]
  ∧ (Chart.columns <$> contributorRows !! 0%nat) ≫= (.!! "facebook/react") = None
  ∧ map Chart.weekTimestamp issueRows = [1]
  ∧ (Chart.columns <$> issueRows !! 0%nat) ≫= (.!! "facebook/react") = Some 0.
Proof. cbv zeta. repeat split; by vm_compute. Qed.

(** ** The base series *)

Lemma handleRemoveRepo_from (k index : nat) (prev : list ParsedRepo) :
  map snd (filter (fun p => p.1 ≠ index) (imap (fun i r => ((k + i)%nat, r)) prev))
  = if decide (index < k)%nat then prev else delete (index - k)%nat prev.
Proof.
  revert k. induction prev as [|r prev IH]; intros k.
  - by case_decide.
  - rewrite imap_cons.
    rewrite (imap_ext _ (fun i r => ((S k + i)%nat, r)))
      by (intros i x _; simpl; f_equal; lia).
    destruct (decide (k + 0 = index)%nat) as [Heq|Hne].
    + rewrite filter_cons_False by (simpl; intros ?; lia).
      rewrite (IH (S k)). rewrite decide_True by lia. rewrite decide_False by lia.
      by replace (index - k)%nat with 0%nat by lia.
    + rewrite filter_cons_True by (simpl; lia).
      cbn [map snd]. rewrite (IH (S k)). destruct (decide (index < k)%nat).
      * by rewrite decide_True by lia.
      * rewrite decide_False by lia.
        by replace (index - k)%nat with (S (index - S k)) by lia.
Qed.

(** [handleRemoveRepo] removes the entry at [index] and keeps the others in
    their order. *)
Lemma handleRemoveRepo_delete prev index :
  App.handleRemoveRepo prev index = delete index prev.
Proof.
  unfold App.handleRemoveRepo.
  pose proof (handleRemoveRepo_from 0 index prev) as H. simpl in H.
  by rewrite H, Nat.sub_0_r.
Qed.

Lemma filter_elem_of_self (keys : list string) (wider : list string) :
  (∀ k, k ∈ keys → k ∈ wider) →
  List.filter (fun k => bool_decide (k ∈ wider)) keys = keys.
Proof.
  induction keys as [|k keys IH]; intros Hsub; [done|]. simpl.
  rewrite bool_decide_eq_true_2 by (apply Hsub, list_elem_of_here).
  rewrite IH; [done|]. intros k' Hk'. by apply Hsub, list_elem_of_further.
Qed.

Lemma filter_delete_NoDup (keys : list string) i :
  NoDup keys →
  List.filter (fun k => bool_decide (k ∈ delete i keys)) keys = delete i keys.
Proof.
  revert i. induction keys as [|k keys IH]; intros i Hnd; [done|].
  apply NoDup_cons in Hnd as [Hk Hnd]. destruct i as [|i]; simpl.
  - rewrite bool_decide_eq_false_2 by done. by apply filter_elem_of_self.
  - rewrite bool_decide_eq_true_2 by apply list_elem_of_here. f_equal.
    transitivity (List.filter (fun k' => bool_decide (k' ∈ delete i keys)) keys);
      [|by apply IH].
    apply filter_ext_in_iff.
    intros k' Hk'%list_elem_of_In. apply bool_decide_ext.
    rewrite elem_of_cons. split; [|by right]. intros [->|]; [done|done].
Qed.

Section Base.
Context {D P : Type} (series : D → option (list P)).

(** When the map's keys are the selection's keys, in that order, the base
    series is the one of the first repository of the selection whose entry
    holds a non-empty series. *)
Lemma base_of_selection repos (repoData : JsMap.t D) :
  JsMap.keys repoData = map repoKey repos → NoDup (JsMap.keys repoData) →
  Chart.baseSeries series (JsMap.values repoData)
  = selectedBase series repos repoData.
Proof.
  intros Hk Hnd. unfold selectedBase.
  by rewrite (values_of_selection repoKey repos repoData Hk Hnd).
Qed.

(** After the repository at [index] is removed and the effect has dropped
    its key, the base series is the one of the first remaining repository
    whose entry holds a non-empty series. *)
Lemma base_after_removal repos (repoData : JsMap.t D) index :
  JsMap.keys repoData = map repoKey repos → NoDup (JsMap.keys repoData) →
  let repos' := App.handleRemoveRepo repos index in
  Chart.baseSeries series
    (JsMap.values (JsMap.retain (currentKeys repos') repoData))
  = selectedBase series repos' repoData.
Proof.
  intros Hk Hnd. cbv zeta. rewrite handleRemoveRepo_delete.
  assert (JsMap.keys (JsMap.retain (currentKeys (delete index repos)) repoData)
          = map repoKey (delete index repos)) as Hk'.
  { rewrite keys_retain.
    change (map repoKey (delete index repos))
      with (repoKey <$> delete index repos).
    rewrite list_fmap_delete.
    change (repoKey <$> repos) with (map repoKey repos). rewrite <- Hk.
    rewrite <- (filter_delete_NoDup _ index Hnd). apply filter_ext.
    intros k. apply bool_decide_ext. rewrite elem_of_currentKeys.
    change (map repoKey (delete index repos))
      with (repoKey <$> delete index repos).
    rewrite list_fmap_delete.
    change (repoKey <$> repos) with (map repoKey repos). by rewrite <- Hk. }
  rewrite (base_of_selection (delete index repos)); [|done|].
  - unfold selectedBase. f_equal. apply omap_ext_elem. intros r Hr.
    rewrite get_retain. rewrite bool_decide_eq_true_2; [done|].
    apply elem_of_currentKeys. by apply list_elem_of_fmap_2.
  - rewrite keys_retain. apply NoDup_ListNoDup, List.NoDup_filter.
    by apply NoDup_ListNoDup.
Qed.

Lemma baseSeries_not_nil entries :
  Chart.baseSeries series entries ≠ Some [].
Proof.
  unfold Chart.baseSeries. destruct (List.find _ entries) as [d|] eqn:Hf; [|done].
  apply find_some in Hf as [_ Hd]. simpl. by destruct (series d) as [[|? ?]|].
Qed.

End Base.

Section BaseOfCharts.
Variable formatWeekDate : Z → string.

Lemma commit_chart_empty_iff repos repoData :
  CommitChart.chartData formatWeekDate repos repoData = []
  ↔ Chart.baseSeries CommitChart.activity (JsMap.values repoData) = None.
Proof.
  split.
  - intros Hempty. pose proof (commit_axis formatWeekDate repos repoData) as Hax.
    rewrite Hempty in Hax. simpl in Hax.
    destruct (Chart.baseSeries _ _) as [[|w base]|] eqn:Hb; [|done|done].
    by apply baseSeries_not_nil in Hb.
  - intros Hnone. unfold CommitChart.chartData. by rewrite Hnone.
Qed.

Lemma issues_chart_empty_iff repos repoData :
  IssuesChart.chartData formatWeekDate repos repoData = []
  ↔ Chart.baseSeries IssuesChart.data (JsMap.values repoData) = None.
Proof.
  split.
  - intros Hempty. pose proof (issues_axis formatWeekDate repos repoData) as Hax.
    rewrite Hempty in Hax. simpl in Hax.
    destruct (Chart.baseSeries _ _) as [[|w base]|] eqn:Hb; [|done|done].
    by apply baseSeries_not_nil in Hb.
  - intros Hnone. unfold IssuesChart.chartData. by rewrite Hnone.
Qed.

End BaseOfCharts.

(** C5, as amended. The time axis of [CommitChart] and of [IssuesChart] is
    read off the base series, which is the series of the first entry of
    the fetch-state map, in the map's insertion order, that holds a
    non-empty series; the chart is empty exactly when the map has no such
    entry. When the keys of the map are the keys of the selection in the
    same order, that entry is the first repository of the selection with a
    non-empty series; and after a repository is removed and the effect has
    dropped its key, the base is the first remaining repository with a
    non-empty series, none if there is none. *)
Theorem base_series_is_first_ready_entry
    (formatWeekDate : Z → string) (repos : list ParsedRepo)
    (commitData : JsMap.t CommitChart.RepoData)
    (issueData : JsMap.t IssuesChart.RepoData) :
  (map Chart.weekTimestamp
       (CommitChart.chartData formatWeekDate repos commitData)
   = map CommitChart.week
       (default [] (Chart.baseSeries CommitChart.activity
                      (JsMap.values commitData)))
   ∧ (CommitChart.chartData formatWeekDate repos commitData = []
      ↔ Chart.baseSeries CommitChart.activity (JsMap.values commitData) = None)
   ∧ (JsMap.keys commitData = map repoKey repos →
      NoDup (JsMap.keys commitData) →
      Chart.baseSeries CommitChart.activity (JsMap.values commitData)
      = selectedBase CommitChart.activity repos commitData
      ∧ ∀ index,
          Chart.baseSeries CommitChart.activity
            (JsMap.values
               (JsMap.retain (currentKeys (App.handleRemoveRepo repos index))
                             commitData))
          = selectedBase CommitChart.activity
              (App.handleRemoveRepo repos index) commitData))
  ∧ (map Chart.weekTimestamp
         (IssuesChart.chartData formatWeekDate repos issueData)
     = map IssuesChart.week
         (default [] (Chart.baseSeries IssuesChart.data
                        (JsMap.values issueData)))
     ∧ (IssuesChart.chartData formatWeekDate repos issueData = []
        ↔ Chart.baseSeries IssuesChart.data (JsMap.values issueData) = None)
     ∧ (JsMap.keys issueData = map repoKey repos →
        NoDup (JsMap.keys issueData) →
        Chart.baseSeries IssuesChart.data (JsMap.values issueData)
        = selectedBase IssuesChart.data repos issueData
        ∧ ∀ index,
            Chart.baseSeries IssuesChart.data
              (JsMap.values
                 (JsMap.retain (currentKeys (App.handleRemoveRepo repos index))
                               issueData))
            = selectedBase IssuesChart.data
                (App.handleRemoveRepo repos index) issueData)).
Proof.
  split; (split; [|split]).
  - apply commit_axis.
  - apply commit_chart_empty_iff.
  - intros Hk Hnd. split; [by apply base_of_selection|].
    intros index. by apply base_after_removal.
  - apply issues_axis.
  - apply issues_chart_empty_iff.
  - intros Hk Hnd. split; [by apply base_of_selection|].
    intros index. by apply base_after_removal.
Qed.

(** The selection is next.js, whose fetch failed, and react, which holds
    one week: react is the base; once react is removed there is no base. *)
Lemma base_series_witness :
  let repos := [Sample.next_js; Sample.react] in
  let failed : CommitChart.RepoData :=
    {| Poll.repo := Sample.next_js; Poll.data := None;
       Poll.error := Some "Not Found"; Poll.loading := false;
       Poll.computing := false |} in
  let commitData : JsMap.t CommitChart.RepoData :=
    [("vercel/next.js", failed);
     ("facebook/react", Sample.ready Sample.react (Sample.commits [(7, 4)]))] in
  Chart.baseSeries CommitChart.activity (JsMap.values commitData)
  = selectedBase CommitChart.activity repos commitData
  ∧ selectedBase CommitChart.activity repos commitData
    = Some (Sample.commits [(7, 4)])
  ∧ Chart.baseSeries CommitChart.activity
      (JsMap.values
         (JsMap.retain (currentKeys (App.handleRemoveRepo repos 1)) commitData))
    = None.
Proof.
  cbv zeta.
  destruct (base_series_is_first_ready_entry Sample.formatWeekDate
              [Sample.next_js; Sample.react]
              [("vercel/next.js",
                {| Poll.repo := Sample.next_js; Poll.data := None;
                   Poll.error := Some "Not Found"; Poll.loading := false;
                   Poll.computing := false |});
               ("facebook/react",
                Sample.ready Sample.react (Sample.commits [(7, 4)]))]
              []) as [(_ & _ & Hsel) _].
  destruct Hsel as [Hbase Hremoved].
  - reflexivity.
  - apply (bool_decide_unpack _). vm_compute. exact I.
  - split; [exact Hbase|]. split; [reflexivity|].
    etransitivity; [exact (Hremoved 1%nat)|reflexivity].
Defined.

(** C5, as stated, fails. The page is opened with react, next.js and react
    again in its URL, and the first entry is then removed: the selection is
    next.js, react, while the map, filled in the order of the first pass,
    holds react before next.js. Both fetches succeed; the axis is react's
    week, not the week of next.js, the first ready repository of the
    selection. *)
Lemma base_series_counterexample :
  ∃ st,
    Poll.run Sample.POLL_INTERVAL_MS Poll.init
      [Poll.SetRepos
         (App.getReposFromUrl
            (Some "facebook/react,vercel/next.js,facebook/react"));
       Poll.SetRepos
         (App.handleRemoveRepo
            (App.getReposFromUrl
               (Some "facebook/react,vercel/next.js,facebook/react")) 0);
       Poll.Settle 1 (Poll.Resolved (Sample.commits [(8, 1)]));
       Poll.Settle 2 (Poll.Resolved (Sample.commits [(9, 2)]))]
    = Some st
    ∧ Poll.selection st = [Sample.next_js; Sample.react]
    ∧ JsMap.keys (Poll.repoData st) = ["facebook/react"; "vercel/next.js"]
    ∧ selectedBase CommitChart.activity (Poll.selection st) (Poll.repoData st)
      = Some (Sample.commits [(9, 2)])
    ∧ map Chart.weekTimestamp
        (CommitChart.chartData Sample.formatWeekDate
           (Poll.selection st) (Poll.repoData st))
      = [8]
    ∧ map Chart.weekTimestamp
        (CommitChart.chartData Sample.formatWeekDate
           (Poll.selection st) (Poll.repoData st))
      ≠ map CommitChart.week
          (default []
             (selectedBase CommitChart.activity
                (Poll.selection st) (Poll.repoData st))).
Proof.
  eexists. split; [vm_compute; reflexivity|].
  repeat split; by vm_compute.
Qed.

(** An entry written back by a stale response can be the base as well.
    next.js is removed while its fetch is under way and then resolves; the
    fetch of react fails. No selected repository holds a series, and the
    chart still has a row, for the week of next.js. *)
Lemma removed_repository_becomes_base :
  ∃ st : CommitChart.State,
    Poll.run Sample.POLL_INTERVAL_MS Poll.init
      [Poll.SetRepos [Sample.next_js; Sample.react];
       Poll.SetRepos [Sample.react];
       Poll.Settle 1 (Poll.Resolved (Sample.commits [(9, 2)]));
       Poll.Settle 2 (Poll.Rejected (Poll.OtherError "Not Found"))]
    = Some st
    ∧ Poll.selection st = [Sample.react]
    ∧ selectedBase CommitChart.activity (Poll.selection st) (Poll.repoData st)
      = None
    ∧ map Chart.weekTimestamp
        (CommitChart.chartData Sample.formatWeekDate
           (Poll.selection st) (Poll.repoData st))
      = [9].
Proof. eexists. split; [vm_compute; reflexivity|]. by repeat split. Qed.

(** ** The polling effect: which repositories a pass fetches *)

Section PollPass.
Context {Series : Type}.
Implicit Types (st acc : Poll.State Series) (r : ParsedRepo).

Lemma issued_fetchRepo r isRetry st :
  Poll.issued (Poll.fetchRepo r isRetry st) = Poll.issued st ++ [repoKey r].
Proof. done. Qed.

Lemma repoData_fetchRepo r isRetry st :
  Poll.repoData (Poll.fetchRepo r isRetry st)
  = JsMap.set (repoKey r)
      {| Poll.repo := r;
         Poll.data := JsMap.get (repoKey r) (Poll.repoData st) ≫= Poll.data;
         Poll.error := None; Poll.loading := negb isRetry;
         Poll.computing := isRetry |}
      (Poll.repoData st).
Proof. done. Qed.

Lemma issued_forEachRepo snapshot repos acc :
  Poll.issued (Poll.forEachRepo snapshot repos acc)
  = Poll.issued acc
    ++ map repoKey
         (List.filter
            (fun r => negb (Poll.skips (JsMap.get (repoKey r) snapshot)))
            repos).
Proof.
  revert acc. induction repos as [|r repos IH]; intros acc.
  - simpl. by rewrite app_nil_r.
  - unfold Poll.forEachRepo in *. simpl.
    destruct (Poll.skips (JsMap.get (repoKey r) snapshot)); simpl.
    + apply IH.
    + rewrite IH, issued_fetchRepo. by rewrite <- app_assoc.
Qed.

Lemma dropTimers_keeps keep entries acc :
  Poll.repoData (Poll.dropTimers keep entries acc) = Poll.repoData acc
  ∧ Poll.issued (Poll.dropTimers keep entries acc) = Poll.issued acc
  ∧ Poll.pending (Poll.dropTimers keep entries acc) = Poll.pending acc
  ∧ (∀ t, t ∈ Poll.timeouts (Poll.dropTimers keep entries acc) →
          t ∈ Poll.timeouts acc).
Proof.
  revert acc. induction entries as [|[k h] entries IH]; intros acc; [done|].
  unfold Poll.dropTimers in *. simpl. case_bool_decide; [apply IH|].
  destruct (IH (Poll.setPollTimers (JsMap.delete k) (Poll.clearTimeout h acc)))
    as (Hd & Hi & Hp & Ht).
  rewrite Hd, Hi, Hp. repeat split; try done.
  intros t Hin. specialize (Ht t Hin). simpl in Ht.
  apply list_elem_of_In, filter_In in Ht as [Ht _]. by apply list_elem_of_In.
Qed.

(** What a pass adds to the log of client calls: one call for every entry
    of [repos] that the guard does not skip, in the order of [repos]. *)
Lemma issued_effect repos st :
  Poll.issued (Poll.effect repos st)
  = Poll.issued st
    ++ map repoKey
         (List.filter
            (fun r => negb (Poll.skips (JsMap.get (repoKey r) (Poll.repoData st))))
            repos).
Proof.
  unfold Poll.effect. cbv zeta. cbn [Poll.issued].
  match goal with
  | |- Poll.issued (Poll.dropTimers ?keep ?entries ?acc) = _ =>
      destruct (dropTimers_keeps keep entries acc) as (_ & -> & _)
  end.
  cbn [Poll.issued Poll.setRepoData]. apply issued_forEachRepo.
Qed.

Lemma cleanup_keeps st :
  Poll.repoData (Poll.cleanup st) = Poll.repoData st
  ∧ Poll.issued (Poll.cleanup st) = Poll.issued st
  ∧ Poll.pending (Poll.cleanup st) = Poll.pending st
  ∧ Poll.pollTimers (Poll.cleanup st) = JsMap.empty
  ∧ (∀ t, t ∈ Poll.timeouts (Poll.cleanup st) → t ∈ Poll.timeouts st).
Proof.
  unfold Poll.cleanup. simpl.
  generalize (JsMap.values (Poll.pollTimers st)). intros hs.
  revert st. induction hs as [|h hs IH]; intros st; [done|].
  simpl. destruct (IH (Poll.clearTimeout h st)) as (Hd & Hi & Hp & _ & Ht).
  rewrite Hd, Hi, Hp. repeat split; try done.
  intros t Hin. specialize (Ht t Hin). simpl in Ht.
  apply list_elem_of_In, filter_In in Ht as [Ht _]. by apply list_elem_of_In.
Qed.

Lemma skips_false_iff (existing : option (Poll.RepoData Series)) :
  Poll.skips existing = false
  ↔ existing = None
    ∨ ∃ d, existing = Some d ∧ Poll.data d = None
           ∧ Poll.loading d = false ∧ Poll.computing d = false.
Proof.
  destruct existing as [d|]; simpl; [|by split; [left|]].
  rewrite !orb_false_iff, bool_decide_eq_false, <- eq_None_not_Some.
  split.
  - intros [[? ?] ?]. right. by exists d.
  - intros [|(d' & [= <-] & ? & ? & ?)]; done.
Qed.

Lemma calls_app key (st : Poll.State Series) more issued0 :
  Poll.issued st = issued0 ++ more →
  Poll.calls key st
  = (length (List.filter (String.eqb key) issued0)
     + length (List.filter (String.eqb key) more))%nat.
Proof.
  intros Heq. unfold Poll.calls. by rewrite Heq, List.filter_app, length_app.
Qed.

End PollPass.

(** ** The effect of [IssuesChart]: which repositories a pass fetches *)

Lemma issues_fetchRepo_known r (st : IssuesChart.State) :
  repoKey r ∈ IssuesChart.fetchedRepos st → IssuesChart.fetchRepo r st = st.
Proof.
  intros Hin. unfold IssuesChart.fetchRepo. by rewrite bool_decide_eq_true_2.
Qed.

Lemma issues_fetchRepo_new r (st : IssuesChart.State) :
  repoKey r ∉ IssuesChart.fetchedRepos st →
  IssuesChart.issued (IssuesChart.fetchRepo r st)
  = IssuesChart.issued st ++ [repoKey r]
  ∧ IssuesChart.fetchedRepos (IssuesChart.fetchRepo r st)
    = {[ repoKey r ]} ∪ IssuesChart.fetchedRepos st.
Proof.
  intros Hin. unfold IssuesChart.fetchRepo. by rewrite bool_decide_eq_false_2.
Qed.

Lemma issues_forEachRepo_calls snapshot repos acc :
  ∃ news,
    IssuesChart.issued (IssuesChart.forEachRepo snapshot repos acc)
    = IssuesChart.issued acc ++ news
    ∧ NoDup news
    ∧ (∀ k, k ∈ IssuesChart.fetchedRepos acc →
            k ∈ IssuesChart.fetchedRepos
                  (IssuesChart.forEachRepo snapshot repos acc))
    ∧ ∀ k, k ∈ news →
           (k ∉ IssuesChart.fetchedRepos acc)
           ∧ k ∈ map repoKey repos
           ∧ JsMap.get k snapshot = None.
Proof.
  revert acc. induction repos as [|r repos IH]; intros acc.
  - exists []. simpl. rewrite app_nil_r. split; [done|].
    split; [constructor|]. split; [done|].
    intros k Hk. by apply not_elem_of_nil in Hk.
  - unfold IssuesChart.forEachRepo in *. simpl.
    destruct (JsMap.get (repoKey r) snapshot) eqn:Hget.
    { destruct (IH acc) as (news & Hi & Hnd & Hmono & Hnews).
      exists news. repeat split; try done; try (by apply Hnews).
      apply list_elem_of_further. by apply Hnews. }
    destruct (decide (repoKey r ∈ IssuesChart.fetchedRepos acc)) as [Hin|Hnotin].
    { rewrite (issues_fetchRepo_known r acc Hin).
      destruct (IH acc) as (news & Hi & Hnd & Hmono & Hnews).
      exists news. repeat split; try done; try (by apply Hnews).
      apply list_elem_of_further. by apply Hnews. }
    destruct (issues_fetchRepo_new r acc Hnotin) as (Hissued & Hfetched).
    destruct (IH (IssuesChart.fetchRepo r acc))
      as (news & Hi & Hnd & Hmono & Hnews).
    rewrite Hissued in Hi.
    exists (repoKey r :: news). split; [by rewrite Hi, <- app_assoc|].
    split.
    { apply NoDup_cons. split; [|done]. intros Hin.
      apply Hnews in Hin as [Hnot _]. apply Hnot. rewrite Hfetched.
      by apply elem_of_union_l, elem_of_singleton. }
    split; [intros k Hk; apply Hmono; rewrite Hfetched; by apply elem_of_union_r|].
    intros k [->|Hin]%elem_of_cons.
    + split; [done|]. split; [apply list_elem_of_here|done].
    + apply Hnews in Hin as (Hnot & Hsel & Hnone). rewrite Hfetched in Hnot.
      split; [intros Hk; apply Hnot; by apply elem_of_union_r|].
      split; [by apply list_elem_of_further|done].
Qed.

(** What a pass of [IssuesChart] adds to the log of client calls: at most
    one call per key, only for keys of the selection, and only for keys
    that the map did not hold. *)
Lemma issues_effect_calls repos (st : IssuesChart.State) :
  ∃ news,
    IssuesChart.issued (IssuesChart.effect repos st)
    = IssuesChart.issued st ++ news
    ∧ NoDup news
    ∧ ∀ k, k ∈ news →
           k ∈ map repoKey repos
           ∧ JsMap.get k (IssuesChart.repoData st) = None.
Proof.
  destruct (issues_forEachRepo_calls (IssuesChart.repoData st) repos st)
    as (news & Hi & Hnd & _ & Hnews).
  exists news. split; [done|]. split; [done|].
  intros k Hk. by apply Hnews in Hk as (_ & ? & ?).
Qed.

Lemma filter_eqb_absent key (l : list string) :
  key ∉ l → List.filter (String.eqb key) l = [].
Proof.
  induction l as [|k l IH]; [done|]. intros [Hne Hl]%not_elem_of_cons. simpl.
  destruct (String.eqb_spec key k); [done|]. by apply IH.
Qed.

Lemma no_call_for_skipped {Series} (st : Poll.State Series) repos key d :
  JsMap.get key (Poll.repoData st) = Some d →
  Poll.skips (Some d) = true →
  Poll.calls key (Poll.effect repos st) = Poll.calls key st.
Proof.
  intros Hget Hskip. rewrite (calls_app key _ _ _ (issued_effect repos st)).
  unfold Poll.calls.
  replace (List.filter (String.eqb key) (map repoKey _)) with (@nil string);
    [simpl; lia|].
  induction repos as [|r repos IH]; [done|]. simpl.
  destruct (Poll.skips (JsMap.get (repoKey r) (Poll.repoData st))) eqn:Hr;
    simpl; [done|].
  destruct (String.eqb_spec key (repoKey r)) as [->|Hne]; [|done].
  rewrite Hget in Hr. congruence.
Qed.

Lemma issues_no_call_for_tracked (st : IssuesChart.State) repos key :
  is_Some (JsMap.get key (IssuesChart.repoData st)) →
  IssuesChart.calls key (IssuesChart.effect repos st) = IssuesChart.calls key st.
Proof.
  intros [d Hget]. destruct (issues_effect_calls repos st) as (news & Hi & _ & Hnews).
  unfold IssuesChart.calls. rewrite Hi, List.filter_app, length_app.
  rewrite (filter_eqb_absent key news); [by rewrite Nat.add_0_r|].
  intros Hk. apply Hnews in Hk as [_ Hnone]. congruence.
Qed.

(** C9, as amended. When [repos] changes, [CommitChart] and
    [ContributorsChart] call the client once for every entry of [repos]
    that the guard does not skip, and the guard skips exactly the
    repositories whose entry holds a series, is loading or is computing: a
    repository with such an entry is not fetched again, while one that is
    absent or whose fetch has failed is. [IssuesChart] calls the client at
    most once per key, and only for keys of [repos] that its map does not
    hold; a repository with any entry, failed ones included, is not fetched
    again. *)
Theorem pass_skips_loading_computing_ready :
  (∀ Series (st : Poll.State Series) (repos : list ParsedRepo),
     let pass := Poll.effect repos (Poll.cleanup st) in
     Poll.issued pass
     = Poll.issued st
       ++ map repoKey
            (List.filter
               (fun r => negb (Poll.skips
                                 (JsMap.get (repoKey r) (Poll.repoData st))))
               repos))
  ∧ (∀ Series (existing : option (Poll.RepoData Series)),
       Poll.skips existing = false
       ↔ existing = None
         ∨ ∃ d, existing = Some d ∧ Poll.data d = None
                ∧ Poll.loading d = false ∧ Poll.computing d = false)
  ∧ (∀ Series (st : Poll.State Series) (repos : list ParsedRepo) key d,
       JsMap.get key (Poll.repoData st) = Some d →
       is_Some (Poll.data d) ∨ Poll.loading d = true ∨ Poll.computing d = true →
       Poll.calls key (Poll.effect repos (Poll.cleanup st)) = Poll.calls key st)
  ∧ (∀ (st : IssuesChart.State) (repos : list ParsedRepo),
       (∃ news,
          IssuesChart.issued (IssuesChart.effect repos st)
          = IssuesChart.issued st ++ news
          ∧ NoDup news
          ∧ ∀ k, k ∈ news →
                 k ∈ map repoKey repos
                 ∧ JsMap.get k (IssuesChart.repoData st) = None)
       ∧ ∀ key,
           is_Some (JsMap.get key (IssuesChart.repoData st)) →
           IssuesChart.calls key (IssuesChart.effect repos st)
           = IssuesChart.calls key st).
Proof.
  split; [|split; [|split]].
  - intros Series st repos. cbv zeta.
    destruct (cleanup_keeps st) as (Hd & Hi & _).
    by rewrite issued_effect, Hd, Hi.
  - intros Series existing. apply skips_false_iff.
  - intros Series st repos key d Hget Hstate.
    destruct (cleanup_keeps st) as (Hd & Hi & _).
    rewrite (no_call_for_skipped (Poll.cleanup st) repos key d).
    + unfold Poll.calls. by rewrite Hi.
    + by rewrite Hd.
    + simpl. destruct Hstate as [Hs|[->| ->]].
      * by rewrite bool_decide_eq_true_2.
      * by rewrite orb_true_r.
      * by rewrite orb_true_r.
  - intros st repos. split; [apply issues_effect_calls|].
    intros key. apply issues_no_call_for_tracked.
Qed.

(** next.js is loading when react is added: the pass calls the client for
    react only. *)
Lemma pass_skips_witness :
  ∃ st : CommitChart.State,
    Poll.run Sample.POLL_INTERVAL_MS Poll.init [Poll.SetRepos [Sample.next_js]]
    = Some st
    ∧ Poll.calls "vercel/next.js" st = 1%nat
    ∧ Poll.calls "vercel/next.js"
        (Poll.effect [Sample.next_js; Sample.react] (Poll.cleanup st))
      = 1%nat
    ∧ Poll.calls "facebook/react"
        (Poll.effect [Sample.next_js; Sample.react] (Poll.cleanup st))
      = 1%nat.
Proof.
  eexists. split; [reflexivity|]. split; [reflexivity|]. split; [|reflexivity].
  pose proof pass_skips_loading_computing_ready as (_ & _ & Hskip & _).
  etransitivity;
    [eapply (Hskip _ _ [Sample.next_js; Sample.react] "vercel/next.js");
     [reflexivity | right; left; reflexivity]
    | reflexivity].
Defined.

(** C9, as stated, fails on [CommitChart]: the fetch of next.js has failed,
    so next.js has an entry in the tracked state; when react is added, the
    pass calls the client for next.js again. *)
Lemma failed_repo_is_refetched_counterexample :
  ∃ st st' : CommitChart.State,
    Poll.run Sample.POLL_INTERVAL_MS Poll.init
      [Poll.SetRepos [Sample.next_js];
       Poll.Settle 1 (Poll.Rejected (Poll.OtherError "Not Found"))]
    = Some st
    ∧ JsMap.get "vercel/next.js" (Poll.repoData st)
      = Some {| Poll.repo := Sample.next_js; Poll.data := None;
                Poll.error := Some "Not Found"; Poll.loading := false;
                Poll.computing := false |}
    ∧ Poll.calls "vercel/next.js" st = 1%nat
    ∧ Poll.step Sample.POLL_INTERVAL_MS st
        (Poll.SetRepos [Sample.next_js; Sample.react])
      = Some st'
    ∧ Poll.calls "vercel/next.js" st' = 2%nat.
Proof. do 2 eexists. repeat split; by vm_compute. Qed.

(** ** The polling effect: what happens to a key nothing is pending for *)

Section Undisturbed.
Context {Series : Type}.
Variable POLL_INTERVAL_MS : Z.
Variable key : string.
Implicit Types (st : Poll.State Series) (r : ParsedRepo).

Lemma undisturbed_refl st : undisturbed key st st.
Proof. repeat split; auto. Qed.

Lemma undisturbed_trans st1 st2 st3 :
  undisturbed key st1 st2 → undisturbed key st2 st3 → undisturbed key st1 st3.
Proof.
  intros (Hd1 & Ht1 & Hp1 & Hc1) (Hd2 & Ht2 & Hp2 & Hc2).
  split; [congruence|]. split; [|split; [|congruence]].
  - intros t Ht. destruct (Ht2 t Ht) as [Hin|]; [|by right]. by apply Ht1.
  - intros c Hc. destruct (Hp2 c Hc) as [Hin|]; [|by right]. by apply Hp1.
Qed.

Lemma stalled_undisturbed st st' :
  stalled key st → undisturbed key st st' → stalled key st'.
Proof.
  intros (Hentry & Htimers & Hpending) (Hd & Ht & Hp & _).
  rewrite Forall_forall in Htimers. rewrite Forall_forall in Hpending.
  split; [by rewrite Hd|]. split; apply Forall_forall.
  - intros t Hin. destruct (Ht t Hin) as [Hold|]; [by apply Htimers|done].
  - intros c Hin. destruct (Hp c Hin) as [Hold|]; [by apply Hpending|done].
Qed.

Lemma undisturbed_setRepoData f st :
  JsMap.get key (f (Poll.repoData st)) = JsMap.get key (Poll.repoData st) →
  undisturbed key st (Poll.setRepoData f st).
Proof. intros Hf. repeat split; auto. Qed.

Lemma undisturbed_clearTimeout h st :
  undisturbed key st (Poll.clearTimeout h st).
Proof.
  repeat split; auto. simpl. intros t Ht. left.
  apply list_elem_of_In, filter_In in Ht as [Ht _]. by apply list_elem_of_In.
Qed.

Lemma undisturbed_setPollTimers f st :
  undisturbed key st (Poll.setPollTimers f st).
Proof. repeat split; auto. Qed.

Lemma calls_snoc_other st issued' other :
  issued' = Poll.issued st ++ [other] → other ≠ key →
  length (List.filter (String.eqb key) issued') = Poll.calls key st.
Proof.
  intros -> Hne. unfold Poll.calls. rewrite List.filter_app, length_app. simpl.
  destruct (String.eqb_spec key other); [congruence|]. simpl. lia.
Qed.

Lemma undisturbed_callClient r st :
  repoKey r ≠ key → undisturbed key st (Poll.callClient r st).
Proof.
  intros Hne. split; [done|]. split; [by left|]. split.
  - simpl. intros c [Hc|Hc]%elem_of_app; [by left|].
    apply list_elem_of_singleton in Hc as ->. by right.
  - by apply (calls_snoc_other st _ (repoKey r)).
Qed.

Lemma undisturbed_scheduleRetry r st :
  repoKey r ≠ key →
  undisturbed key st (Poll.scheduleRetry POLL_INTERVAL_MS r st).
Proof.
  intros Hne. split; [done|]. split; [|split; [by left|done]].
  simpl. intros t [Ht|Ht]%elem_of_app; [by left|].
  apply list_elem_of_singleton in Ht as ->. by right.
Qed.

Lemma undisturbed_fetchRepo r isRetry st :
  repoKey r ≠ key → undisturbed key st (Poll.fetchRepo r isRetry st).
Proof.
  intros Hne. unfold Poll.fetchRepo.
  eapply undisturbed_trans; [|by apply undisturbed_callClient].
  apply undisturbed_setRepoData. by apply get_set_ne.
Qed.

Lemma undisturbed_onResolved r series st :
  repoKey r ≠ key → undisturbed key st (Poll.onResolved r series st).
Proof.
  intros Hne. unfold Poll.onResolved.
  eapply undisturbed_trans;
    [|apply undisturbed_setRepoData; by apply get_set_ne].
  destruct (JsMap.get (repoKey r) (Poll.pollTimers st)) as [timer|];
    [|apply undisturbed_refl].
  eapply undisturbed_trans;
    [apply undisturbed_clearTimeout | apply undisturbed_setPollTimers].
Qed.

Lemma undisturbed_onRejected r err st :
  repoKey r ≠ key →
  undisturbed key st (Poll.onRejected POLL_INTERVAL_MS r err st).
Proof.
  intros Hne. unfold Poll.onRejected. destruct err as [|message].
  - eapply undisturbed_trans; [|by apply undisturbed_scheduleRetry].
    apply undisturbed_setRepoData. by apply get_set_ne.
  - apply undisturbed_setRepoData. by apply get_set_ne.
Qed.

Lemma undisturbed_forEachRepo snapshot repos st :
  (∀ r, repoKey r = key →
        Poll.skips (JsMap.get (repoKey r) snapshot) = true) →
  undisturbed key st (Poll.forEachRepo snapshot repos st).
Proof.
  intros Hskip. revert st. induction repos as [|r repos IH]; intros st.
  - apply undisturbed_refl.
  - unfold Poll.forEachRepo in *. simpl.
    destruct (Poll.skips (JsMap.get (repoKey r) snapshot)) eqn:Hr; [apply IH|].
    eapply undisturbed_trans; [|apply IH].
    apply undisturbed_fetchRepo. intros Heq. rewrite (Hskip r Heq) in Hr.
    congruence.
Qed.

Lemma undisturbed_dropTimers keep entries st :
  undisturbed key st (Poll.dropTimers keep entries st).
Proof.
  revert st. induction entries as [|[k h] entries IH]; intros st.
  - apply undisturbed_refl.
  - unfold Poll.dropTimers in *. simpl. case_bool_decide; [apply IH|].
    eapply undisturbed_trans; [|apply IH].
    eapply undisturbed_trans;
      [apply undisturbed_clearTimeout | apply undisturbed_setPollTimers].
Qed.

Lemma undisturbed_cleanup st : undisturbed key st (Poll.cleanup st).
Proof.
  unfold Poll.cleanup.
  eapply undisturbed_trans; [|apply undisturbed_setPollTimers].
  generalize (JsMap.values (Poll.pollTimers st)). intros hs. revert st.
  induction hs as [|h hs IH]; intros st; [apply undisturbed_refl|].
  simpl. eapply undisturbed_trans; [apply undisturbed_clearTimeout|apply IH].
Qed.

Lemma undisturbed_effect repos st :
  key ∈ map repoKey repos →
  Poll.skips (JsMap.get key (Poll.repoData st)) = true →
  undisturbed key st (Poll.effect repos st).
Proof.
  intros Hsel Hskip. unfold Poll.effect. cbv zeta.
  match goal with
  | |- undisturbed key st ?final =>
      match final with
      | context [Poll.dropTimers ?keep ?entries ?st2] =>
          assert (undisturbed key st (Poll.dropTimers keep entries st2)) as H;
          [|destruct H as (Hd & Ht & Hp & Hc); by repeat split]
      end
  end.
  eapply undisturbed_trans; [|apply undisturbed_dropTimers].
  eapply undisturbed_trans.
  - apply (undisturbed_forEachRepo (Poll.repoData st) repos st).
    intros r <-. done.
  - apply undisturbed_setRepoData. rewrite get_retain.
    rewrite bool_decide_eq_true_2; [done|]. by apply elem_of_currentKeys.
Qed.

Lemma takeCall_spec t st c st' :
  Poll.takeCall t st = Some (c, st') →
  c ∈ Poll.pending st
  ∧ undisturbed key st st'.
Proof.
  unfold Poll.takeCall.
  destruct (List.find _ (Poll.pending st)) as [c0|] eqn:Hf; [|done].
  simpl. intros [= <- <-]. apply find_some in Hf as [Hin _].
  split; [by apply list_elem_of_In|].
  repeat split; auto. simpl. intros c Hc. left.
  apply list_elem_of_In, filter_In in Hc as [Hc _]. by apply list_elem_of_In.
Qed.

(** One event that keeps a stalled key selected does nothing for it. *)
Lemma stalled_step st ev st' :
  stalled key st → keepsSelected key ev →
  Poll.step POLL_INTERVAL_MS st ev = Some st' →
  undisturbed key st st'.
Proof.
  intros Hstalled Hkeeps Hstep.
  pose proof Hstalled as ((d & Hget & _ & _ & _ & Hcomputing) & Htimers & Hpending).
  rewrite Forall_forall in Htimers. rewrite Forall_forall in Hpending.
  destruct ev as [repos|t o|dt|h]; simpl in Hstep.
  - injection Hstep as <-.
    eapply undisturbed_trans; [apply undisturbed_cleanup|].
    apply undisturbed_effect; [done|].
    destruct (undisturbed_cleanup st) as (-> & _). rewrite Hget. simpl.
    by rewrite Hcomputing, orb_true_r.
  - destruct (Poll.takeCall t st) as [[c st1]|] eqn:Htake; [|done].
    simpl in Hstep. injection Hstep as <-.
    apply takeCall_spec in Htake as [Hin Hund].
    eapply undisturbed_trans; [exact Hund|].
    specialize (Hpending c Hin).
    destruct o; [by apply undisturbed_onResolved|by apply undisturbed_onRejected].
  - destruct (0 <=? dt); [|done]. injection Hstep as <-. by repeat split; auto.
  - destruct (List.find _ (Poll.timeouts st)) as [t|] eqn:Hf; [|done].
    simpl in Hstep. destruct (Poll.due t <=? Poll.clock st); [|done].
    injection Hstep as <-. apply find_some in Hf as [Hin _].
    eapply undisturbed_trans; [apply undisturbed_clearTimeout|].
    apply undisturbed_fetchRepo. apply Htimers. by apply list_elem_of_In.
Qed.

Lemma stalled_run evs st st' :
  stalled key st → Forall (keepsSelected key) evs →
  Poll.run POLL_INTERVAL_MS st evs = Some st' →
  stalled key st' ∧ Poll.calls key st' = Poll.calls key st.
Proof.
  revert st. induction evs as [|ev evs IH]; intros st Hstalled Hkeeps Hrun.
  - simpl in Hrun. by injection Hrun as <-.
  - simpl in Hrun.
    destruct (Poll.step POLL_INTERVAL_MS st ev) as [st1|] eqn:Hstep; [|done].
    simpl in Hrun. apply Forall_cons in Hkeeps as [Hev Hevs].
    pose proof (stalled_step st ev st1 Hstalled Hev Hstep) as Hund.
    destruct (IH st1 (stalled_undisturbed _ _ Hstalled Hund) Hevs Hrun)
      as [Hs Hc].
    split; [done|]. rewrite Hc. by destruct Hund as (_ & _ & _ & ?).
Qed.

End Undisturbed.

(** ** Polling *)

Section Polling.
Context {Series : Type}.
Variable POLL_INTERVAL_MS : Z.
Implicit Types (st : Poll.State Series).

Lemma find_snoc {A} (f : A → bool) (l : list A) (x : A) :
  (∀ y, y ∈ l → f y = false) → f x = true → List.find f (l ++ [x]) = Some x.
Proof.
  intros Hl Hx. induction l as [|y l IH]; simpl; [by rewrite Hx|].
  rewrite (Hl y) by apply list_elem_of_here.
  apply IH. intros z Hz. by apply Hl, list_elem_of_further.
Qed.

(** One round of polling. A pending call for [r] rejects with
    [StatsComputingError]: the entry of [r] shows computing and a timer is
    queued for one poll interval later. The timer cannot run before that
    time; when it runs, the client is called for [r] once more, the entry
    still shows computing and a promise is pending again. *)
Lemma retry_after_one_interval st t c :
  List.find (fun c => Pos.eqb (Poll.ticket c) t) (Poll.pending st) = Some c →
  (∀ x, x ∈ Poll.timeouts st → Poll.handle x ≠ Poll.fresh st) →
  0 ≤ POLL_INTERVAL_MS →
  let r := Poll.target c in
  let computingEntry :=
    {| Poll.repo := r; Poll.data := None; Poll.error := None;
       Poll.loading := false; Poll.computing := true |} in
  ∃ st1 st2 st3,
    Poll.step POLL_INTERVAL_MS st
      (Poll.Settle t (Poll.Rejected Poll.StatsComputingError)) = Some st1
    ∧ JsMap.get (repoKey r) (Poll.repoData st1) = Some computingEntry
    ∧ Poll.timeouts st1
      = Poll.timeouts st
        ++ [{| Poll.handle := Poll.fresh st; Poll.retries := r;
               Poll.due := Poll.clock st + POLL_INTERVAL_MS |}]
    ∧ Poll.calls (repoKey r) st1 = Poll.calls (repoKey r) st
    ∧ (∀ dt, 0 ≤ dt < POLL_INTERVAL_MS →
         (early ← Poll.step POLL_INTERVAL_MS st1 (Poll.Elapse dt);
          Poll.step POLL_INTERVAL_MS early (Poll.Fire (Poll.fresh st)))
         = None)
    ∧ Poll.step POLL_INTERVAL_MS st1 (Poll.Elapse POLL_INTERVAL_MS) = Some st2
    ∧ Poll.step POLL_INTERVAL_MS st2 (Poll.Fire (Poll.fresh st)) = Some st3
    ∧ Poll.calls (repoKey r) st3 = S (Poll.calls (repoKey r) st)
    ∧ JsMap.get (repoKey r) (Poll.repoData st3) = Some computingEntry
    ∧ {| Poll.ticket := Pos.succ (Poll.fresh st); Poll.target := r |}
      ∈ Poll.pending st3.
Proof.
  intros Hfind Hfresh Hpoll. cbv zeta.
  set (timer := {| Poll.handle := Poll.fresh st; Poll.retries := Poll.target c;
                   Poll.due := Poll.clock st + POLL_INTERVAL_MS |}).
  assert (List.find (fun x => Pos.eqb (Poll.handle x) (Poll.fresh st))
                    (Poll.timeouts st ++ [timer]) = Some timer) as Htimer.
  { apply find_snoc; [|apply Pos.eqb_refl].
    intros y Hy. by apply Pos.eqb_neq, Hfresh. }
  eexists _, _, _.
  split; [simpl; unfold Poll.takeCall; rewrite Hfind; reflexivity|].
  split; [simpl; apply get_set_eq|].
  split; [reflexivity|]. split; [reflexivity|].
  split.
  { intros dt [Hdt0 Hdt]. simpl.
    replace (0 <=? dt) with true by (symmetry; by apply Z.leb_le).
    simpl. fold timer. rewrite Htimer. simpl.
    replace (_ <=? _) with false; [done|]. symmetry. apply Z.leb_gt. lia. }
  split; [simpl; by replace (0 <=? _) with true by (symmetry; by apply Z.leb_le)|].
  split.
  { simpl. fold timer. rewrite Htimer. simpl.
    by rewrite Z.leb_refl. }
  split.
  { unfold Poll.calls. simpl. rewrite List.filter_app, length_app. simpl.
    rewrite String.eqb_refl. simpl. lia. }
  split.
  { simpl. rewrite get_set_eq. simpl. by rewrite get_set_eq. }
  simpl. apply elem_of_app. right. apply list_elem_of_here.
Qed.

(** The two ways polling ends. A call that resolves leaves the entry ready
    with the series and the timer registered for the key cleared; a call
    that rejects with another error leaves the entry failed with the
    message, and queues no timer. *)
Lemma settle_ends_polling st t c :
  List.find (fun c => Pos.eqb (Poll.ticket c) t) (Poll.pending st) = Some c →
  let r := Poll.target c in
  (∀ series, ∃ st',
      Poll.step POLL_INTERVAL_MS st (Poll.Settle t (Poll.Resolved series))
      = Some st'
      ∧ JsMap.get (repoKey r) (Poll.repoData st')
        = Some {| Poll.repo := r; Poll.data := Some series;
                  Poll.error := None; Poll.loading := false;
                  Poll.computing := false |}
      ∧ JsMap.get (repoKey r) (Poll.pollTimers st') = None
      ∧ (∀ h x, JsMap.get (repoKey r) (Poll.pollTimers st) = Some h →
                x ∈ Poll.timeouts st' → Poll.handle x ≠ h)
      ∧ Poll.issued st' = Poll.issued st)
  ∧ (∀ message, ∃ st',
      Poll.step POLL_INTERVAL_MS st
        (Poll.Settle t (Poll.Rejected (Poll.OtherError message)))
      = Some st'
      ∧ JsMap.get (repoKey r) (Poll.repoData st')
        = Some {| Poll.repo := r; Poll.data := None;
                  Poll.error := Some message; Poll.loading := false;
                  Poll.computing := false |}
      ∧ Poll.timeouts st' = Poll.timeouts st
      ∧ Poll.issued st' = Poll.issued st).
Proof.
  intros Hfind. cbv zeta. split.
  - intros series. eexists.
    split; [simpl; unfold Poll.takeCall; rewrite Hfind; reflexivity|].
    simpl. unfold Poll.onResolved. simpl.
    destruct (JsMap.get (repoKey (Poll.target c)) (Poll.pollTimers st))
      as [h|] eqn:Hh; simpl.
    + split; [apply get_set_eq|]. split; [by rewrite get_delete, decide_True|].
      split; [|done]. intros h' x [= <-] Hx Heq.
      apply list_elem_of_In, filter_In in Hx as [_ Hx].
      apply negb_true_iff, Pos.eqb_neq in Hx. done.
    + split; [apply get_set_eq|]. split; [done|]. split; [|done].
      intros h x Hsome. congruence.
  - intros message. eexists.
    split; [simpl; unfold Poll.takeCall; rewrite Hfind; reflexivity|].
    simpl. split; [apply get_set_eq|done].
Qed.

End Polling.

Section PollingGoesOn.
Context {Series : Type}.
Variable POLL_INTERVAL_MS : Z.
Implicit Types (st : Poll.State Series).

Lemma ordered_init : ordered (@Poll.init Series).
Proof. split; constructor. Qed.

(** One round, from a state whose handles and tickets are in order. *)
Lemma round_step st t c :
  ordered st →
  List.find (fun c => Pos.eqb (Poll.ticket c) t) (Poll.pending st) = Some c →
  0 ≤ POLL_INTERVAL_MS →
  let r := Poll.target c in
  ∃ st',
    Poll.run POLL_INTERVAL_MS st
      (rounds POLL_INTERVAL_MS 1 t (Poll.fresh st)) = Some st'
    ∧ ordered st'
    ∧ Poll.fresh st' = Pos.succ (Pos.succ (Poll.fresh st))
    ∧ List.find (fun c => Pos.eqb (Poll.ticket c) (Pos.succ (Poll.fresh st)))
                (Poll.pending st')
      = Some {| Poll.ticket := Pos.succ (Poll.fresh st); Poll.target := r |}
    ∧ Poll.calls (repoKey r) st' = S (Poll.calls (repoKey r) st)
    ∧ JsMap.get (repoKey r) (Poll.repoData st')
      = Some {| Poll.repo := r; Poll.data := None; Poll.error := None;
                Poll.loading := false; Poll.computing := true |}
    ∧ Poll.clock st' = Poll.clock st + POLL_INTERVAL_MS.
Proof.
  intros [Htimers Hpending] Hfind Hpoll. cbv zeta.
  rewrite Forall_forall in Htimers. rewrite Forall_forall in Hpending.
  set (timer := {| Poll.handle := Poll.fresh st; Poll.retries := Poll.target c;
                   Poll.due := Poll.clock st + POLL_INTERVAL_MS |}).
  assert (List.find (fun x => Pos.eqb (Poll.handle x) (Poll.fresh st))
                    (Poll.timeouts st ++ [timer]) = Some timer) as Htimer.
  { apply find_snoc; [|apply Pos.eqb_refl].
    intros y Hy. apply Pos.eqb_neq. specialize (Htimers y Hy). lia. }
  eexists. split.
  { simpl. unfold Poll.takeCall. rewrite Hfind. simpl.
    replace (0 <=? POLL_INTERVAL_MS) with true
      by (symmetry; by apply Z.leb_le).
    simpl. fold timer. rewrite Htimer. simpl. rewrite Z.leb_refl. reflexivity. }
  split.
  { split; apply Forall_forall; simpl.
    - intros x Hx. apply list_elem_of_In, filter_In in Hx as [Hx _].
      apply in_app_iff in Hx as [Hx|[<-|[]]].
      + apply list_elem_of_In, Htimers in Hx. lia.
      + simpl. lia.
    - intros x [Hx| ->%list_elem_of_singleton]%elem_of_app.
      + apply list_elem_of_In, filter_In in Hx as [Hx _].
        apply list_elem_of_In, Hpending in Hx. lia.
      + simpl. lia. }
  split; [reflexivity|]. split.
  { simpl. apply find_snoc; [|apply Pos.eqb_refl].
    intros y Hy. apply list_elem_of_In, filter_In in Hy as [Hy _].
    apply list_elem_of_In, Hpending in Hy. apply Pos.eqb_neq. lia. }
  split.
  { unfold Poll.calls. simpl. rewrite List.filter_app, length_app. simpl.
    rewrite String.eqb_refl. simpl. lia. }
  split; [|reflexivity].
  simpl. rewrite get_set_eq. simpl. by rewrite get_set_eq.
Qed.

Lemma ordered_same st st' :
  Poll.timeouts st' = Poll.timeouts st → Poll.pending st' = Poll.pending st →
  Poll.fresh st' = Poll.fresh st → ordered st → ordered st'.
Proof. unfold ordered. by intros -> -> ->. Qed.

Lemma ordered_clearTimeout h st : ordered st → ordered (Poll.clearTimeout h st).
Proof.
  intros [Ht Hp]. split; [|done]. simpl. rewrite Forall_forall in Ht.
  apply Forall_forall. intros x Hx.
  apply list_elem_of_In, filter_In in Hx as [Hx _]. by apply Ht, list_elem_of_In.
Qed.

Lemma ordered_callClient r st : ordered st → ordered (Poll.callClient r st).
Proof.
  intros [Ht Hp]. split; simpl.
  - eapply Forall_impl; [exact Ht|]. simpl. intros x Hx. lia.
  - apply Forall_app. split.
    + eapply Forall_impl; [exact Hp|]. simpl. intros x Hx. lia.
    + repeat constructor. simpl. lia.
Qed.

Lemma ordered_scheduleRetry r st :
  ordered st → ordered (Poll.scheduleRetry POLL_INTERVAL_MS r st).
Proof.
  intros [Ht Hp]. split; simpl.
  - apply Forall_app. split.
    + eapply Forall_impl; [exact Ht|]. simpl. intros x Hx. lia.
    + repeat constructor. simpl. lia.
  - eapply Forall_impl; [exact Hp|]. simpl. intros x Hx. lia.
Qed.

Lemma ordered_fetchRepo r isRetry st :
  ordered st → ordered (Poll.fetchRepo r isRetry st).
Proof.
  intros Hord. unfold Poll.fetchRepo. apply ordered_callClient.
  by apply (ordered_same st).
Qed.

Lemma ordered_forEachRepo snapshot repos st :
  ordered st → ordered (Poll.forEachRepo snapshot repos st).
Proof.
  revert st. induction repos as [|r repos IH]; intros st Hord; [done|].
  unfold Poll.forEachRepo in *. simpl.
  destruct (Poll.skips _); [by apply IH|]. by apply IH, ordered_fetchRepo.
Qed.

Lemma ordered_dropTimers keep entries st :
  ordered st → ordered (Poll.dropTimers keep entries st).
Proof.
  revert st. induction entries as [|[k h] entries IH]; intros st Hord; [done|].
  unfold Poll.dropTimers in *. simpl. case_bool_decide; [by apply IH|].
  apply IH. apply (ordered_same (Poll.clearTimeout h st)); try done.
  by apply ordered_clearTimeout.
Qed.

Lemma ordered_cleanup st : ordered st → ordered (Poll.cleanup st).
Proof.
  intros Hord. unfold Poll.cleanup.
  eapply ordered_same; [reflexivity..|].
  generalize (JsMap.values (Poll.pollTimers st)). intros hs.
  revert st Hord. induction hs as [|h hs IH]; intros st Hord; [done|].
  simpl. by apply IH, ordered_clearTimeout.
Qed.

(** Every event keeps handles and tickets in order. *)
Lemma ordered_step st ev st' :
  ordered st → Poll.step POLL_INTERVAL_MS st ev = Some st' → ordered st'.
Proof.
  intros Hord Hstep. destruct ev as [repos|t o|dt|h]; simpl in Hstep.
  - injection Hstep as <-. unfold Poll.effect. cbv zeta.
    eapply ordered_same; [reflexivity..|]. apply ordered_dropTimers.
    eapply ordered_same; [reflexivity..|].
    by apply ordered_forEachRepo, ordered_cleanup.
  - unfold Poll.takeCall in Hstep.
    destruct (List.find _ (Poll.pending st)) as [c|]; [|done].
    simpl in Hstep. injection Hstep as <-.
    match goal with
    | |- ordered (match o with _ => _ end) =>
        match goal with
        | |- context [Poll.onResolved _ _ ?taken] =>
            assert (ordered taken) as Htaken
        end
    end.
    { destruct Hord as [Ht Hp]. split; [done|]. simpl.
      rewrite Forall_forall in Hp. apply Forall_forall. intros x Hx.
      apply list_elem_of_In, filter_In in Hx as [Hx _].
      by apply Hp, list_elem_of_In. }
    destruct o as [series|[|message]].
    + unfold Poll.onResolved. eapply ordered_same; [reflexivity..|].
      destruct (JsMap.get _ _); [|done].
      eapply ordered_same; [reflexivity..|]. by apply ordered_clearTimeout.
    + simpl. apply ordered_scheduleRetry. by eapply ordered_same.
    + simpl. by eapply ordered_same.
  - destruct (0 <=? dt); [|done]. injection Hstep as <-.
    by eapply ordered_same.
  - destruct (List.find _ (Poll.timeouts st)) as [x|]; [|done].
    simpl in Hstep. destruct (Poll.due x <=? Poll.clock st); [|done].
    injection Hstep as <-. by apply ordered_fetchRepo, ordered_clearTimeout.
Qed.

Lemma ordered_run evs st st' :
  ordered st → Poll.run POLL_INTERVAL_MS st evs = Some st' → ordered st'.
Proof.
  revert st. induction evs as [|ev evs IH]; intros st Hord; simpl.
  - by intros [= <-].
  - destruct (Poll.step POLL_INTERVAL_MS st ev) as [st1|] eqn:Hstep; [|done].
    simpl. apply IH. by eapply ordered_step.
Qed.

Lemma run_app st evs1 evs2 st1 :
  Poll.run POLL_INTERVAL_MS st evs1 = Some st1 →
  Poll.run POLL_INTERVAL_MS st (evs1 ++ evs2)
  = Poll.run POLL_INTERVAL_MS st1 evs2.
Proof.
  revert st. induction evs1 as [|ev evs1 IH]; intros st; simpl.
  - by intros [= ->].
  - destruct (Poll.step POLL_INTERVAL_MS st ev) as [st0|]; [|done].
    simpl. apply IH.
Qed.

(** Polling goes on for as long as the client answers "still computing" and
    the selection does not change: after [n] rounds the client has been
    called [n] more times for the repository, a promise for it is pending
    again, and [n] poll intervals have passed. *)
Lemma polling_goes_on n st t c :
  ordered st →
  List.find (fun c => Pos.eqb (Poll.ticket c) t) (Poll.pending st) = Some c →
  0 ≤ POLL_INTERVAL_MS →
  let r := Poll.target c in
  ∃ st' t',
    Poll.run POLL_INTERVAL_MS st
      (rounds POLL_INTERVAL_MS n t (Poll.fresh st)) = Some st'
    ∧ ordered st'
    ∧ List.find (fun c => Pos.eqb (Poll.ticket c) t') (Poll.pending st')
      = Some {| Poll.ticket := t'; Poll.target := r |}
    ∧ Poll.calls (repoKey r) st' = (Poll.calls (repoKey r) st + n)%nat
    ∧ Poll.clock st' = Poll.clock st + Z.of_nat n * POLL_INTERVAL_MS
    ∧ ((0 < n)%nat →
       JsMap.get (repoKey r) (Poll.repoData st')
       = Some {| Poll.repo := r; Poll.data := None; Poll.error := None;
                 Poll.loading := false; Poll.computing := true |}).
Proof.
  cbv zeta. revert st t c. induction n as [|n IH]; intros st t c Hord Hfind Hpoll.
  - exists st, t. split; [done|]. split; [done|].
    split.
    { rewrite Hfind. f_equal. apply find_some in Hfind as [_ Heq].
      apply Pos.eqb_eq in Heq. destruct c; simpl in *; by subst. }
    split; [lia|]. split; [lia|]. lia.
  - destruct (round_step st t c Hord Hfind Hpoll)
      as (st1 & Hrun1 & Hord1 & Hfresh1 & Hfind1 & Hcalls1 & Hget1 & Hclock1).
    destruct (IH st1 _ _ Hord1 Hfind1 Hpoll)
      as (st' & t' & Hrun & Hord' & Hfind' & Hcalls' & Hclock' & Hget').
    simpl in Hrun, Hfind', Hcalls', Hget'.
    exists st', t'. split.
    { change (@rounds Series POLL_INTERVAL_MS (S n) t (Poll.fresh st))
        with (@rounds Series POLL_INTERVAL_MS 1 t (Poll.fresh st)
              ++ @rounds Series POLL_INTERVAL_MS n (Pos.succ (Poll.fresh st))
                   (Pos.succ (Pos.succ (Poll.fresh st)))).
      rewrite (run_app _ _ _ _ Hrun1). by rewrite <- Hfresh1. }
    split; [done|]. split; [done|]. split; [lia|]. split; [lia|].
    intros _. destruct n as [|n]; [|apply Hget'; lia].
    simpl in Hrun. injection Hrun as <-. exact Hget1.
Qed.

End PollingGoesOn.

(** C3, on the effect of [CommitChart] and [ContributorsChart], whatever
    the type of series. The first fetch of next.js rejects with
    [StatsComputingError]: next.js shows computing and one timer is
    queued, due one poll interval later. Then
    react is added. React runs the function returned by the effect, which
    clears every timer, and the new pass skips next.js because it shows
    computing: next.js is left computing with no timer and no promise.
    From such a state no sequence of events that keeps the key selected
    ever calls the client for it again. *)
Theorem retry_is_lost_when_selection_changes (POLL_INTERVAL_MS : Z) :
  (∀ Series, ∃ before after : Poll.State Series,
     Poll.run POLL_INTERVAL_MS Poll.init
       [Poll.SetRepos [Sample.next_js];
        Poll.Settle 1 (Poll.Rejected Poll.StatsComputingError)]
     = Some before
     ∧ Poll.timeouts before
       = [{| Poll.handle := 2; Poll.retries := Sample.next_js;
             Poll.due := POLL_INTERVAL_MS |}]
     ∧ Poll.step POLL_INTERVAL_MS before
         (Poll.SetRepos [Sample.next_js; Sample.react])
       = Some after
     ∧ Poll.selection after = [Sample.next_js; Sample.react]
     ∧ Poll.timeouts after = []
     ∧ Poll.calls "vercel/next.js" after = 1%nat
     ∧ stalled "vercel/next.js" after)
  ∧ (∀ Series key (st st' : Poll.State Series) (evs : list (Poll.Event Series)),
       stalled key st →
       Forall (keepsSelected key) evs →
       Poll.run POLL_INTERVAL_MS st evs = Some st' →
       stalled key st' ∧ Poll.calls key st' = Poll.calls key st).
Proof.
  split.
  - intros Series. do 2 eexists. split; [vm_compute; reflexivity|].
    split; [reflexivity|]. split; [vm_compute; reflexivity|].
    split; [reflexivity|]. split; [reflexivity|]. split; [reflexivity|].
    split; [|split].
    + eexists. split; [vm_compute; reflexivity|]. by repeat split.
    + constructor.
    + repeat constructor. by vm_compute.
  - intros Series key st st' evs. apply stalled_run.
Qed.

(** The state reached above, followed by a minute of waiting, the answer
    for react, another repository added and another minute: the client has
    still been called once for next.js. *)
Lemma retry_is_lost_witness :
  ∃ st st' : CommitChart.State,
    Poll.run Sample.POLL_INTERVAL_MS Poll.init
      [Poll.SetRepos [Sample.next_js];
       Poll.Settle 1 (Poll.Rejected Poll.StatsComputingError);
       Poll.SetRepos [Sample.next_js; Sample.react]]
    = Some st
    ∧ Poll.run Sample.POLL_INTERVAL_MS st
        [Poll.Elapse 60000;
         Poll.Settle 3 (Poll.Resolved (Sample.commits [(1, 5)]));
         Poll.SetRepos [Sample.next_js; Sample.react; Sample.a_b];
         Poll.Elapse 60000]
      = Some st'
    ∧ stalled "vercel/next.js" st'
    ∧ Poll.calls "vercel/next.js" st' = 1%nat.
Proof.
  do 2 eexists. split; [vm_compute; reflexivity|].
  match goal with
  | |- Poll.run _ ?st ?evs = Some ?st' ∧ _ =>
      split; [vm_compute; reflexivity|];
      destruct (proj2 (retry_is_lost_when_selection_changes
                         Sample.POLL_INTERVAL_MS)
                      _ "vercel/next.js" st st' evs) as [Hstalled Hcalls]
  end.
  - split; [|split].
    + eexists. split; [vm_compute; reflexivity|]. by repeat split.
    + constructor.
    + repeat constructor. by vm_compute.
  - repeat constructor; simpl;
      repeat (first [apply list_elem_of_here | apply list_elem_of_further]).
  - vm_compute. reflexivity.
  - split; [exact Hstalled|]. rewrite Hcalls. reflexivity.
Defined.

(** ** The tracked state after a pass, and stale responses *)

Section Binding.
Context {Series : Type}.
Variable POLL_INTERVAL_MS : Z.
Implicit Types (st acc : Poll.State Series).

Lemma forEachRepo_keys snapshot repos acc :
  (∀ k, k ∈ JsMap.keys snapshot → k ∈ JsMap.keys (Poll.repoData acc)) →
  ∀ k, k ∈ JsMap.keys (Poll.repoData (Poll.forEachRepo snapshot repos acc))
       ↔ k ∈ JsMap.keys (Poll.repoData acc) ∨ k ∈ map repoKey repos.
Proof.
  revert acc. induction repos as [|r repos IH]; intros acc Hsnap k.
  - simpl. split; [by left|]. intros [?|Hk]; [done|]. by apply not_elem_of_nil in Hk.
  - unfold Poll.forEachRepo in *. simpl. rewrite elem_of_cons.
    destruct (Poll.skips (JsMap.get (repoKey r) snapshot)) eqn:Hskip.
    + rewrite (IH acc Hsnap). split; [tauto|].
      intros [?|[->|?]]; [by left| |by right]. left. apply Hsnap.
      apply get_Some_keys. by destruct (JsMap.get (repoKey r) snapshot).
    + rewrite IH.
      * rewrite repoData_fetchRepo, elem_of_keys_set. tauto.
      * intros k' Hk'. rewrite repoData_fetchRepo, elem_of_keys_set.
        right. by apply Hsnap.
Qed.

Lemma forEachRepo_pollTimers snapshot repos acc :
  Poll.pollTimers (Poll.forEachRepo snapshot repos acc) = Poll.pollTimers acc.
Proof.
  revert acc. induction repos as [|r repos IH]; intros acc; [done|].
  unfold Poll.forEachRepo in *. simpl.
  destruct (Poll.skips _); by rewrite IH.
Qed.

Lemma forEachRepo_timeouts snapshot repos acc :
  Poll.timeouts (Poll.forEachRepo snapshot repos acc) = Poll.timeouts acc.
Proof.
  revert acc. induction repos as [|r repos IH]; intros acc; [done|].
  unfold Poll.forEachRepo in *. simpl.
  destruct (Poll.skips _); by rewrite IH.
Qed.

Lemma clear_all_timeouts hs st :
  ∀ t, t ∈ Poll.timeouts (foldl (fun acc h => Poll.clearTimeout h acc) st hs) →
       t ∈ Poll.timeouts st ∧ Poll.handle t ∉ hs.
Proof.
  revert st. induction hs as [|h hs IH]; intros st t Ht.
  - split; [done|]. apply not_elem_of_nil.
  - simpl in Ht. apply IH in Ht as [Ht Hnot]. simpl in Ht.
    apply list_elem_of_In, filter_In in Ht as [Ht Hne].
    apply negb_true_iff, Pos.eqb_neq in Hne.
    split; [by apply list_elem_of_In|]. apply not_elem_of_cons. done.
Qed.

Lemma get_values {V} k (v : V) (m : JsMap.t V) :
  JsMap.get k m = Some v → v ∈ JsMap.values m.
Proof.
  unfold JsMap.get, JsMap.values.
  destruct (List.find _ m) as [[k' v']|] eqn:Hf; [|done].
  simpl. intros [= ->]. apply find_some in Hf as [Hin _].
  apply list_elem_of_In in Hin. by apply (list_elem_of_fmap_2 snd) in Hin.
Qed.

(** After React has run the effect for a new [repos], the keys of the
    tracked state are the keys of [repos], no timer is registered, and
    every timer that was registered has been cleared. *)
Lemma pass_binds_state_to_selection st repos st' :
  Poll.step POLL_INTERVAL_MS st (Poll.SetRepos repos) = Some st' →
  Poll.selection st' = repos
  ∧ (∀ k, k ∈ JsMap.keys (Poll.repoData st') ↔ k ∈ map repoKey repos)
  ∧ Poll.pollTimers st' = JsMap.empty
  ∧ ∀ t, t ∈ Poll.timeouts st' →
         t ∈ Poll.timeouts st
         ∧ ∀ k h, JsMap.get k (Poll.pollTimers st) = Some h → Poll.handle t ≠ h.
Proof.
  simpl. intros [= <-]. split; [done|].
  destruct (cleanup_keeps st) as (Hd & _ & _ & Htimers & _).
  assert (Poll.effect repos (Poll.cleanup st)
          = {| Poll.selection := repos;
               Poll.repoData :=
                 JsMap.retain (currentKeys repos)
                   (Poll.repoData
                      (Poll.forEachRepo (Poll.repoData (Poll.cleanup st))
                                        repos (Poll.cleanup st)));
               Poll.pollTimers := JsMap.empty;
               Poll.timeouts := Poll.timeouts (Poll.cleanup st);
               Poll.pending :=
                 Poll.pending
                   (Poll.forEachRepo (Poll.repoData (Poll.cleanup st))
                                     repos (Poll.cleanup st));
               Poll.issued :=
                 Poll.issued
                   (Poll.forEachRepo (Poll.repoData (Poll.cleanup st))
                                     repos (Poll.cleanup st));
               Poll.fresh :=
                 Poll.fresh
                   (Poll.forEachRepo (Poll.repoData (Poll.cleanup st))
                                     repos (Poll.cleanup st));
               Poll.clock :=
                 Poll.clock
                   (Poll.forEachRepo (Poll.repoData (Poll.cleanup st))
                                     repos (Poll.cleanup st)) |}) as ->.
  { unfold Poll.effect. cbv zeta.
    cbn [Poll.pollTimers Poll.setRepoData].
    rewrite forEachRepo_pollTimers, Htimers.
    cbn [Poll.dropTimers foldl JsMap.empty Poll.setRepoData Poll.repoData
         Poll.pollTimers Poll.timeouts Poll.pending Poll.issued Poll.fresh
         Poll.clock].
    by rewrite forEachRepo_pollTimers, Htimers, forEachRepo_timeouts. }
  cbn [Poll.repoData Poll.pollTimers Poll.timeouts].
  split; [|split; [done|]].
  - intros k. rewrite elem_of_keys_retain, elem_of_currentKeys.
    rewrite forEachRepo_keys by done. tauto.
  - intros t. unfold Poll.cleanup.
    cbn [Poll.timeouts Poll.setPollTimers].
    intros [Ht Hnot]%clear_all_timeouts. split; [done|].
    intros k h Hget Heq. apply Hnot. rewrite Heq. by eapply get_values.
Qed.

End Binding.

(** C1, on stale responses. next.js is selected and its fetch is under way
    when it is removed. The pass that follows leaves the tracked state
    empty. Then the promise settles, and its callback writes the entry of
    next.js back although the selection is empty: with a series when the
    fetch resolves; and when it rejects with [StatsComputingError], as
    computing, with a timer that runs after the poll interval and calls the
    client for next.js again. [IssuesChart] writes the entry back in the
    same way. *)
Theorem stale_response_restores_removed_entry :
  (∃ removed st : CommitChart.State,
     Poll.run Sample.POLL_INTERVAL_MS Poll.init
       [Poll.SetRepos [Sample.next_js]; Poll.SetRepos []]
     = Some removed
     ∧ Poll.repoData removed = JsMap.empty
     ∧ Poll.step Sample.POLL_INTERVAL_MS removed
         (Poll.Settle 1 (Poll.Resolved (Sample.commits [(1, 5)])))
       = Some st
     ∧ Poll.selection st = []
     ∧ Poll.repoData st
       = [("vercel/next.js",
           Sample.ready Sample.next_js (Sample.commits [(1, 5)]))])
  ∧ (∃ st : CommitChart.State,
       Poll.run Sample.POLL_INTERVAL_MS Poll.init
         [Poll.SetRepos [Sample.next_js]; Poll.SetRepos [];
          Poll.Settle 1 (Poll.Rejected Poll.StatsComputingError);
          Poll.Elapse Sample.POLL_INTERVAL_MS; Poll.Fire 2]
       = Some st
       ∧ Poll.selection st = []
       ∧ JsMap.keys (Poll.repoData st) = ["vercel/next.js"]
       ∧ Poll.calls "vercel/next.js" st = 2%nat
       ∧ Poll.pending st
         = [{| Poll.ticket := 3; Poll.target := Sample.next_js |}])
  ∧ (∃ st : IssuesChart.State,
       IssuesChart.run IssuesChart.init
         [IssuesChart.SetRepos [Sample.next_js]; IssuesChart.SetRepos [];
          IssuesChart.Settle 1
            (IssuesChart.Resolved (Sample.issueWeeks [(1, 5)]))]
       = Some st
       ∧ IssuesChart.selection st = []
       ∧ IssuesChart.repoData st
         = [("vercel/next.js",
             Sample.readyIssues Sample.next_js (Sample.issueWeeks [(1, 5)]))]).
Proof.
  split; [|split].
  - do 2 eexists. split; [vm_compute; reflexivity|]. by repeat split.
  - eexists. split; [vm_compute; reflexivity|]. by repeat split.
  - eexists. split; [vm_compute; reflexivity|]. by repeat split.
Qed.

(** ** The window of 52 weeks *)





Section Window.
Context {A : Type}.
Variable POLL_INTERVAL_MS : Z.
Variable n : nat.
Implicit Types (st : Poll.State (list A)) (rd : JsMap.t (Poll.RepoData (list A))).








End Window.



(** * Further properties *)

(** ** The selection *)

Lemma isDuplicate_caseKey toLowerCase repos parsed :
  RepoInput.isDuplicate toLowerCase repos parsed = true
  ↔ caseKey toLowerCase parsed ∈ map (caseKey toLowerCase) repos.
Proof.
  rewrite isDuplicate_spec. unfold sameRepo, caseKey. split.
  - intros (r & Hin & Ho & Hn). apply list_elem_of_fmap. exists r.
    split; [|done]. by rewrite Ho, Hn.
  - intros (r & Heq & Hin)%list_elem_of_fmap. exists r. split; [done|].
    by injection Heq as -> ->.
Qed.

Lemma handleAdd_distinct toLowerCase parse repos ui :
  distinctSelection toLowerCase repos →
  distinctSelection toLowerCase
    (RepoInput.handleAdd toLowerCase parse repos ui).1.
Proof.
  intros Hd. unfold RepoInput.handleAdd.
  destruct (parse (RepoInput.inputValue ui)) as [parsed|]; [|done].
  destruct (RepoInput.isDuplicate toLowerCase repos parsed) eqn:Hdup;
    [done|]. simpl.
  unfold distinctSelection, App.handleAddRepo in *.
  rewrite map_app. apply NoDup_app. split; [done|]. split.
  - intros k Hk [->|Hnil]%elem_of_cons; [|by apply not_elem_of_nil in Hnil].
    apply isDuplicate_caseKey in Hk. congruence.
  - apply NoDup_singleton.
Qed.

(** X2. A selection in which no two entries name the same repository, case
    aside, stays so through any sequence of inputs put through
    [handleAdd], whatever the parser makes of them. Case aside is by the
    lower-case forms that [toLowerCase] gives, as [handleAdd] compares
    them; the statement holds for the built-in whatever it does beyond
    ASCII. *)
Theorem handleAdd_keeps_selection_distinct
    (toLowerCase : string → string)
    (parseRepoInput : string → option ParsedRepo)
    (texts : list string) (repos : list ParsedRepo) :
  distinctSelection toLowerCase repos →
  distinctSelection toLowerCase
    (foldl (fun acc text =>
              (RepoInput.typeAndAdd toLowerCase parseRepoInput text acc).1)
           repos texts).
Proof.
  revert repos. induction texts as [|text texts IH]; intros repos Hd; [done|].
  simpl. apply IH. by apply handleAdd_distinct.
Qed.

Lemma handleAdd_keeps_selection_distinct_witness :
  distinctSelection Js.toLowerCaseAscii
    (foldl (fun acc text =>
              (RepoInput.typeAndAdd Js.toLowerCaseAscii
                 RepoInput.parseShorthand text acc).1)
           [] ["A/B"; "a/b"; "vercel/next.js"; "oops"; "Vercel/Next.js"])
  ∧ foldl (fun acc text =>
             (RepoInput.typeAndAdd Js.toLowerCaseAscii
                RepoInput.parseShorthand text acc).1)
          [] ["A/B"; "a/b"; "vercel/next.js"; "oops"; "Vercel/Next.js"]
    = [Sample.A_B; Sample.next_js].
Proof.
  split; [|reflexivity].
  apply (handleAdd_keeps_selection_distinct Js.toLowerCaseAscii
           RepoInput.parseShorthand).
  apply NoDup_nil_2.
Defined.

Lemma append_inj_head (a b c : string) : a +:+ b = a +:+ c → b = c.
Proof.
  induction a as [|x a IH]; simpl; [done|]. intros [= H]. by apply IH.
Qed.

Lemma repoKey_inj r p :
  Js.occurs "/" (owner r) = false → Js.occurs "/" (owner p) = false →
  repoKey r = repoKey p → r = p.
Proof.
  intros Hr Hp Hkey. unfold repoKey in Hkey.
  assert (owner r = owner p) as Ho.
  { pose proof (f_equal (Js.split "/") Hkey) as Hs.
    rewrite (split_app _ _ _ Hr), (split_app _ _ _ Hp) in Hs. by injection Hs. }
  rewrite Ho in Hkey. apply append_inj_head in Hkey. injection Hkey as Hn.
  destruct r, p; simpl in *; by subst.
Qed.

(** X3. The key [owner/name], under which the charts keep their state, tells
    the entries of a selection apart when no owner holds a slash and no two
    entries name the same repository, case aside. *)
Theorem distinct_selection_has_distinct_keys
    (toLowerCase : string → string) (repos : list ParsedRepo) :
  Forall (fun r => Js.occurs "/" (owner r) = false) repos →
  distinctSelection toLowerCase repos →
  NoDup (map repoKey repos).
Proof.
  intros Hslash Hd. rewrite Forall_forall in Hslash.
  apply NoDup_fmap_1 in Hd.
  apply (NoDup_fmap_2_strong repoKey); [|done].
  intros r p Hr Hp. apply repoKey_inj; by apply Hslash.
Qed.

Lemma distinct_selection_has_distinct_keys_witness :
  NoDup (map repoKey [Sample.A_B; Sample.next_js; Sample.react]).
Proof.
  apply (distinct_selection_has_distinct_keys Js.toLowerCaseAscii).
  - repeat constructor.
  - apply (bool_decide_unpack _). vm_compute. exact I.
Defined.

(** X4. Whatever the [repos] parameter holds, the selection decoded from it
    survives the URL: writing it back with [updateUrl] and decoding again
    gives the same selection. [updateUrl] deletes the parameter exactly
    when the selection is empty, and otherwise writes a non-empty value. *)
Theorem decoded_selection_survives_url (reposParam : option string) :
  App.getReposFromUrl (App.updateUrl (App.getReposFromUrl reposParam))
  = App.getReposFromUrl reposParam
  ∧ ∀ repos,
      (App.updateUrl repos = None ↔ repos = [])
      ∧ ∀ value, App.updateUrl repos = Some value → Js.truthy value = true.
Proof.
  split.
  - apply decode_encode_plain, getReposFromUrl_plain.
  - intros repos. unfold App.updateUrl. destruct repos as [|r repos]; simpl.
    + split; [done|]. intros value [=].
    + split; [by split|]. intros value [= <-].
      apply (join_truthy "," (repoKey r :: map repoKey repos)); [|done].
      apply Forall_forall. intros k Hk.
      change (repoKey r :: map repoKey repos) with (map repoKey (r :: repos)) in Hk.
      apply list_elem_of_fmap in Hk as (r' & -> & _). apply repoKey_truthy.
Qed.

(** X5. Every reference that [getReposFromUrl] returns has a non-empty
    owner and a non-empty name, and neither holds a comma or a slash. *)
Theorem decoded_references_are_plain (reposParam : option string) (r : ParsedRepo) :
  r ∈ App.getReposFromUrl reposParam →
  owner r ≠ "" ∧ name r ≠ ""
  ∧ Js.occurs "/" (owner r) = false ∧ Js.occurs "," (owner r) = false
  ∧ Js.occurs "/" (name r) = false ∧ Js.occurs "," (name r) = false.
Proof.
  intros Hin. pose proof (getReposFromUrl_plain reposParam) as Hall.
  rewrite Forall_forall in Hall. specialize (Hall r Hin).
  unfold plainRepo in Hall. apply andb_true_iff in Hall as [Ho Hn].
  apply plainPart_spec in Ho as (Ho & Hos & Hoc), Hn as (Hn & Hns & Hnc).
  repeat split; try done.
  - intros Heq. by rewrite Heq in Ho.
  - intros Heq. by rewrite Heq in Hn.
Qed.

Lemma decoded_references_are_plain_witness :
  owner {| owner := "p"; name := "q" |} ≠ ""
  ∧ name {| owner := "p"; name := "q" |} ≠ ""
  ∧ Js.occurs "/" "p" = false ∧ Js.occurs "," "p" = false
  ∧ Js.occurs "/" "q" = false ∧ Js.occurs "," "q" = false.
Proof.
  apply (decoded_references_are_plain (Some ",x,p/q/r,/y")).
  vm_compute. apply list_elem_of_here.
Defined.

(** X6. [handleRemoveRepo] takes out the entry at [index] and nothing else:
    the entries before it and after it stay, in their order. An index past
    the end changes nothing. Removing at the position where
    [handleAddRepo] has just put an entry undoes the addition. *)
Theorem handleRemoveRepo_by_position (prev : list ParsedRepo) (index : nat) :
  App.handleRemoveRepo prev index = take index prev ++ drop (S index) prev
  ∧ (length prev ≤ index → App.handleRemoveRepo prev index = prev)%nat
  ∧ (index < length prev →
     length (App.handleRemoveRepo prev index) = pred (length prev))%nat
  ∧ ∀ repo,
      App.handleRemoveRepo (App.handleAddRepo prev repo) (length prev) = prev.
Proof.
  rewrite handleRemoveRepo_delete. split; [apply delete_take_drop|].
  split; [|split].
  - intros Hge. rewrite delete_take_drop, take_ge, drop_ge by lia.
    by rewrite app_nil_r.
  - intros Hlt. rewrite length_delete; [lia|].
    by apply lookup_lt_is_Some_2.
  - intros repo. rewrite handleRemoveRepo_delete. unfold App.handleAddRepo.
    rewrite delete_take_drop, take_app_length.
    rewrite drop_ge by (rewrite length_app; simpl; lia). by rewrite app_nil_r.
Qed.

Lemma handleRemoveRepo_by_position_witness :
  App.handleRemoveRepo [Sample.A_B; Sample.next_js; Sample.react] 7
  = [Sample.A_B; Sample.next_js; Sample.react]
  ∧ length (App.handleRemoveRepo [Sample.A_B; Sample.next_js; Sample.react] 1)
    = 2%nat.
Proof.
  pose proof (handleRemoveRepo_by_position
                [Sample.A_B; Sample.next_js; Sample.react] 7) as (_ & Hge & _).
  pose proof (handleRemoveRepo_by_position
                [Sample.A_B; Sample.next_js; Sample.react] 1) as (_ & _ & Hlt & _).
  split; [apply Hge; simpl; lia | apply Hlt; simpl; lia].
Defined.

(** X7. Removing an entry keeps a selection free of repositories named
    twice, and keeps its keys distinct when they were. *)
Theorem handleRemoveRepo_keeps_distinct
    (toLowerCase : string → string) (prev : list ParsedRepo) (index : nat) :
  (distinctSelection toLowerCase prev →
   distinctSelection toLowerCase (App.handleRemoveRepo prev index))
  ∧ (NoDup (map repoKey prev) →
     NoDup (map repoKey (App.handleRemoveRepo prev index))).
Proof.
  rewrite handleRemoveRepo_delete. unfold distinctSelection.
  split; intros Hnd.
  - change (map (caseKey toLowerCase) (delete index prev))
      with (caseKey toLowerCase <$> delete index prev).
    rewrite list_fmap_delete. eapply sublist_NoDup; [done|apply sublist_delete].
  - change (map repoKey (delete index prev)) with (repoKey <$> delete index prev).
    rewrite list_fmap_delete. eapply sublist_NoDup; [done|apply sublist_delete].
Qed.

Lemma handleRemoveRepo_keeps_distinct_witness :
  distinctSelection Js.toLowerCaseAscii
    (App.handleRemoveRepo [Sample.A_B; Sample.next_js] 0)
  ∧ NoDup (map repoKey (App.handleRemoveRepo [Sample.A_B; Sample.next_js] 0)).
Proof.
  pose proof (handleRemoveRepo_keeps_distinct Js.toLowerCaseAscii
                [Sample.A_B; Sample.next_js] 0)
    as [Hcase Hkeys].
  split.
  - apply Hcase. apply (bool_decide_unpack _). vm_compute. exact I.
  - apply Hkeys. apply (bool_decide_unpack _). vm_compute. exact I.
Defined.

(** ** Maps with distinct keys *)

Section JsMapDistinct.
Context {V : Type}.
Implicit Types (m : JsMap.t V) (k : string) (v : V).

Lemma NoDup_keys_set k v m :
  NoDup (JsMap.keys m) → NoDup (JsMap.keys (JsMap.set k v m)).
Proof.
  intros Hnd. rewrite keys_set. destruct (JsMap.has k m) eqn:Hhas; [done|].
  apply NoDup_app. split; [done|]. split; [|apply NoDup_singleton].
  intros k' Hk' ->%list_elem_of_singleton. apply has_keys in Hk'. congruence.
Qed.

Lemma NoDup_keys_retain keep m :
  NoDup (JsMap.keys m) → NoDup (JsMap.keys (JsMap.retain keep m)).
Proof.
  intros Hnd. rewrite keys_retain.
  apply NoDup_ListNoDup, List.NoDup_filter. by apply NoDup_ListNoDup.
Qed.

Lemma get_of_entry k v m :
  NoDup (JsMap.keys m) → (k, v) ∈ m → JsMap.get k m = Some v.
Proof.
  induction m as [|[k' v'] m IH]; intros Hnd Hin.
  - by apply not_elem_of_nil in Hin.
  - unfold JsMap.keys in *. simpl in Hnd. apply NoDup_cons in Hnd as [Hk' Hnd].
    rewrite get_cons. apply elem_of_cons in Hin as [[= -> ->]|Hin].
    + by rewrite String.eqb_refl.
    + destruct (String.eqb_spec k' k) as [->|Hne]; [|by apply IH].
      destruct Hk'. by apply (list_elem_of_fmap_2 fst) in Hin.
Qed.

Lemma entry_of_get k v m : JsMap.get k m = Some v → (k, v) ∈ m.
Proof.
  unfold JsMap.get. destruct (List.find _ m) as [[k' v']|] eqn:Hf; [|done].
  simpl. intros [= ->]. apply find_some in Hf as [Hin Heq].
  simpl in Heq. apply String.eqb_eq in Heq as ->. by apply list_elem_of_In.
Qed.

End JsMapDistinct.

(** ** The polling effect: the shape of the tracked state *)

Section Tidy.
Context {Series : Type}.
Variable POLL_INTERVAL_MS : Z.
Implicit Types (st : Poll.State Series) (rd : JsMap.t (Poll.RepoData Series)).

Lemma tidy_set rd key d : tidy rd → shaped key d → tidy (JsMap.set key d rd).
Proof.
  intros [Hnd Hshape] Hd. split; [by apply NoDup_keys_set|].
  intros k d'. rewrite get_set. case_decide as Hk.
  - intros [= <-]. by subst.
  - apply Hshape.
Qed.

Lemma tidy_retain rd keep : tidy rd → tidy (JsMap.retain keep rd).
Proof.
  intros [Hnd Hshape]. split; [by apply NoDup_keys_retain|].
  intros k d. rewrite get_retain. case_bool_decide; [apply Hshape|done].
Qed.

Lemma tidy_fetchRepo r isRetry st :
  tidy (Poll.repoData st) → tidy (Poll.repoData (Poll.fetchRepo r isRetry st)).
Proof.
  intros Htidy. rewrite repoData_fetchRepo. apply tidy_set; [done|].
  split; [done|]. simpl. split; [by destruct isRetry|]. by intros [? ?].
Qed.

Lemma tidy_forEachRepo snapshot repos st :
  tidy (Poll.repoData st) →
  tidy (Poll.repoData (Poll.forEachRepo snapshot repos st)).
Proof.
  revert st. induction repos as [|r repos IH]; intros st Htidy; [done|].
  unfold Poll.forEachRepo in *. simpl.
  destruct (Poll.skips _); [by apply IH|]. by apply IH, tidy_fetchRepo.
Qed.

Lemma tidy_effect repos st :
  tidy (Poll.repoData st) → tidy (Poll.repoData (Poll.effect repos st)).
Proof.
  intros Htidy. unfold Poll.effect. cbv zeta. cbn [Poll.repoData].
  match goal with
  | |- tidy (Poll.repoData (Poll.dropTimers ?keep ?entries ?acc)) =>
      destruct (dropTimers_keeps keep entries acc) as (-> & _)
  end.
  cbn [Poll.repoData Poll.setRepoData]. by apply tidy_retain, tidy_forEachRepo.
Qed.

Lemma tidy_step st ev st' :
  tidy (Poll.repoData st) → Poll.step POLL_INTERVAL_MS st ev = Some st' →
  tidy (Poll.repoData st').
Proof.
  intros Htidy Hstep. destruct ev as [repos|t o|dt|h]; simpl in Hstep.
  - injection Hstep as <-. apply tidy_effect.
    by destruct (cleanup_keeps st) as (-> & _).
  - unfold Poll.takeCall in Hstep.
    destruct (List.find _ (Poll.pending st)) as [c|]; [|done].
    simpl in Hstep. injection Hstep as <-.
    destruct o as [series|[|message]].
    + unfold Poll.onResolved. cbn [Poll.repoData Poll.setRepoData].
      assert (∀ x : Poll.State Series,
                 Poll.repoData x = Poll.repoData st →
                 tidy (JsMap.set (repoKey (Poll.target c))
                         {| Poll.repo := Poll.target c;
                            Poll.data := Some series; Poll.error := None;
                            Poll.loading := false; Poll.computing := false |}
                         (Poll.repoData x))) as Hset.
      { intros x ->. apply tidy_set; [done|]. split; [done|].
        split; [done|]. by intros [? ?]. }
      apply Hset. by destruct (JsMap.get _ _).
    + simpl. apply tidy_set; [done|]. split; [done|]. split; [done|].
      by intros [? ?].
    + simpl. apply tidy_set; [done|]. by repeat split.
  - destruct (0 <=? dt); [|done]. by injection Hstep as <-.
  - destruct (List.find _ (Poll.timeouts st)) as [x|]; [|done].
    simpl in Hstep. destruct (Poll.due x <=? Poll.clock st); [|done].
    injection Hstep as <-. by apply tidy_fetchRepo.
Qed.

Lemma tidy_run evs st st' :
  tidy (Poll.repoData st) → Poll.run POLL_INTERVAL_MS st evs = Some st' →
  tidy (Poll.repoData st').
Proof.
  revert st. induction evs as [|ev evs IH]; intros st Htidy; simpl.
  - by intros [= <-].
  - destruct (Poll.step POLL_INTERVAL_MS st ev) as [st1|] eqn:Hstep; [|done].
    simpl. apply IH. by eapply tidy_step.
Qed.

End Tidy.

(** X8. In every state that [CommitChart] or [ContributorsChart] reaches,
    whatever the selection changes, the answers of the client and the
    timers were: the tracked map has no key twice; every entry sits under
    the key of its own repository; no entry is loading and computing at
    once; and an entry that holds an error holds no series and is neither
    loading nor computing. *)
Theorem tracked_entries_are_shaped {Series} (POLL_INTERVAL_MS : Z)
    (evs : list (Poll.Event Series)) (st : Poll.State Series) :
  Poll.run POLL_INTERVAL_MS Poll.init evs = Some st →
  NoDup (JsMap.keys (Poll.repoData st))
  ∧ ∀ key d,
      JsMap.get key (Poll.repoData st) = Some d →
      repoKey (Poll.repo d) = key
      ∧ (Poll.loading d = true → Poll.computing d = false)
      ∧ (is_Some (Poll.error d) →
         Poll.data d = None ∧ Poll.loading d = false
         ∧ Poll.computing d = false).
Proof.
  intros Hrun. apply (tidy_run POLL_INTERVAL_MS evs Poll.init st); [|done].
  split; [apply NoDup_nil_2|]. intros key d Hget. done.
Qed.

Lemma tracked_entries_are_shaped_witness :
  ∃ st : CommitChart.State,
    Poll.run Sample.POLL_INTERVAL_MS Poll.init
      [Poll.SetRepos [Sample.next_js; Sample.react; Sample.next_js];
       Poll.Settle 1 (Poll.Rejected Poll.StatsComputingError);
       Poll.Settle 2 (Poll.Rejected (Poll.OtherError "Not Found"));
       Poll.Settle 3 (Poll.Resolved (Sample.commits [(1, 5)]))]
    = Some st
    ∧ NoDup (JsMap.keys (Poll.repoData st)).
Proof.
  eexists.
  match goal with
  | |- Poll.run _ _ ?evs = Some ?st ∧ _ =>
      split; [vm_compute; reflexivity|];
      apply (tracked_entries_are_shaped Sample.POLL_INTERVAL_MS evs st)
  end.
  vm_compute. reflexivity.
Defined.

(** ** What the cards show *)

(** X9. With a non-empty selection, the card of [CommitChart] and
    [ContributorsChart] shows exactly one of its four panels (loading, the
    chart, no data, waiting for GitHub), whatever the tracked state and the
    number of rows; the card of [IssuesChart] shows exactly one of its
    three. With an empty selection both show the placeholder, whatever the
    tracked state still holds. *)
Theorem exactly_one_panel {Series} (repos : list ParsedRepo) (rows : nat)
    (repoData : JsMap.t (Poll.RepoData Series))
    (issueData : JsMap.t IssuesChart.RepoData) :
  match Poll.render repos repoData rows with
  | Poll.Placeholder => repos = []
  | Poll.Card errorLines computingLine panels =>
      repos ≠ []
      ∧ errorLines = Poll.errors repoData
      ∧ computingLine = Poll.computingRepos repoData
      ∧ (Nat.b2n (Poll.loadingPanel panels) + Nat.b2n (Poll.chartPanel panels)
         + Nat.b2n (Poll.noDataPanel panels)
         + Nat.b2n (Poll.waitingPanel panels) = 1)%nat
  end
  ∧ match IssuesChart.render repos issueData rows with
    | IssuesChart.Placeholder => repos = []
    | IssuesChart.Card errorLines panels =>
        repos ≠ []
        ∧ errorLines = IssuesChart.errors issueData
        ∧ (Nat.b2n (IssuesChart.loadingPanel panels)
           + Nat.b2n (IssuesChart.chartPanel panels)
           + Nat.b2n (IssuesChart.noDataPanel panels) = 1)%nat
    end.
Proof.
  unfold Poll.render, IssuesChart.render.
  destruct repos as [|r repos]; [done|]. cbv zeta.
  change (length (r :: repos) =? 0)%nat with false. cbn [Poll.loadingPanel
    Poll.chartPanel Poll.noDataPanel Poll.waitingPanel IssuesChart.loadingPanel
    IssuesChart.chartPanel IssuesChart.noDataPanel].
  change (0 <? length (r :: repos))%nat with true.
  split; (split; [done|]); (split; [done|]).
  - split; [done|].
    destruct (Poll.isLoading repoData), rows as [|rows],
      (Poll.computingRepos repoData) as [|k ks]; reflexivity.
  - destruct (IssuesChart.isLoading issueData), rows as [|rows]; reflexivity.
Qed.

Section Lines.
Context {Series : Type}.
Implicit Types (rd : JsMap.t (Poll.RepoData Series)).

Lemma tidy_cons_inv key d rd :
  tidy ((key, d) :: rd) → shaped key d ∧ tidy rd ∧ key ∉ JsMap.keys rd.
Proof.
  intros [Hnd Hshape]. unfold JsMap.keys in Hnd. simpl in Hnd.
  apply NoDup_cons in Hnd as [Hkey Hnd]. split; [|split; [split|]]; try done.
  - apply Hshape. by rewrite get_cons, String.eqb_refl.
  - intros k d' Hget. apply Hshape. rewrite get_cons.
    destruct (String.eqb_spec key k) as [->|]; [|done].
    destruct Hkey. apply get_Some_keys. by rewrite Hget.
Qed.

Lemma computingRepos_spec rd key :
  tidy rd →
  key ∈ Poll.computingRepos rd
  ↔ ∃ d, JsMap.get key rd = Some d ∧ Poll.computing d = true.
Proof.
  intros Htidy. unfold Poll.computingRepos, JsMap.values.
  rewrite list_elem_of_fmap. split.
  - intros (d & -> & Hin). apply list_elem_of_In, filter_In in Hin as [Hin Hc].
    apply list_elem_of_In, list_elem_of_fmap in Hin as ([k d'] & -> & Hin).
    simpl in *. pose proof (get_of_entry k d' rd (proj1 Htidy) Hin) as Hget.
    destruct (proj2 Htidy k d' Hget) as (Hk & _). rewrite Hk. by exists d'.
  - intros (d & Hget & Hc). exists d.
    destruct (proj2 Htidy key d Hget) as (Hk & _). split; [done|].
    apply list_elem_of_In, filter_In. split; [|done].
    apply list_elem_of_In, list_elem_of_fmap. exists (key, d).
    split; [done|]. by apply entry_of_get.
Qed.

Lemma errors_spec rd key message :
  tidy rd →
  (key, message) ∈ Poll.errors rd
  ↔ ∃ d, JsMap.get key rd = Some d ∧ Poll.error d = Some message
         ∧ message ≠ "".
Proof.
  intros Htidy. unfold Poll.errors, JsMap.values.
  rewrite list_elem_of_omap. split.
  - intros (d & Hin & Hd).
    apply list_elem_of_fmap in Hin as ([k d'] & -> & Hin). simpl in *.
    pose proof (get_of_entry k d' rd (proj1 Htidy) Hin) as Hget.
    destruct (proj2 Htidy k d' Hget) as (Hk & _).
    unfold Poll.shownError in Hd.
    destruct (Poll.error d') as [m|] eqn:Herr; [|done].
    destruct m as [|c m]; [done|]. simpl in Hd. injection Hd as <- <-.
    rewrite Hk. by exists d'.
  - intros (d & Hget & Herr & Hne). exists d.
    destruct (proj2 Htidy key d Hget) as (Hk & _). split.
    + apply list_elem_of_fmap. exists (key, d).
      split; [done|]. by apply entry_of_get.
    + unfold Poll.shownError. rewrite Herr, Hk. by destruct message.
Qed.

Lemma lines_NoDup {A} (f : Poll.RepoData Series → option A) rd :
  tidy rd →
  NoDup (omap (fun d => f d ≫= fun _ => Some (repoKey (Poll.repo d)))
              (JsMap.values rd)).
Proof.
  induction rd as [|[k d] rd IH]; intros Htidy; [apply NoDup_nil_2|].
  apply tidy_cons_inv in Htidy as (Hd & Htidy & Hk).
  unfold JsMap.values in *. cbn. destruct (f d) as [a|]; simpl; [|by apply IH].
  apply NoDup_cons. split; [|by apply IH].
  intros (d' & Hin & Hd')%list_elem_of_omap.
  apply list_elem_of_fmap in Hin as ([k' d''] & -> & Hin). simpl in Hd'.
  destruct (f d''); [|done]. simpl in Hd'. injection Hd' as Heq.
  pose proof (get_of_entry k' d'' rd (proj1 Htidy) Hin) as Hget.
  destruct (proj2 Htidy k' d'' Hget) as (Hk' & _).
  destruct Hd as (Hkd & _). apply Hk.
  rewrite <- Hkd, <- Heq, Hk'. by apply (list_elem_of_fmap_2 fst) in Hin.
Qed.

End Lines.

(** X10. In every state that [CommitChart] or [ContributorsChart] reaches,
    the error lines are the tracked repositories whose entry holds a
    non-empty message, each once; the "Computing stats for" line names
    the tracked repositories whose entry is computing, each once; and a
    repository with an error line is not named in the computing line and
    is not loading. An empty message gives no error line. *)
Theorem error_and_computing_lines {Series} (POLL_INTERVAL_MS : Z)
    (evs : list (Poll.Event Series)) (st : Poll.State Series) :
  Poll.run POLL_INTERVAL_MS Poll.init evs = Some st →
  let rd := Poll.repoData st in
  (∀ key message,
     (key, message) ∈ Poll.errors rd
     ↔ ∃ d, JsMap.get key rd = Some d ∧ Poll.error d = Some message
            ∧ message ≠ "")
  ∧ (∀ key,
       key ∈ Poll.computingRepos rd
       ↔ ∃ d, JsMap.get key rd = Some d ∧ Poll.computing d = true)
  ∧ NoDup (map fst (Poll.errors rd))
  ∧ NoDup (Poll.computingRepos rd)
  ∧ ∀ key message,
      (key, message) ∈ Poll.errors rd →
      (key ∉ Poll.computingRepos rd)
      ∧ ∃ d, JsMap.get key rd = Some d ∧ Poll.loading d = false.
Proof.
  intros Hrun. cbv zeta.
  assert (tidy (Poll.repoData st)) as Htidy.
  { apply (tidy_run POLL_INTERVAL_MS evs Poll.init st); [|done].
    split; [apply NoDup_nil_2|done]. }
  split; [intros; by apply errors_spec|].
  split; [intros; by apply computingRepos_spec|].
  split; [|split].
  - pose proof (lines_NoDup (fun d => Poll.shownError (Poll.error d))
                            (Poll.repoData st) Htidy) as Hnd.
    replace (map fst (Poll.errors (Poll.repoData st)))
      with (omap (fun d => Poll.shownError (Poll.error d)
                           ≫= fun _ => Some (repoKey (Poll.repo d)))
                 (JsMap.values (Poll.repoData st))); [done|].
    unfold Poll.errors. generalize (JsMap.values (Poll.repoData st)).
    intros ds. induction ds as [|d ds IH]; [done|]. cbn.
    destruct (Poll.shownError (Poll.error d)); cbn; by rewrite IH.
  - pose proof (lines_NoDup (fun d => if Poll.computing d then Some () else None)
                            (Poll.repoData st) Htidy) as Hnd.
    replace (Poll.computingRepos (Poll.repoData st))
      with (omap (fun d => (if Poll.computing d then Some () else None)
                           ≫= fun _ => Some (repoKey (Poll.repo d)))
                 (JsMap.values (Poll.repoData st))); [done|].
    unfold Poll.computingRepos. generalize (JsMap.values (Poll.repoData st)).
    intros ds. induction ds as [|d ds IH]; [done|]. cbn.
    destruct (Poll.computing d); cbn; by rewrite IH.
  - intros key message (d & Hget & Herr & _)%errors_spec; [|done].
    destruct (proj2 Htidy key d Hget) as (_ & _ & Hshape).
    destruct Hshape as (_ & Hl & Hc); [by rewrite Herr|].
    split; [|by exists d].
    intros (d' & Hget' & Hc')%computingRepos_spec; [|done]. congruence.
Qed.

Lemma error_and_computing_lines_witness :
  ∃ st : CommitChart.State,
    Poll.run Sample.POLL_INTERVAL_MS Poll.init
      [Poll.SetRepos [Sample.next_js; Sample.react; Sample.a_b];
       Poll.Settle 1 (Poll.Rejected Poll.StatsComputingError);
       Poll.Settle 2 (Poll.Rejected (Poll.OtherError "Not Found"));
       Poll.Settle 3 (Poll.Rejected (Poll.OtherError ""))]
    = Some st
    ∧ Poll.errors (Poll.repoData st) = [("facebook/react", "Not Found")]
    ∧ Poll.computingRepos (Poll.repoData st) = ["vercel/next.js"]
    ∧ NoDup (Poll.computingRepos (Poll.repoData st)).
Proof.
  eexists.
  match goal with
  | |- Poll.run _ _ ?evs = Some ?st ∧ _ =>
      split; [vm_compute; reflexivity|];
      pose proof (error_and_computing_lines Sample.POLL_INTERVAL_MS evs st)
        as Hlines
  end.
  split; [reflexivity|]. split; [reflexivity|].
  apply Hlines. vm_compute. reflexivity.
Defined.

(** ** The polling effect: what a pass leaves behind *)

Section PassResult.
Context {Series : Type}.
Variable POLL_INTERVAL_MS : Z.
Implicit Types (st acc : Poll.State Series).

Lemma forEachRepo_get_skipped snapshot repos acc key :
  Poll.skips (JsMap.get key snapshot) = true →
  JsMap.get key (Poll.repoData (Poll.forEachRepo snapshot repos acc))
  = JsMap.get key (Poll.repoData acc).
Proof.
  intros Hskip. revert acc. induction repos as [|r repos IH]; intros acc; [done|].
  unfold Poll.forEachRepo in *. simpl.
  destruct (Poll.skips (JsMap.get (repoKey r) snapshot)) eqn:Hr; [apply IH|].
  rewrite IH, repoData_fetchRepo. apply get_set_ne. intros Heq.
  rewrite Heq in Hr. congruence.
Qed.

Lemma forEachRepo_get_fetched snapshot repos acc key :
  Poll.skips (JsMap.get key snapshot) = false →
  JsMap.get key (Poll.repoData acc) ≫= Poll.data = None →
  freshlyLoading key (JsMap.get key (Poll.repoData acc))
  ∨ key ∈ map repoKey repos →
  freshlyLoading key
    (JsMap.get key (Poll.repoData (Poll.forEachRepo snapshot repos acc))).
Proof.
  intros Hskip. revert acc.
  induction repos as [|r repos IH]; intros acc Hdata Hcase.
  - destruct Hcase as [?|Hin]; [done|]. by apply not_elem_of_nil in Hin.
  - unfold Poll.forEachRepo in *. simpl.
    destruct (Poll.skips (JsMap.get (repoKey r) snapshot)) eqn:Hr.
    + apply IH; [done|]. destruct Hcase as [?|Hin]; [by left|].
      apply elem_of_cons in Hin as [->|Hin]; [congruence|by right].
    + destruct (decide (repoKey r = key)) as [Heq|Hne].
      * apply IH; rewrite repoData_fetchRepo, Heq, get_set_eq; [by rewrite Hdata|].
        left. eexists. split; [reflexivity|]. simpl. by rewrite Hdata.
      * apply IH; rewrite repoData_fetchRepo, get_set_ne by done; [done|].
        destruct Hcase as [?|Hin]; [by left|].
        apply elem_of_cons in Hin as [->|Hin]; [done|by right].
Qed.

Lemma repoData_effect repos st :
  Poll.repoData (Poll.effect repos st)
  = JsMap.retain (currentKeys repos)
      (Poll.repoData (Poll.forEachRepo (Poll.repoData st) repos st)).
Proof.
  unfold Poll.effect. cbv zeta. cbn [Poll.repoData].
  match goal with
  | |- Poll.repoData (Poll.dropTimers ?keep ?entries ?acc) = _ =>
      by destruct (dropTimers_keeps keep entries acc) as (-> & _)
  end.
Qed.

Lemma pass_entries st repos key :
  let rd := Poll.repoData st in
  let rd' := Poll.repoData (Poll.effect repos (Poll.cleanup st)) in
  (key ∉ map repoKey repos → JsMap.get key rd' = None)
  ∧ (key ∈ map repoKey repos →
     if Poll.skips (JsMap.get key rd) then JsMap.get key rd' = JsMap.get key rd
     else freshlyLoading key (JsMap.get key rd')).
Proof.
  cbv zeta. rewrite repoData_effect, get_retain.
  destruct (cleanup_keeps st) as (Hd & _). rewrite Hd.
  split.
  - intros Hnot. rewrite bool_decide_eq_false_2; [done|].
    by rewrite elem_of_currentKeys.
  - intros Hin. rewrite bool_decide_eq_true_2 by by rewrite elem_of_currentKeys.
    destruct (Poll.skips (JsMap.get key (Poll.repoData st))) eqn:Hskip.
    + by rewrite forEachRepo_get_skipped, Hd.
    + apply forEachRepo_get_fetched; [done| |by right]. rewrite Hd.
      destruct (JsMap.get key (Poll.repoData st)) as [d|]; [|done].
      simpl in *. apply orb_false_iff in Hskip as [Hskip _].
      apply orb_false_iff in Hskip as [Hskip _].
      apply bool_decide_eq_false in Hskip. by apply eq_None_not_Some.
Qed.

End PassResult.

(** X11. When [repos] changes, the pass of [CommitChart] and
    [ContributorsChart] leaves, for every key: no entry when the key is not
    selected; the entry as it was when the key is selected and its entry
    holds a series, is loading or is computing; and otherwise (no entry
    before, or a failed one) a new entry under that key that is loading,
    with no series and no error. *)
Theorem pass_keeps_or_resets_entries {Series} (POLL_INTERVAL_MS : Z)
    (st st' : Poll.State Series) (repos : list ParsedRepo) :
  Poll.step POLL_INTERVAL_MS st (Poll.SetRepos repos) = Some st' →
  Poll.selection st' = repos
  ∧ ∀ key,
      (key ∉ map repoKey repos → JsMap.get key (Poll.repoData st') = None)
      ∧ (key ∈ map repoKey repos →
         if Poll.skips (JsMap.get key (Poll.repoData st))
         then JsMap.get key (Poll.repoData st')
              = JsMap.get key (Poll.repoData st)
         else ∃ d, JsMap.get key (Poll.repoData st') = Some d
                   ∧ repoKey (Poll.repo d) = key ∧ Poll.data d = None
                   ∧ Poll.error d = None ∧ Poll.loading d = true
                   ∧ Poll.computing d = false).
Proof.
  simpl. intros [= <-]. split; [done|]. intros key. apply pass_entries.
Qed.

Lemma pass_keeps_or_resets_entries_witness :
  ∃ st st' : CommitChart.State,
    Poll.run Sample.POLL_INTERVAL_MS Poll.init
      [Poll.SetRepos [Sample.next_js; Sample.react];
       Poll.Settle 1 (Poll.Resolved (Sample.commits [(1, 5)]));
       Poll.Settle 2 (Poll.Rejected (Poll.OtherError "Not Found"))]
    = Some st
    ∧ Poll.step Sample.POLL_INTERVAL_MS st
        (Poll.SetRepos [Sample.react; Sample.next_js]) = Some st'
    ∧ Poll.selection st' = [Sample.react; Sample.next_js]
    ∧ JsMap.get "a/b" (Poll.repoData st') = None.
Proof.
  do 2 eexists. split; [vm_compute; reflexivity|].
  match goal with
  | |- Poll.step _ ?st (Poll.SetRepos ?repos) = Some ?st' ∧ _ =>
      split; [vm_compute; reflexivity|];
      destruct (pass_keeps_or_resets_entries Sample.POLL_INTERVAL_MS st st' repos)
        as [Hsel Hkeys]
  end.
  - vm_compute. reflexivity.
  - split; [exact Hsel|]. apply (Hkeys "a/b").
    apply (bool_decide_unpack _). vm_compute. exact I.
Defined.

(** X12. The first pass of [CommitChart] and [ContributorsChart], when
    nothing is tracked yet, calls the client once for every entry of
    [repos], in that order, entries that repeat a key included. *)
Theorem first_pass_fetches_every_entry {Series}
    (st : Poll.State Series) (repos : list ParsedRepo) :
  Poll.repoData st = JsMap.empty →
  Poll.issued (Poll.effect repos (Poll.cleanup st))
  = Poll.issued st ++ map repoKey repos.
Proof.
  intros Hempty. destruct (cleanup_keeps st) as (Hd & Hi & _).
  rewrite issued_effect, Hd, Hi, Hempty. f_equal. f_equal.
  induction repos as [|r repos IH]; [done|]. simpl. f_equal. exact IH.
Qed.

Lemma first_pass_fetches_every_entry_witness :
  Poll.issued
    (Poll.effect [Sample.react; Sample.next_js; Sample.react]
       (Poll.cleanup (@Poll.init (list CommitChart.CommitActivity))))
  = ["facebook/react"; "vercel/next.js"; "facebook/react"].
Proof.
  exact (first_pass_fetches_every_entry Poll.init
           [Sample.react; Sample.next_js; Sample.react] eq_refl).
Defined.

(** ** Polling from the first fetch to its end *)

Section PollingEnds.
Context {Series : Type}.
Variable POLL_INTERVAL_MS : Z.
Hypothesis interval_not_negative : 0 ≤ POLL_INTERVAL_MS.
Variable r : ParsedRepo.

Lemma mounted_with_one_repository :
  ∃ st : Poll.State Series,
    Poll.step POLL_INTERVAL_MS Poll.init (Poll.SetRepos [r]) = Some st
    ∧ ordered st
    ∧ Poll.fresh st = 2%positive
    ∧ List.find (fun c => Pos.eqb (Poll.ticket c) 1) (Poll.pending st)
      = Some {| Poll.ticket := 1; Poll.target := r |}
    ∧ Poll.calls (repoKey r) st = 1%nat
    ∧ Poll.clock st = 0.
Proof.
  eexists. split; [reflexivity|]. split.
  { exact (ordered_step POLL_INTERVAL_MS Poll.init (Poll.SetRepos [r]) _
             ordered_init eq_refl). }
  split; [reflexivity|]. split; [reflexivity|]. split; [|reflexivity].
  unfold Poll.calls. simpl. by rewrite String.eqb_refl.
Qed.

Lemma polled_until_answer n :
  ∃ (st : Poll.State Series) t,
    Poll.run POLL_INTERVAL_MS Poll.init
      (Poll.SetRepos [r] :: rounds POLL_INTERVAL_MS n 1 2) = Some st
    ∧ List.find (fun c => Pos.eqb (Poll.ticket c) t) (Poll.pending st)
      = Some {| Poll.ticket := t; Poll.target := r |}
    ∧ Poll.calls (repoKey r) st = S n
    ∧ Poll.clock st = Z.of_nat n * POLL_INTERVAL_MS.
Proof.
  destruct mounted_with_one_repository
    as (st1 & Hstep & Hord & Hfresh & Hfind & Hcalls & Hclock).
  destruct (polling_goes_on POLL_INTERVAL_MS n st1 1 _ Hord Hfind
              interval_not_negative)
    as (st & t & Hrun & _ & Hfind' & Hcalls' & Hclock' & _).
  simpl in Hfind', Hcalls'. rewrite Hfresh in Hrun.
  exists st, t. split; [|split; [done|split; [lia|lia]]].
  cbn [Poll.run]. by rewrite Hstep.
Qed.

End PollingEnds.

(** X13. A repository is selected alone and the client answers "still
    computing" [n] times, each answer followed by one poll interval and
    the timer. Then, for the ticket of the last call: if the client
    resolves with a series, the entry is ready with that series and no
    timer is registered for the key; if it rejects with another error, the
    entry is failed with the message. Either way the client was called
    [n + 1] times and [n] poll intervals have passed. *)
Theorem polling_ends_with_the_answer {Series} (POLL_INTERVAL_MS : Z)
    (r : ParsedRepo) (n : nat) :
  0 ≤ POLL_INTERVAL_MS →
  ∃ t,
    (∀ series : Series, ∃ st,
       Poll.run POLL_INTERVAL_MS Poll.init
         (Poll.SetRepos [r] :: rounds POLL_INTERVAL_MS n 1 2
          ++ [Poll.Settle t (Poll.Resolved series)]) = Some st
       ∧ JsMap.get (repoKey r) (Poll.repoData st) = Some (Sample.ready r series)
       ∧ JsMap.get (repoKey r) (Poll.pollTimers st) = None
       ∧ Poll.calls (repoKey r) st = S n
       ∧ Poll.clock st = Z.of_nat n * POLL_INTERVAL_MS)
    ∧ (∀ message, ∃ st : Poll.State Series,
         Poll.run POLL_INTERVAL_MS Poll.init
           (Poll.SetRepos [r] :: rounds POLL_INTERVAL_MS n 1 2
            ++ [Poll.Settle t (Poll.Rejected (Poll.OtherError message))])
         = Some st
         ∧ JsMap.get (repoKey r) (Poll.repoData st)
           = Some {| Poll.repo := r; Poll.data := None;
                     Poll.error := Some message; Poll.loading := false;
                     Poll.computing := false |}
         ∧ Poll.calls (repoKey r) st = S n
         ∧ Poll.clock st = Z.of_nat n * POLL_INTERVAL_MS).
Proof.
  intros Hpoll.
  destruct (polled_until_answer (Series:=Series) POLL_INTERVAL_MS Hpoll r n)
    as (st1 & t & Hrun & Hfind & Hcalls & Hclock).
  exists t.
  destruct (settle_ends_polling POLL_INTERVAL_MS st1 t _ Hfind)
    as [Hresolved Hrejected].
  simpl in Hresolved, Hrejected.
  assert (∀ ev,
            Poll.run POLL_INTERVAL_MS Poll.init
              (Poll.SetRepos [r] :: rounds POLL_INTERVAL_MS n 1 2 ++ [ev])
            = Poll.step POLL_INTERVAL_MS st1 ev) as Hlast.
  { intros ev.
    rewrite (app_comm_cons _ _ (Poll.SetRepos [r])).
    rewrite (run_app POLL_INTERVAL_MS _ _ _ _ Hrun). simpl.
    by destruct (Poll.step POLL_INTERVAL_MS st1 ev). }
  split.
  - intros series. destruct (Hresolved series)
      as (st & Hstep & Hget & Htimer & _ & Hissued).
    exists st. rewrite Hlast. split; [done|]. split; [done|]. split; [done|].
    split.
    + unfold Poll.calls in *. by rewrite Hissued.
    + rewrite <- Hclock. unfold Poll.step, Poll.takeCall in Hstep.
      rewrite Hfind in Hstep. simpl in Hstep. injection Hstep as <-.
      unfold Poll.onResolved. simpl. by destruct (JsMap.get _ _).
  - intros message. destruct (Hrejected message)
      as (st & Hstep & Hget & _ & Hissued).
    exists st. rewrite Hlast. split; [done|]. split; [done|]. split.
    + unfold Poll.calls in *. by rewrite Hissued.
    + rewrite <- Hclock. unfold Poll.step, Poll.takeCall in Hstep.
      rewrite Hfind in Hstep. simpl in Hstep. by injection Hstep as <-.
Qed.

Lemma polling_ends_with_the_answer_witness :
  ∃ t,
    (∀ series : list CommitChart.CommitActivity, ∃ st,
       Poll.run Sample.POLL_INTERVAL_MS Poll.init
         (Poll.SetRepos [Sample.next_js]
          :: rounds Sample.POLL_INTERVAL_MS 3 1 2
          ++ [Poll.Settle t (Poll.Resolved series)]) = Some st
       ∧ JsMap.get (repoKey Sample.next_js) (Poll.repoData st)
         = Some (Sample.ready Sample.next_js series)
       ∧ JsMap.get (repoKey Sample.next_js) (Poll.pollTimers st) = None
       ∧ Poll.calls (repoKey Sample.next_js) st = 4%nat
       ∧ Poll.clock st = Z.of_nat 3 * Sample.POLL_INTERVAL_MS)
    ∧ (∀ message, ∃ st : CommitChart.State,
         Poll.run Sample.POLL_INTERVAL_MS Poll.init
           (Poll.SetRepos [Sample.next_js]
            :: rounds Sample.POLL_INTERVAL_MS 3 1 2
            ++ [Poll.Settle t (Poll.Rejected (Poll.OtherError message))])
         = Some st
         ∧ JsMap.get (repoKey Sample.next_js) (Poll.repoData st)
           = Some {| Poll.repo := Sample.next_js; Poll.data := None;
                     Poll.error := Some message; Poll.loading := false;
                     Poll.computing := false |}
         ∧ Poll.calls (repoKey Sample.next_js) st = 4%nat
         ∧ Poll.clock st = Z.of_nat 3 * Sample.POLL_INTERVAL_MS).
Proof.
  apply (polling_ends_with_the_answer Sample.POLL_INTERVAL_MS Sample.next_js 3).
  by vm_compute.
Defined.

(** ** The function the effect returns *)

Section Cleanup.
Context {Series : Type}.
Implicit Types (st : Poll.State Series).

Lemma clear_all_keeps_others hs st t :
  t ∈ Poll.timeouts st → Poll.handle t ∉ hs →
  t ∈ Poll.timeouts (foldl (fun acc h => Poll.clearTimeout h acc) st hs).
Proof.
  revert st. induction hs as [|h hs IH]; intros st Hin Hnot; [done|].
  apply not_elem_of_cons in Hnot as [Hne Hnot]. simpl. apply IH; [|done].
  simpl. apply list_elem_of_In, filter_In. split; [by apply list_elem_of_In|].
  by apply negb_true_iff, Pos.eqb_neq.
Qed.

Lemma clear_all_clock hs st :
  Poll.clock (foldl (fun acc h => Poll.clearTimeout h acc) st hs) = Poll.clock st.
Proof. revert st. induction hs as [|h hs IH]; intros st; [done|]. simpl. by rewrite IH. Qed.

End Cleanup.

(** X14. The function that the effect of [CommitChart] and
    [ContributorsChart] returns clears the timers whose handles are
    registered in [pollTimers] and empties the registry. It leaves alone
    the tracked entries, the timers whose handle is no longer registered,
    and the calls of the client that are under way; when such a call then
    rejects with [StatsComputingError], a timer is queued again. *)
Theorem cleanup_clears_registered_timers_only {Series}
    (st : Poll.State Series) :
  let st' := Poll.cleanup st in
  Poll.repoData st' = Poll.repoData st
  ∧ Poll.pending st' = Poll.pending st
  ∧ Poll.issued st' = Poll.issued st
  ∧ Poll.pollTimers st' = JsMap.empty
  ∧ (∀ t, t ∈ Poll.timeouts st'
          ↔ t ∈ Poll.timeouts st
            ∧ Poll.handle t ∉ JsMap.values (Poll.pollTimers st))
  ∧ ∀ POLL_INTERVAL_MS ticket call,
      List.find (fun c => Pos.eqb (Poll.ticket c) ticket) (Poll.pending st)
      = Some call →
      ∃ st'',
        Poll.step POLL_INTERVAL_MS st'
          (Poll.Settle ticket (Poll.Rejected Poll.StatsComputingError))
        = Some st''
        ∧ {| Poll.handle := Poll.fresh st'; Poll.retries := Poll.target call;
             Poll.due := Poll.clock st + POLL_INTERVAL_MS |}
          ∈ Poll.timeouts st''.
Proof.
  cbv zeta. destruct (cleanup_keeps st) as (Hd & Hi & Hp & Ht & _).
  split; [done|]. split; [done|]. split; [done|]. split; [done|]. split.
  - intros t. unfold Poll.cleanup. cbn [Poll.timeouts Poll.setPollTimers].
    split; [apply clear_all_timeouts|].
    intros [Hin Hnot]. by apply clear_all_keeps_others.
  - intros POLL ticket call Hfind. eexists. split.
    + simpl. unfold Poll.takeCall. rewrite Hp, Hfind. reflexivity.
    + simpl. apply elem_of_app. right. apply list_elem_of_singleton.
      f_equal. unfold Poll.cleanup. simpl. by rewrite clear_all_clock.
Qed.

(** ** The effect of [IssuesChart] *)

Section IssuesTidy.
Implicit Types (st acc : IssuesChart.State).

Lemma issuesTidy_init : issuesTidy IssuesChart.init.
Proof.
  split; [apply NoDup_nil_2|]. split; [done|].
  intros key Hkey. by apply not_elem_of_empty in Hkey.
Qed.

Lemma issuesTidy_set st key d :
  issuesTidy st → issuesShaped key d →
  issuesTidy (IssuesChart.setRepoData (JsMap.set key d) st).
Proof.
  intros (Hnd & Hshape & Hfetched) Hd. split; [by apply NoDup_keys_set|].
  split.
  - intros k d'. simpl. rewrite get_set. case_decide as Hk.
    + intros [= <-]. by subst.
    + apply Hshape.
  - intros k Hk. simpl. apply elem_of_keys_set. right. by apply Hfetched.
Qed.

Lemma issuesTidy_fetchRepo r st :
  issuesTidy st → issuesTidy (IssuesChart.fetchRepo r st).
Proof.
  intros Htidy. unfold IssuesChart.fetchRepo. case_bool_decide as Hin; [done|].
  destruct Htidy as (Hnd & Hshape & Hfetched).
  split; [by apply NoDup_keys_set|]. split.
  - intros k d'. simpl. rewrite get_set. case_decide as Hk.
    + intros [= <-]. subst. split; [done|]. split; [done|]. by intros [? ?].
    + apply Hshape.
  - intros k. simpl. rewrite elem_of_keys_set, elem_of_union, elem_of_singleton.
    intros [->|Hk]; [by left|]. right. by apply Hfetched.
Qed.

Lemma issuesTidy_forEachRepo snapshot repos st :
  issuesTidy st → issuesTidy (IssuesChart.forEachRepo snapshot repos st).
Proof.
  revert st. induction repos as [|r repos IH]; intros st Htidy; [done|].
  unfold IssuesChart.forEachRepo in *. simpl.
  destruct (JsMap.get (repoKey r) snapshot); [by apply IH|].
  by apply IH, issuesTidy_fetchRepo.
Qed.

Lemma fetchedRepos_after_drop (keep fetched : gset string) (keys : list string) k :
  k ∈ foldl (fun s key => if bool_decide (key ∈ keep) then s else s ∖ {[ key ]})
            fetched keys
  ↔ k ∈ fetched ∧ (k ∈ keep ∨ k ∉ keys).
Proof.
  revert fetched. induction keys as [|key keys IH]; intros fetched; simpl.
  - split; [|by intros [? _]]. intros Hk. split; [done|]. right.
    apply not_elem_of_nil.
  - rewrite IH, not_elem_of_cons. case_bool_decide as Hkeep.
    + split; intros [Hk Hcase]; (split; [done|]).
      * destruct Hcase as [?|?]; [by left|].
        destruct (decide (k = key)) as [->|]; [by left|by right].
      * destruct Hcase as [?|[_ ?]]; [by left|by right].
    + rewrite elem_of_difference, elem_of_singleton.
      split.
      * intros [[Hk Hne] Hcase]. split; [done|].
        destruct Hcase as [?|?]; [by left|by right].
      * intros [Hk Hcase]. destruct Hcase as [Hin|[Hne Hnot]].
        -- split; [|by left]. split; [done|]. intros ->. done.
        -- split; [done|by right].
Qed.

Lemma issuesTidy_effect repos st :
  issuesTidy st → issuesTidy (IssuesChart.effect repos st).
Proof.
  intros Htidy.
  pose proof (issuesTidy_forEachRepo (IssuesChart.repoData st) repos st Htidy)
    as (Hnd & Hshape & Hfetched).
  unfold IssuesChart.effect. cbv zeta.
  split; [by apply NoDup_keys_retain|]. split.
  - intros k d. simpl. rewrite get_retain. case_bool_decide; [apply Hshape|done].
  - intros k. simpl. rewrite fetchedRepos_after_drop, elem_of_keys_retain.
    intros [Hk Hcase]. specialize (Hfetched k Hk).
    destruct Hcase as [?|Hnot]; [done|]. done.
Qed.

Lemma issuesTidy_step st ev st' :
  issuesTidy st → IssuesChart.step st ev = Some st' → issuesTidy st'.
Proof.
  intros Htidy Hstep. destruct ev as [repos|t o]; simpl in Hstep.
  - injection Hstep as <-. by apply issuesTidy_effect.
  - destruct (List.find _ (IssuesChart.pending st)) as [c|]; [|done].
    simpl in Hstep. injection Hstep as <-.
    destruct o as [series|message].
    + apply issuesTidy_set; [done|]. split; [done|]. split; [done|].
      by intros [? ?].
    + apply issuesTidy_set; [done|]. by repeat split.
Qed.

Lemma issuesTidy_run evs st st' :
  issuesTidy st → IssuesChart.run st evs = Some st' → issuesTidy st'.
Proof.
  revert st. induction evs as [|ev evs IH]; intros st Htidy; simpl.
  - by intros [= <-].
  - destruct (IssuesChart.step st ev) as [st1|] eqn:Hstep; [|done].
    simpl. apply IH. by eapply issuesTidy_step.
Qed.

Lemma issues_forEachRepo_exact snapshot repos acc :
  ∃ news,
    IssuesChart.issued (IssuesChart.forEachRepo snapshot repos acc)
    = IssuesChart.issued acc ++ news
    ∧ NoDup news
    ∧ (∀ k, k ∈ news
            ↔ (k ∉ IssuesChart.fetchedRepos acc)
              ∧ k ∈ map repoKey repos ∧ JsMap.get k snapshot = None)
    ∧ (∀ k, k ∈ JsMap.keys (IssuesChart.repoData
                              (IssuesChart.forEachRepo snapshot repos acc))
            ↔ k ∈ JsMap.keys (IssuesChart.repoData acc) ∨ k ∈ news).
Proof.
  revert acc. induction repos as [|r repos IH]; intros acc.
  - exists []. simpl. rewrite app_nil_r. split; [done|].
    split; [constructor|]. split.
    + intros k. split; [by intros ?%not_elem_of_nil|].
      by intros (_ & ?%not_elem_of_nil & _).
    + intros k. split; [by left|]. by intros [?|?%not_elem_of_nil].
  - unfold IssuesChart.forEachRepo in *. simpl.
    destruct (JsMap.get (repoKey r) snapshot) eqn:Hget.
    { destruct (IH acc) as (news & Hi & Hnd & Hnews & Hkeys).
      exists news. split; [done|]. split; [done|]. split; [|done].
      intros k. rewrite Hnews, elem_of_cons. split; [tauto|].
      intros (? & [->|?] & ?); [congruence|done]. }
    destruct (decide (repoKey r ∈ IssuesChart.fetchedRepos acc)) as [Hin|Hnotin].
    { rewrite (issues_fetchRepo_known r acc Hin).
      destruct (IH acc) as (news & Hi & Hnd & Hnews & Hkeys).
      exists news. split; [done|]. split; [done|]. split; [|done].
      intros k. rewrite Hnews, elem_of_cons. split; [tauto|].
      intros (? & [->|?] & ?); [done|done]. }
    destruct (issues_fetchRepo_new r acc Hnotin) as (Hissued & Hfetched).
    destruct (IH (IssuesChart.fetchRepo r acc))
      as (news & Hi & Hnd & Hnews & Hkeys).
    rewrite Hissued in Hi.
    assert (JsMap.keys (IssuesChart.repoData (IssuesChart.fetchRepo r acc))
            = JsMap.keys (JsMap.set (repoKey r)
                {| IssuesChart.repo := r; IssuesChart.data := None;
                   IssuesChart.error := None; IssuesChart.loading := true |}
                (IssuesChart.repoData acc))) as Hset.
    { unfold IssuesChart.fetchRepo. by rewrite bool_decide_eq_false_2. }
    exists (repoKey r :: news). split; [by rewrite Hi, <- app_assoc|].
    split.
    { apply NoDup_cons. split; [|done]. intros Hin.
      apply Hnews in Hin as [Hnot _]. apply Hnot. rewrite Hfetched.
      by apply elem_of_union_l, elem_of_singleton. }
    split.
    + intros k. rewrite !elem_of_cons, Hnews, Hfetched.
      rewrite not_elem_of_union, not_elem_of_singleton. split.
      * intros [->|((Hne & Hnot) & Hsel & Hnone)]; [by auto|]. by auto.
      * intros (Hnot & [->|Hsel] & Hnone); [by left|].
        destruct (decide (k = repoKey r)) as [->|Hne]; [by left|]. by right.
    + intros k. rewrite Hkeys, Hset, elem_of_keys_set, elem_of_cons. tauto.
Qed.

Lemma issues_forEachRepo_tracked snapshot repos acc key :
  is_Some (JsMap.get key (IssuesChart.repoData acc)) →
  is_Some (JsMap.get key (IssuesChart.repoData
                            (IssuesChart.forEachRepo snapshot repos acc))).
Proof.
  rewrite !get_Some_keys.
  destruct (issues_forEachRepo_exact snapshot repos acc) as (news & _ & _ & _ & Hkeys).
  intros Hin. apply Hkeys. by left.
Qed.

End IssuesTidy.

(** X15. In every state that [IssuesChart] reaches the tracked map has no
    key twice, every entry sits under the key of its own repository, an
    entry that is loading holds neither a series nor an error, an entry
    that holds an error holds no series, and every key of [fetchedRepos]
    has an entry. *)
Theorem issues_entries_are_shaped
    (evs : list IssuesChart.Event) (st : IssuesChart.State) :
  IssuesChart.run IssuesChart.init evs = Some st →
  NoDup (JsMap.keys (IssuesChart.repoData st))
  ∧ (∀ key d,
       JsMap.get key (IssuesChart.repoData st) = Some d →
       repoKey (IssuesChart.repo d) = key
       ∧ (IssuesChart.loading d = true →
          IssuesChart.data d = None ∧ IssuesChart.error d = None)
       ∧ (is_Some (IssuesChart.error d) → IssuesChart.data d = None))
  ∧ ∀ key, key ∈ IssuesChart.fetchedRepos st →
           key ∈ JsMap.keys (IssuesChart.repoData st).
Proof.
  intros Hrun. exact (issuesTidy_run evs _ _ issuesTidy_init Hrun).
Qed.

Lemma issues_entries_are_shaped_witness :
  ∃ st,
    IssuesChart.run IssuesChart.init
      [IssuesChart.SetRepos [Sample.next_js; Sample.react; Sample.next_js];
       IssuesChart.Settle 2 (IssuesChart.Rejected "Not Found");
       IssuesChart.SetRepos [Sample.react];
       IssuesChart.Settle 1 (IssuesChart.Resolved (Sample.issueWeeks [(1, 5)]))]
    = Some st
    ∧ NoDup (JsMap.keys (IssuesChart.repoData st)).
Proof.
  eexists.
  match goal with
  | |- IssuesChart.run _ ?evs = Some ?st ∧ _ =>
      split; [vm_compute; reflexivity|];
      apply (issues_entries_are_shaped evs st)
  end.
  vm_compute. reflexivity.
Defined.

(** X16. From a state that [IssuesChart] has reached, a pass for [repos]
    leaves the tracked keys equal to the keys of [repos], and calls the
    client exactly for the keys of [repos] that had no entry, once for
    each, however often the key occurs in [repos]. *)
Theorem issues_pass_fetches_untracked_once
    (evs : list IssuesChart.Event) (st : IssuesChart.State)
    (repos : list ParsedRepo) :
  IssuesChart.run IssuesChart.init evs = Some st →
  let st' := IssuesChart.effect repos st in
  IssuesChart.selection st' = repos
  ∧ (∀ key, key ∈ JsMap.keys (IssuesChart.repoData st')
            ↔ key ∈ map repoKey repos)
  ∧ ∃ news,
      IssuesChart.issued st' = IssuesChart.issued st ++ news
      ∧ NoDup news
      ∧ ∀ key, key ∈ news
               ↔ key ∈ map repoKey repos
                 ∧ JsMap.get key (IssuesChart.repoData st) = None.
Proof.
  intros Hrun. cbv zeta.
  pose proof (issuesTidy_run evs _ _ issuesTidy_init Hrun)
    as (_ & _ & Hfetched).
  destruct (issues_forEachRepo_exact (IssuesChart.repoData st) repos st)
    as (news & Hi & Hnd & Hnews & Hkeys).
  assert (∀ key, key ∈ news
                 ↔ key ∈ map repoKey repos
                   ∧ JsMap.get key (IssuesChart.repoData st) = None) as Hexact.
  { intros key. rewrite Hnews. split; [tauto|]. intros [Hsel Hnone].
    split; [|done]. intros Hin. apply Hfetched in Hin.
    by apply get_None_keys in Hnone. }
  split; [done|]. split.
  - intros key. unfold IssuesChart.effect. cbv zeta. simpl.
    rewrite elem_of_keys_retain, elem_of_currentKeys, Hkeys, Hexact.
    split; [tauto|]. intros Hsel. split; [done|].
    destruct (JsMap.get key (IssuesChart.repoData st)) as [d|] eqn:Hget.
    + left. apply get_Some_keys. by rewrite Hget.
    + by right.
  - exists news. unfold IssuesChart.effect. cbv zeta. simpl.
    split; [exact Hi|]. split; [exact Hnd|]. exact Hexact.
Qed.

Lemma issues_pass_fetches_untracked_once_witness :
  IssuesChart.issued
    (IssuesChart.effect [Sample.react; Sample.next_js; Sample.react]
                        IssuesChart.init)
  = ["facebook/react"; "vercel/next.js"]
  ∧ ∀ key, key ∈ JsMap.keys
                   (IssuesChart.repoData
                      (IssuesChart.effect
                         [Sample.react; Sample.next_js; Sample.react]
                         IssuesChart.init))
           ↔ key ∈ map repoKey [Sample.react; Sample.next_js; Sample.react].
Proof.
  split; [reflexivity|].
  apply (issues_pass_fetches_untracked_once [] IssuesChart.init
           [Sample.react; Sample.next_js; Sample.react] eq_refl).
Defined.

Lemma issues_tracked_step key st ev st' :
  is_Some (JsMap.get key (IssuesChart.repoData st)) →
  issuesKeepsSelected key ev →
  IssuesChart.step st ev = Some st' →
  is_Some (JsMap.get key (IssuesChart.repoData st'))
  ∧ IssuesChart.calls key st' = IssuesChart.calls key st.
Proof.
  intros Htracked Hkeeps Hstep. destruct ev as [repos|t o]; simpl in *.
  - injection Hstep as <-. split; [|by apply issues_no_call_for_tracked].
    unfold IssuesChart.effect. cbv zeta. simpl. rewrite get_retain.
    rewrite bool_decide_eq_true_2 by by apply elem_of_currentKeys.
    by apply issues_forEachRepo_tracked.
  - destruct (List.find _ (IssuesChart.pending st)) as [c|]; [|done].
    simpl in Hstep. injection Hstep as <-. split; [|by destruct o].
    destruct o; simpl; rewrite get_set; by case_decide.
Qed.

(** X17. [IssuesChart] never fetches a repository again while it stays
    selected: from a state in which the key has an entry, loading, ready or
    failed, no sequence of events that keeps the key selected makes the
    client be called for it, and the key keeps an entry. A failed fetch is
    not retried. *)
Theorem issues_tracked_repository_is_not_refetched
    (key : string) (evs : list IssuesChart.Event) (st st' : IssuesChart.State) :
  is_Some (JsMap.get key (IssuesChart.repoData st)) →
  Forall (issuesKeepsSelected key) evs →
  IssuesChart.run st evs = Some st' →
  is_Some (JsMap.get key (IssuesChart.repoData st'))
  ∧ IssuesChart.calls key st' = IssuesChart.calls key st.
Proof.
  revert st. induction evs as [|ev evs IH]; intros st Htracked Hkeeps Hrun.
  - simpl in Hrun. by injection Hrun as <-.
  - simpl in Hrun. destruct (IssuesChart.step st ev) as [st1|] eqn:Hstep; [|done].
    simpl in Hrun. apply Forall_cons in Hkeeps as [Hev Hevs].
    destruct (issues_tracked_step key st ev st1 Htracked Hev Hstep) as [Ht1 Hc1].
    destruct (IH st1 Ht1 Hevs Hrun) as [Ht' Hc']. split; [done|]. congruence.
Qed.

Lemma issues_tracked_repository_is_not_refetched_witness :
  ∃ st st',
    IssuesChart.run IssuesChart.init
      [IssuesChart.SetRepos [Sample.next_js];
       IssuesChart.Settle 1 (IssuesChart.Rejected "API rate limit exceeded")]
    = Some st
    ∧ IssuesChart.run st
        [IssuesChart.SetRepos [Sample.next_js; Sample.react];
         IssuesChart.Settle 2 (IssuesChart.Resolved (Sample.issueWeeks [(1, 5)]));
         IssuesChart.SetRepos [Sample.react; Sample.next_js]]
      = Some st'
    ∧ is_Some (JsMap.get "vercel/next.js" (IssuesChart.repoData st'))
    ∧ IssuesChart.calls "vercel/next.js" st' = 1%nat.
Proof.
  do 2 eexists. split; [vm_compute; reflexivity|].
  match goal with
  | |- IssuesChart.run ?st ?evs = Some ?st' ∧ _ =>
      split; [vm_compute; reflexivity|];
      destruct (issues_tracked_repository_is_not_refetched
                  "vercel/next.js" evs st st') as [Htracked Hcalls]
  end.
  - eexists. vm_compute. reflexivity.
  - repeat constructor; simpl;
      repeat (first [apply list_elem_of_here | apply list_elem_of_further]).
  - vm_compute. reflexivity.
  - split; [exact Htracked|]. rewrite Hcalls. reflexivity.
Defined.

(** ** Cells of the merged dataset, in general *)

Lemma find_unique {A} (f : A → Z) (d : list A) (e : A) :
  NoDup (map f d) → e ∈ d → List.find (fun x => f x =? f e) d = Some e.
Proof.
  induction d as [|x d IH]; simpl; [by intros _ ?%not_elem_of_nil|].
  intros [Hx Hd]%NoDup_cons [->|He]%elem_of_cons.
  - by rewrite Z.eqb_refl.
  - destruct (Z.eqb_spec (f x) (f e)) as [Heq|_]; [|by apply IH].
    destruct Hx. rewrite Heq.
    change (map f d) with (f <$> d). by apply list_elem_of_fmap_2.
Qed.

Section ChartCells.
Variable formatWeekDate : Z → string.

Lemma commit_row_inv repos repoData i row :
  CommitChart.chartData formatWeekDate repos repoData !! i = Some row →
  ∃ base w,
    Chart.baseSeries CommitChart.activity (JsMap.values repoData) = Some base
    ∧ base !! i = Some w.
Proof.
  unfold CommitChart.chartData.
  destruct (Chart.baseSeries _ _) as [base|]; [|done].
  rewrite list_lookup_imap. destruct (base !! i) as [w|] eqn:Hw; [|done].
  intros _. by exists base, w.
Qed.

Lemma contributors_row_inv repos
    (repoData : JsMap.t ContributorsChart.RepoData) i row :
  ContributorsChart.chartData formatWeekDate repos repoData !! i = Some row →
  ∃ base w,
    Chart.baseSeries Poll.data (JsMap.values repoData) = Some base
    ∧ Js.slice_last 52 base !! i = Some w.
Proof.
  unfold ContributorsChart.chartData.
  destruct (Chart.baseSeries _ _) as [base|]; [|done]. cbv zeta.
  rewrite list_lookup_fmap. destruct (Js.slice_last 52 base !! i) as [w|] eqn:Hw; [|done].
  intros _. by exists base, w.
Qed.

Lemma issues_row_inv repos repoData i row :
  IssuesChart.chartData formatWeekDate repos repoData !! i = Some row →
  ∃ base w,
    Chart.baseSeries IssuesChart.data (JsMap.values repoData) = Some base
    ∧ base !! i = Some w.
Proof.
  unfold IssuesChart.chartData.
  destruct (Chart.baseSeries _ _) as [base|]; [|done]. cbv zeta.
  rewrite list_lookup_fmap. destruct (base !! i) as [w|] eqn:Hw; [|done].
  intros _. by exists base, w.
Qed.

End ChartCells.

(** X18. Every row of [ContributorsChart] is labelled with the formatted
    timestamp of the row. Its cell for a key is there exactly when the key
    is selected, its entry holds a series and the series has an entry with
    the row's timestamp; the cell is the count of the first such entry, so
    of the only one when the weeks of the series are distinct. *)
Theorem contributors_cells_follow_timestamp
    (formatWeekDate : Z → string) (repos : list ParsedRepo)
    (repoData : JsMap.t ContributorsChart.RepoData)
    (i : nat) (row : Chart.Point) :
  ContributorsChart.chartData formatWeekDate repos repoData !! i = Some row →
  Chart.week row = formatWeekDate (Chart.weekTimestamp row)
  ∧ (∀ k, Chart.columns row !! k
          = if bool_decide (k ∈ map repoKey repos)
            then d ← JsMap.get k repoData ≫= Poll.data;
                 ContributorsChart.contributors <$>
                   List.find (fun x => ContributorsChart.week x
                                       =? Chart.weekTimestamp row) d
            else None)
  ∧ ∀ k d e,
      k ∈ map repoKey repos →
      JsMap.get k repoData ≫= Poll.data = Some d →
      NoDup (map ContributorsChart.week d) →
      e ∈ d → ContributorsChart.week e = Chart.weekTimestamp row →
      Chart.columns row !! k = Some (ContributorsChart.contributors e).
Proof.
  intros Hrow.
  destruct (contributors_row_inv _ _ _ _ _ Hrow) as (base & w & Hbase & Hw).
  destruct (contributors_row formatWeekDate repos repoData base i w Hbase Hw)
    as (row' & Hrow' & Hweek & Hts & Hcols).
  assert (row' = row) as -> by congruence.
  rewrite Hts. split; [done|]. split; [done|].
  intros k d e Hk Hd Hnd He Hwe. rewrite Hcols, bool_decide_eq_true_2 by done.
  rewrite Hd. simpl. rewrite <- Hwe.
  by rewrite (find_unique ContributorsChart.week d e Hnd He).
Qed.

Lemma contributors_cells_follow_timestamp_witness :
  ∃ row,
    ContributorsChart.chartData Sample.formatWeekDate
      [Sample.next_js; Sample.react]
      [("vercel/next.js",
        Sample.ready Sample.next_js (Sample.contribs [(1, 10); (2, 20)]));
       ("facebook/react",
        Sample.ready Sample.react (Sample.contribs [(2, 7); (3, 9)]))]
      !! 1%nat = Some row
    ∧ Chart.week row = Sample.formatWeekDate (Chart.weekTimestamp row).
Proof.
  eexists.
  match goal with
  | |- ?rows !! ?i = Some ?row ∧ _ =>
      split; [vm_compute; reflexivity|];
      match rows with
      | _ ?fmt ?repos ?rd => apply (contributors_cells_follow_timestamp fmt repos rd i row)
      end
  end.
  vm_compute. reflexivity.
Defined.

(** X19. Every row of [IssuesChart] is labelled with the formatted
    timestamp of the row. Its cell for a key is there exactly when the key
    is selected and its entry holds a series; the cell is the count of the
    first entry of the series with the row's timestamp, so of the only one
    when the weeks of the series are distinct, and zero when the series
    has no entry for that week. *)
Theorem issues_cells_follow_timestamp
    (formatWeekDate : Z → string) (repos : list ParsedRepo)
    (repoData : JsMap.t IssuesChart.RepoData)
    (i : nat) (row : Chart.Point) :
  IssuesChart.chartData formatWeekDate repos repoData !! i = Some row →
  Chart.week row = formatWeekDate (Chart.weekTimestamp row)
  ∧ (∀ k, is_Some (Chart.columns row !! k)
          ↔ k ∈ map repoKey repos
            ∧ is_Some (JsMap.get k repoData ≫= IssuesChart.data))
  ∧ ∀ k d,
      k ∈ map repoKey repos →
      JsMap.get k repoData ≫= IssuesChart.data = Some d →
      Chart.columns row !! k
      = Some (default 0
                (IssuesChart.issues <$>
                   List.find (fun x => IssuesChart.week x
                                       =? Chart.weekTimestamp row) d))
      ∧ (∀ e, NoDup (map IssuesChart.week d) → e ∈ d →
              IssuesChart.week e = Chart.weekTimestamp row →
              Chart.columns row !! k = Some (IssuesChart.issues e))
      ∧ ((∀ e, e ∈ d → IssuesChart.week e ≠ Chart.weekTimestamp row) →
         Chart.columns row !! k = Some 0).
Proof.
  intros Hrow.
  destruct (issues_row_inv _ _ _ _ _ Hrow) as (base & w & Hbase & Hw).
  destruct (issues_row formatWeekDate repos repoData base i w Hbase Hw)
    as (row' & Hrow' & Hweek & Hts & Hcols).
  assert (row' = row) as -> by congruence.
  rewrite Hts. split; [done|]. split.
  - intros k. rewrite Hcols. case_bool_decide as Hk.
    + destruct (JsMap.get k repoData ≫= IssuesChart.data) as [d|]; simpl.
      * split; [by intros _|by intros _; eexists].
      * split; [by intros [? ?]|by intros [_ [? ?]]].
    + split; [by intros [? ?]|by intros [? _]].
  - intros k d Hk Hd. rewrite Hcols, bool_decide_eq_true_2 by done.
    rewrite Hd. simpl. split; [done|]. split.
    + intros e Hnd He Hwe. rewrite <- Hwe.
      by rewrite (find_unique IssuesChart.week d e Hnd He).
    + intros Hnone.
      destruct (List.find _ d) as [e|] eqn:Hfind; [|done].
      apply find_some in Hfind as [He Heq]. apply Z.eqb_eq in Heq.
      destruct (Hnone e); [by apply list_elem_of_In|done].
Qed.

Lemma issues_cells_follow_timestamp_witness :
  ∃ row,
    IssuesChart.chartData Sample.formatWeekDate
      [Sample.next_js; Sample.react]
      [("vercel/next.js",
        Sample.readyIssues Sample.next_js (Sample.issueWeeks [(1, 10); (2, 20)]));
       ("facebook/react",
        Sample.readyIssues Sample.react (Sample.issueWeeks [(2, 7); (3, 9)]))]
      !! 0%nat = Some row
    ∧ Chart.week row = Sample.formatWeekDate (Chart.weekTimestamp row).
Proof.
  eexists.
  match goal with
  | |- ?rows !! ?i = Some ?row ∧ _ =>
      split; [vm_compute; reflexivity|];
      match rows with
      | _ ?fmt ?repos ?rd => apply (issues_cells_follow_timestamp fmt repos rd i row)
      end
  end.
  vm_compute. reflexivity.
Defined.

(** X20. Every row of [CommitChart] is labelled with the formatted
    timestamp of the row, and its cell for a selected key whose entry holds
    a series is the entry at the row's own position in that series, absent
    when the series is shorter. When that series has the same weeks as the
    base series, in the same order and each once, the cell is the count of
    the entry with the row's timestamp. *)
Theorem commit_cells_agree_on_equal_weeks
    (formatWeekDate : Z → string) (repos : list ParsedRepo)
    (repoData : JsMap.t CommitChart.RepoData)
    (i : nat) (row : Chart.Point) :
  CommitChart.chartData formatWeekDate repos repoData !! i = Some row →
  Chart.week row = formatWeekDate (Chart.weekTimestamp row)
  ∧ (∀ k, is_Some (Chart.columns row !! k) → k ∈ map repoKey repos)
  ∧ ∀ k a,
      k ∈ map repoKey repos →
      JsMap.get k repoData ≫= CommitChart.activity = Some a →
      Chart.columns row !! k = CommitChart.total <$> a !! i
      ∧ ∀ base,
          Chart.baseSeries CommitChart.activity (JsMap.values repoData)
          = Some base →
          map CommitChart.week a = map CommitChart.week base →
          NoDup (map CommitChart.week base) →
          Chart.columns row !! k
          = CommitChart.total <$>
              List.find (fun x => CommitChart.week x
                                  =? Chart.weekTimestamp row) a.
Proof.
  intros Hrow.
  destruct (commit_row_inv _ _ _ _ _ Hrow) as (base & w & Hbase & Hw).
  destruct (commit_row formatWeekDate repos repoData base i w Hbase Hw)
    as (row' & Hrow' & Hweek & Hts & Hcols).
  assert (row' = row) as -> by congruence.
  rewrite Hts. split; [done|]. split.
  - intros k. rewrite Hcols. case_bool_decide; [done|]. by intros [? ?].
  - intros k a Hk Ha. rewrite Hcols, bool_decide_eq_true_2 by done.
    rewrite Ha. simpl. split; [done|].
    intros base' Hbase' Hweeks Hnd.
    assert (base' = base) as -> by congruence.
    assert ((CommitChart.week <$> a) !! i = Some (CommitChart.week w)) as Hai.
    { change (CommitChart.week <$> a) with (map CommitChart.week a).
      rewrite Hweeks. change (map CommitChart.week base)
        with (CommitChart.week <$> base).
      by rewrite list_lookup_fmap, Hw. }
    rewrite list_lookup_fmap in Hai.
    destruct (a !! i) as [e|] eqn:He; [|done]. simpl in Hai.
    injection Hai as Hwe. rewrite <- Hwe.
    rewrite (find_unique CommitChart.week a e); [done| |].
    + by rewrite Hweeks.
    + by eapply list_elem_of_lookup_2.
Qed.

Lemma commit_cells_agree_on_equal_weeks_witness :
  ∃ row,
    CommitChart.chartData Sample.formatWeekDate
      [Sample.next_js; Sample.react]
      [("vercel/next.js",
        Sample.ready Sample.next_js (Sample.commits [(1, 10); (2, 20)]));
       ("facebook/react",
        Sample.ready Sample.react (Sample.commits [(1, 7); (2, 9)]))]
      !! 1%nat = Some row
    ∧ Chart.week row = Sample.formatWeekDate (Chart.weekTimestamp row).
Proof.
  eexists.
  match goal with
  | |- ?rows !! ?i = Some ?row ∧ _ =>
      split; [vm_compute; reflexivity|];
      match rows with
      | _ ?fmt ?repos ?rd => apply (commit_cells_agree_on_equal_weeks fmt repos rd i row)
      end
  end.
  vm_compute. reflexivity.
Defined.
